(** * EnriLSP: a shallow embedding of the LSP bridge and its edit applier

    The development follows the TypeScript sources:
    - [src/file-edits.ts]  (WorkspaceEditApplier)      -> [Module FileEdits]
    - [src/lsp/client.ts]  (LspClient)                 -> the other modules

    JavaScript strings are sequences of UTF-16 code units; they are modelled
    as lists of code units ([list N]).  JavaScript numbers that hold offsets,
    positions, identifiers and scores are modelled as integers ([Z]). *)

From Stdlib Require Import ZArith List Lia Bool Ascii String Sorted Permutation.
From Stdlib.Strings Require Import Byte.
From stdpp Require Import gmap strings list fin_maps pretty.

Set Warnings "-register-all".

Local Open Scope Z_scope.

(** ** JavaScript strings *)

Abbreviation jsstring := (list N).

(** A string literal of the source whose characters are all ASCII. *)
Definition lit (s : string) : jsstring :=
  map (fun a => N_of_ascii a) (list_ascii_of_string s).

Definition jslength {A} (s : list A) : Z := Z.of_nat (length s).

(** [String.prototype.slice] / [Buffer.prototype.slice] on integer arguments:
    a negative index counts from the end, every index is clamped into
    [0, length], and an empty result is returned when the bounds cross. *)
Definition rel_index (len k : Z) : Z :=
  if k <? 0 then Z.max 0 (len + k) else Z.min k len.

Definition slice {A} (s : list A) (from to : Z) : list A :=
  let len := jslength s in
  let f := rel_index len from in
  let t := rel_index len to in
  take (Z.to_nat (t - f)) (drop (Z.to_nat f) s).

Definition slice_from {A} (s : list A) (from : Z) : list A :=
  slice s from (jslength s).

(** ** JavaScript arrays *)

(** [Array.prototype.sort] is a stable sort; with a consistent comparator
    its result is determined, and it is computed here by stable insertion. *)
Fixpoint insertBy {A} (cmp : A -> A -> Z) (x : A) (l : list A) : list A :=
  match l with
  | [] => [x]
  | y :: l' => if cmp x y <=? 0 then x :: l else y :: insertBy cmp x l'
  end.

Definition sortBy {A} (cmp : A -> A -> Z) (l : list A) : list A :=
  foldr (insertBy cmp) [] l.

(** ** src/types.ts *)

Module Types.

(** A value of type [unknown]: what [JSON.parse] can return, and [undefined]. *)
Inductive jsval :=
| VUndefined
| VNull
| VBool (b : bool)
| VNumber (n : Z)
| VString (s : string)
| VArray (items : list jsval)
| VObject (fields : list (string * jsval)).

(** [type LspId = number | string] *)
Inductive LspId := IdNumber (n : Z) | IdString (s : string).

(** An optional field that is absent is [None]. *)
Record EnriLspServerConfig := {
  name : option string;
  extensions : list string;
  command : list string;
  rootDir : option string;
  initializationOptions : option jsval;
  warmupMs : option Z
}.

Record LspPosition := { line : Z; character : Z }.
Record LspRange := { start : LspPosition; end_ : LspPosition }.
Record LspTextEdit := { range : LspRange; newText : jsstring }.

Record LspError := { code : Z; message : string }.

Record LspMessage := {
  id : option LspId;
  method : option string;
  params : jsval;
  result : jsval;
  error : option LspError
}.

Record SymbolMatch := {
  sm_name : string;
  sm_kind : Z;
  sm_position : LspPosition
}.

Fixpoint assoc {K V} (eqb : K -> K -> bool) (k : K) (l : list (K * V))
    : option V :=
  match l with
  | [] => None
  | (k', v) :: l' => if eqb k k' then Some v else assoc eqb k l'
  end.

(** [v[k]] for a property name [k]; [None] is the [TypeError] raised on
    [undefined] and [null]. *)
Definition getField (k : string) (v : jsval) : option jsval :=
  match v with
  | VUndefined | VNull => None
  | VObject fields => Some (default VUndefined (assoc String.eqb k fields))
  | _ => Some VUndefined
  end.

(** A falsy value. *)
Definition isFalsy (v : jsval) : bool :=
  match v with
  | VUndefined | VNull | VBool false | VNumber 0 | VString EmptyString => true
  | _ => false
  end.

End Types.

(** ** src/file-edits.ts *)

Module FileEdits.
Import Types.

(** The loop of [computeLineOffsets], from index [i] on. *)
Fixpoint lineOffsetsFrom (i : Z) (text : jsstring) : list Z :=
  match text with
  | [] => []
  | c :: rest =>
      if (c =? 10)%N then (i + 1) :: lineOffsetsFrom (i + 1) rest
      else lineOffsetsFrom (i + 1) rest
  end.

Definition computeLineOffsets (text : jsstring) : list Z :=
  0 :: lineOffsetsFrom 0 text.

Definition offsetAt (lineOffsets : list Z) (position : LspPosition)
    (text : jsstring) : Z :=
  let line := Z.max 0 (line position) in
  let character := Z.max 0 (character position) in
  if jslength lineOffsets <=? line then jslength text
  else Z.min (jslength text) (nth (Z.to_nat line) lineOffsets 0 + character).

(** The object literal [{ start, end, newText }] built by the [map]. *)
Record Normalized := { n_start : Z; n_end : Z; n_newText : jsstring }.

Definition normalize (lineOffsets : list Z) (content : jsstring)
    (edit : LspTextEdit) : Normalized :=
  {| n_start := offsetAt lineOffsets (start (range edit)) content;
     n_end := offsetAt lineOffsets (end_ (range edit)) content;
     n_newText := newText edit |}.

(** The comparator [(a, b) => b.start - a.start || b.end - a.end]. *)
Definition compareEdits (a b : Normalized) : Z :=
  let d := n_start b - n_start a in
  if d =? 0 then n_end b - n_end a else d.

(** [throw new Error(`Invalid edit: start(${start}) > end(${end})`)] *)
Inductive EditError := InvalidEdit (start_offset end_offset : Z).

Definition splice (out : jsstring) (edit : Normalized) : jsstring :=
  slice out 0 (n_start edit) ++ n_newText edit ++ slice_from out (n_end edit).

(** The [for (const edit of normalized)] loop. *)
Fixpoint applyLoop (out : jsstring) (normalized : list Normalized)
    : EditError + jsstring :=
  match normalized with
  | [] => inr out
  | edit :: rest =>
      if n_end edit <? n_start edit
      then inl (InvalidEdit (n_start edit) (n_end edit))
      else applyLoop (splice out edit) rest
  end.

Definition normalizedEdits (content : jsstring) (edits : list LspTextEdit)
    : list Normalized :=
  let lineOffsets := computeLineOffsets content in
  sortBy compareEdits (map (normalize lineOffsets content) edits).

Definition applyTextEditsToContent (content : jsstring)
    (edits : list LspTextEdit) : EditError + jsstring :=
  match edits with
  | [] => inr content
  | _ => applyLoop content (normalizedEdits content edits)
  end.

Definition mkEdit (l1 c1 l2 c2 : Z) (text : string) : LspTextEdit :=
  {| range := {| start := {| line := l1; character := c1 |};
                 end_ := {| line := l2; character := c2 |} |};
     newText := lit text |}.

End FileEdits.

(** ** src/lsp/client.ts: the frame codec ([sendMessage], [drainServerBuffer]) *)

Module Codec.

(** A [Buffer] is a sequence of bytes. *)
Abbreviation buffer := (list byte).

Definition CR : byte := "013"%byte.
Definition LF : byte := "010"%byte.

(** [Buffer.from("\r\n\r\n", "ascii")] *)
Definition separator : buffer := [CR; LF; CR; LF].

Fixpoint startsWith (p l : buffer) : bool :=
  match p, l with
  | [], _ => true
  | _ :: _, [] => false
  | a :: p', b :: l' => Byte.eqb a b && startsWith p' l'
  end.

(** [buffer.indexOf(p)]: the first index at which [p] occurs; [None] is the
    source's -1. *)
Fixpoint indexOf (p l : buffer) : option nat :=
  if startsWith p l then Some 0%nat
  else match l with
       | [] => None
       | _ :: l' => option_map S (indexOf p l')
       end.

(** [buf.toString("ascii")] keeps the low seven bits of every byte. *)
Definition toStringAscii (b : buffer) : jsstring :=
  map (fun x => N.land (Byte.to_N x) 127) b.

(** *** The regular expression [/Content-Length:\s*(\d+)/i] *)

(** Case-insensitive comparison canonicalises both characters to upper case. *)
Definition canonicalize (c : N) : N :=
  if ((97 <=? c) && (c <=? 122))%N then (c - 32)%N else c.

(** [\s] on seven-bit characters: TAB, LF, VT, FF, CR and SPACE. *)
Definition isSpace (c : N) : bool :=
  ((9 <=? c) && (c <=? 13) || (c =? 32))%N.

(** [\d] *)
Definition isDigit (c : N) : bool := ((48 <=? c) && (c <=? 57))%N.

(** Matches the literal [pat] at the head of [text], ignoring case, and
    returns what follows it. *)
Fixpoint matchLiteral (pat text : jsstring) : option jsstring :=
  match pat, text with
  | [], _ => Some text
  | _ :: _, [] => None
  | p :: pat', c :: text' =>
      if (canonicalize p =? canonicalize c)%N then matchLiteral pat' text'
      else None
  end.

Fixpoint skipSpaces (text : jsstring) : jsstring :=
  match text with
  | c :: text' => if isSpace c then skipSpaces text' else text
  | [] => []
  end.

Fixpoint takeDigits (text : jsstring) : jsstring :=
  match text with
  | c :: text' => if isDigit c then c :: takeDigits text' else []
  | [] => []
  end.

(** A match anchored at the head of [text].  [\s*] and [\d+] are greedy, and
    giving back a space never helps, since [\d+] cannot start on a space: the
    match succeeds exactly when a digit follows the run of spaces. *)
Definition matchHere (text : jsstring) : option jsstring :=
  match matchLiteral (lit "Content-Length:") text with
  | None => None
  | Some after =>
      match takeDigits (skipSpaces after) with
      | [] => None
      | digits => Some digits
      end
  end.

(** [regex.exec(text)]: the leftmost match; the result is capture group 1. *)
Fixpoint execContentLength (text : jsstring) : option jsstring :=
  match matchHere text with
  | Some digits => Some digits
  | None => match text with
            | [] => None
            | _ :: text' => execContentLength text'
            end
  end.

(** [Number.parseInt(digits, 10)] on a string of decimal digits. *)
Definition parseInt (digits : jsstring) : N :=
  fold_left (fun acc c => (acc * 10 + (c - 48))%N) digits 0%N.

(** *** [drainServerBuffer] *)

(** The [while (true)] loop; every round that goes on drops at least the four
    bytes of a separator, so [S (length buffer)] rounds are never used up.
    The result is the list of frame bodies cut out, in order, and the buffer
    left in [state.buffer]. *)
Fixpoint drainLoop (fuel : nat) (buf : buffer) : list buffer * buffer :=
  match fuel with
  | O => ([], buf)
  | S fuel' =>
      match indexOf separator buf with
      | None => ([], buf)
      | Some headerEnd =>
          let headerText := toStringAscii (take headerEnd buf) in
          match execContentLength headerText with
          | None => drainLoop fuel' (drop (headerEnd + length separator) buf)
          | Some digits =>
              let len := N.to_nat (parseInt digits) in
              let bodyStart := (headerEnd + length separator)%nat in
              if (length buf <? bodyStart + len)%nat then ([], buf)
              else
                let body := take len (drop bodyStart buf) in
                let '(bodies, rest) := drainLoop fuel' (drop (bodyStart + len) buf) in
                (body :: bodies, rest)
          end
      end
  end.

Definition drainServerBuffer (buf : buffer) : list buffer * buffer :=
  drainLoop (S (length buf)) buf.

(** The [stdout.on("data")] handler: append the chunk, then drain. *)
Definition onData (buf chunk : buffer) : list buffer * buffer :=
  drainServerBuffer (buf ++ chunk).

(** Successive [data] events. *)
Fixpoint feed (buf : buffer) (chunks : list buffer) : list buffer * buffer :=
  match chunks with
  | [] => ([], buf)
  | chunk :: chunks' =>
      let '(bodies, buf') := onData buf chunk in
      let '(bodies', buf'') := feed buf' chunks' in
      (bodies ++ bodies', buf'')
  end.

(** *** [sendMessage] *)

(** The decimal digits of a number, most significant first, as the template
    literal [`${n}`] prints them. *)
Fixpoint decimalLoop (fuel : nat) (n : N) (acc : list N) : list N :=
  match fuel with
  | O => acc
  | S fuel' =>
      let acc' := (n mod 10)%N :: acc in
      if (n / 10 =? 0)%N then acc' else decimalLoop fuel' (n / 10)%N acc'
  end.

Definition decimalDigits (n : N) : list N :=
  decimalLoop (S (N.to_nat (N.log2 n))) n [].

(** The number that a list of decimal digits denotes. *)
Definition digitsValue (ds : list N) : N :=
  fold_left (fun acc d => (acc * 10 + d)%N) ds 0%N.

Definition digitByte (d : N) : byte :=
  match Byte.of_N (48 + d) with Some b => b | None => "0"%byte end.

(** [`Content-Length: ${n}\r\n\r\n`] written with the "ascii" encoding. *)
Definition header (n : N) : buffer :=
  list_byte_of_string "Content-Length: " ++ map digitByte (decimalDigits n)
  ++ separator.

Section Messages.
(** [JSON.stringify] followed by UTF-8 encoding, and UTF-8 decoding followed
    by [JSON.parse] (which throws, here [None], on malformed input), belong to
    the runtime. *)
Context {message : Type}.
Variable stringify : message -> buffer.
Variable parse : buffer -> option message.

Definition sendMessage (m : message) : buffer :=
  let content := stringify m in
  header (N.of_nat (length content)) ++ content.

(** The messages handed to [handleMessage]: a body that does not parse is
    logged and dropped. *)
Definition received (drained : list buffer * buffer) : list message * buffer :=
  (omap parse (fst drained), snd drained).

End Messages.

End Codec.

(** ** src/lsp/client.ts: the router ([orderServerConfigsBySpecificity]) *)

Module Router.
Import Types.

(** The functions of [node:path] the router calls, and [process.cwd()]. *)
Record PathModule := {
  isAbsolute : string -> bool;
  resolve : string -> string -> string;
  normalize : string -> string;
  relative : string -> string -> string;
  cwd : string
}.

(** The object literal [{ server, index, score }]. *)
Record Scored := { server : EnriLspServerConfig; index : Z; score : Z }.

Section WithPath.
Variable path : PathModule.

Definition absolutePath (p : string) : string :=
  normalize path (if isAbsolute path p then p else resolve path (cwd path) p).

(** [rel === "" || (!rel.startsWith("..") && !isAbsolute(rel))] *)
Definition isInside (root absoluteFilePath : string) : bool :=
  let rel := relative path root absoluteFilePath in
  String.eqb rel "" || (negb (String.prefix ".." rel) && negb (isAbsolute path rel)).

(** The callback of [servers.map]; [!server.rootDir] holds for an absent and
    for an empty [rootDir]. *)
Definition scoreServer (absoluteFilePath : string) (index : nat)
    (server : EnriLspServerConfig) : Scored :=
  match rootDir server with
  | None => {| server := server; index := Z.of_nat index; score := 0 |}
  | Some dir =>
      if String.eqb dir "" then
        {| server := server; index := Z.of_nat index; score := 0 |}
      else
        let root := absolutePath dir in
        {| server := server; index := Z.of_nat index;
           score := if isInside root absoluteFilePath
                    then 10000 + Z.of_nat (String.length root) else -1 |}
  end.

Definition scoredServers (filePath : string)
    (servers : list EnriLspServerConfig) : list Scored :=
  imap (scoreServer (absolutePath filePath)) servers.

(** The comparator [(a, b) => b.score - a.score || a.index - b.index]. *)
Definition compareScored (a b : Scored) : Z :=
  let d := score b - score a in
  if d =? 0 then index a - index b else d.

Definition orderServerConfigsBySpecificity (filePath : string)
    (servers : list EnriLspServerConfig) : list EnriLspServerConfig :=
  if (length servers <=? 1)%nat then servers
  else map server (sortBy compareScored (scoredServers filePath servers)).

End WithPath.

(** *** [node:path] on POSIX paths

    A path is cut into its segments at every slash; [.] and empty segments
    are dropped and [..] removes the segment before it. *)

Fixpoint splitSlash (cur : list ascii) (s : list ascii) : list string :=
  match s with
  | [] => [string_of_list_ascii (rev cur)]
  | c :: s' =>
      if Ascii.eqb c "/" then string_of_list_ascii (rev cur) :: splitSlash [] s'
      else splitSlash (c :: cur) s'
  end.

(** One step of [normalizeString]; [stack] holds the segments kept so far,
    last first. *)
Definition pushSegment (allowAboveRoot : bool) (stack : list string)
    (seg : string) : list string :=
  if String.eqb seg "" || String.eqb seg "." then stack
  else if String.eqb seg ".." then
    match stack with
    | top :: stack' =>
        if String.eqb top ".." then seg :: stack else stack'
    | [] => if allowAboveRoot then [seg] else []
    end
  else seg :: stack.

Definition normalizeSegments (allowAboveRoot : bool) (p : string) : list string :=
  rev (fold_left (pushSegment allowAboveRoot)
         (splitSlash [] (list_ascii_of_string p)) []).

Definition joinSlash (segs : list string) : string :=
  match segs with
  | [] => ""
  | seg :: segs' => fold_left (fun acc x => acc ++ "/" ++ x)%string segs' seg
  end.

Definition posixIsAbsolute (p : string) : bool := String.prefix "/" p.

Definition endsWithSlash (p : string) : bool :=
  match rev (list_ascii_of_string p) with
  | c :: _ => Ascii.eqb c "/"
  | [] => false
  end.

Definition posixNormalize (p : string) : string :=
  if String.eqb p "" then "."
  else
    let abs := posixIsAbsolute p in
    let body := joinSlash (normalizeSegments (negb abs) p) in
    if String.eqb body "" then
      (if abs then "/" else if endsWithSlash p then "./" else ".")
    else
      let body' := if endsWithSlash p then (body ++ "/")%string else body in
      if abs then ("/" ++ body')%string else body'.

(** [resolve(base, p)] for an absolute [base]. *)
Definition posixResolve (base p : string) : string :=
  let full := if posixIsAbsolute p then p else (base ++ "/" ++ p)%string in
  ("/" ++ joinSlash (normalizeSegments false full))%string.

Fixpoint dropCommon (from to : list string) : list string * list string :=
  match from, to with
  | a :: from', b :: to' =>
      if String.eqb a b then dropCommon from' to' else (from, to)
  | _, _ => (from, to)
  end.

Definition posixRelative (base from to : string) : string :=
  let from' := normalizeSegments false (posixResolve base from) in
  let to' := normalizeSegments false (posixResolve base to) in
  let '(up, down) := dropCommon from' to' in
  joinSlash (map (fun _ => "..") up ++ down).

Definition posix (workingDirectory : string) : PathModule :=
  {| isAbsolute := posixIsAbsolute;
     resolve := posixResolve;
     normalize := posixNormalize;
     relative := posixRelative workingDirectory;
     cwd := workingDirectory |}.

Definition backend (label : string) (root : option string) : EnriLspServerConfig :=
  {| name := Some label; extensions := ["ts"]; command := [label; "--stdio"];
     rootDir := root; initializationOptions := None; warmupMs := None |}.

End Router.

(** ** src/lsp/client.ts: capabilities and the operation dispatcher

    The operations are run one at a time, as their caller runs them; a
    backend is described by what it answers.  Every message written to a
    backend is recorded, in order, in the wire log of the client. *)

Module Dispatcher.
Import Types.

(** [makeServerKey] is [JSON.stringify({ command, rootDir, extensions })]; the
    text is determined by, and determines, these three components. *)
Definition ServerKey : Type := list string * string * list string.

Definition makeServerKey (normalize : string -> string)
    (server : EnriLspServerConfig) (workspaceRoot : string) : ServerKey :=
  (command server, normalize workspaceRoot, extensions server).

(** The data fields of [ServerState]. *)
Record ServerState := {
  config : EnriLspServerConfig;
  initialized : bool;
  capabilities : gmap string jsval;
  openFiles : gset string;
  fileVersions : gmap string Z;
  workspaceRoot : string
}.

(** *** [serverAdvertisedCapability] *)

Definition serverAdvertisedCapability (caps : gmap string jsval) (key : string)
    : bool :=
  (* [Object.keys(caps).length > 0] *)
  let hasCaps := (0 <? size caps)%nat in
  if negb hasCaps then true
  else
    match caps !! key with
    | None | Some VUndefined | Some VNull => false
    | Some (VBool raw) => raw
    | Some _ => true
    end.

(** *** Document symbols *)

(** [DocumentSymbol], with the start of its [selectionRange]. *)
Inductive DocumentSymbol :=
  mkDocumentSymbol (name : string) (kind : Z) (selectionStart : LspPosition)
    (children : list DocumentSymbol).

(** An entry of a [textDocument/documentSymbol] result: a [DocumentSymbol], a
    [SymbolInformation] (with the start of its location's range), or a falsy
    entry. *)
Inductive SymbolEntry :=
| Hierarchical (symbol : DocumentSymbol)
| Flat (name : string) (kind : Z) (locationStart : LspPosition)
| Falsy.

(** What a backend answers to a request. *)
Inductive ResultValue :=
| Symbols (entries : list SymbolEntry)   (* an array of symbols *)
| Value (v : jsval).

Inductive Reply :=
| Result (r : ResultValue)
| ErrorReply (message : string)
| NoReply.                                (* the timer fires first *)

Inductive Wire :=
| Spawn (key : ServerKey)
| Request (key : ServerKey) (method : string) (timeoutMs : Z)
| Notification (key : ServerKey) (method : string).

Record Client := {
  servers : gmap ServerKey ServerState;
  wire : list Wire
}.

(** A computation that reads and updates the client and may throw. *)
Definition M (A : Type) : Type := Client -> (string + A) * Client.

Definition ret {A} (a : A) : M A := fun c => (inr a, c).
Definition throw {A} (e : string) : M A := fun c => (inl e, c).
Definition bind {A B} (m : M A) (k : A -> M B) : M B :=
  fun c => match m c with
           | (inr a, c') => k a c'
           | (inl e, c') => (inl e, c')
           end.
(** [try { m } catch { handler }] *)
Definition try_catch {A} (m : M A) (handler : string -> M A) : M A :=
  fun c => match m c with
           | (inr a, c') => (inr a, c')
           | (inl e, c') => handler e c'
           end.

#[global] Instance M_ret : MRet M := @ret.
#[global] Instance M_bind : MBind M := fun A B k m => bind m k.

Definition emit (w : Wire) : M unit :=
  fun c => (inr tt, {| servers := servers c; wire := wire c ++ [w] |}).

Definition getState (key : ServerKey) : M (option ServerState) :=
  fun c => (inr (servers c !! key), c).

Definition setState (key : ServerKey) (st : ServerState) : M unit :=
  fun c => (inr tt, {| servers := <[key := st]> (servers c); wire := wire c |}).

Definition isFalsyString (s : option string) : bool :=
  match s with None => true | Some s => String.eqb s "" end.

(** [typeof v === "object"] for a non-null [v], as a record of its keys. *)
Definition asRecord (v : jsval) : option (gmap string jsval) :=
  match v with
  | VObject fields => Some (list_to_map fields)
  | VArray items => Some (list_to_map (imap (fun i x => (pretty i, x)) items))
  | _ => None
  end.

(** *** Symbol kinds and symbol matching *)

Definition kindTable : list (string * Z) :=
  [("file", 1); ("module", 2); ("namespace", 3); ("package", 4); ("class", 5);
   ("method", 6); ("property", 7); ("field", 8); ("constructor", 9);
   ("enum", 10); ("interface", 11); ("function", 12); ("variable", 13);
   ("constant", 14); ("string", 15); ("number", 16); ("boolean", 17);
   ("array", 18); ("object", 19); ("key", 20); ("null", 21);
   ("enummember", 22); ("enum-member", 22); ("struct", 23); ("event", 24);
   ("operator", 25); ("typeparameter", 26); ("type-parameter", 26)]%string.

Definition kindNames : list (Z * string) :=
  [(1, "file"); (2, "module"); (3, "namespace"); (4, "package"); (5, "class");
   (6, "method"); (7, "property"); (8, "field"); (9, "constructor");
   (10, "enum"); (11, "interface"); (12, "function"); (13, "variable");
   (14, "constant"); (15, "string"); (16, "number"); (17, "boolean");
   (18, "array"); (19, "object"); (20, "key"); (21, "null");
   (22, "enumMember"); (23, "struct"); (24, "event"); (25, "operator");
   (26, "typeParameter")]%string.

(** [map[kind] ?? `unknown(${kind})`] *)
Definition symbolKindToString (kind : Z) : string :=
  match assoc Z.eqb kind kindNames with
  | Some name => name
  | None => ("unknown(" ++ pretty kind ++ ")")%string
  end.

Definition isWhite (c : ascii) : bool :=
  let n := N_of_ascii c in ((9 <=? n) && (n <=? 13) || (n =? 32))%N.

Fixpoint trimStart (s : list ascii) : list ascii :=
  match s with
  | c :: s' => if isWhite c then trimStart s' else s
  | [] => []
  end.

Definition trim (s : string) : string :=
  string_of_list_ascii
    (rev (trimStart (rev (trimStart (list_ascii_of_string s))))).

Definition lowerAscii (c : ascii) : ascii :=
  let n := N_of_ascii c in
  if ((65 <=? n) && (n <=? 90))%N then ascii_of_N (n + 32) else c.

Definition toLowerCase (s : string) : string :=
  string_of_list_ascii (map lowerAscii (list_ascii_of_string s)).

(** The value of [desiredKind]: [undefined], a number of the table, or, for
    the one lower-case name that the table object inherits ([__proto__]), an
    object, which no kind equals. *)
Inductive DesiredKind := AnyKind | KindNumber (k : Z) | NotAKind.

Definition symbolKindFromString (kind : option string) : DesiredKind :=
  if isFalsyString kind then AnyKind
  else
    let normalized := toLowerCase (trim (default "" kind)) in
    match assoc String.eqb normalized kindTable with
    | Some k => KindNumber k
    | None => if String.eqb normalized "__proto__" then NotAKind else AnyKind
    end.

Definition pushMatch (symbolName : string) (desiredKind : DesiredKind)
    (name : string) (kind : Z) (position : LspPosition)
    (matches : list SymbolMatch) : list SymbolMatch :=
  if negb (String.eqb name symbolName) then matches
  else
    match desiredKind with
    | AnyKind => matches ++ [{| sm_name := name; sm_kind := kind; sm_position := position |}]
    | KindNumber k =>
        if negb (kind =? k) then matches
        else matches ++ [{| sm_name := name; sm_kind := kind; sm_position := position |}]
    | NotAKind => matches
    end.

Fixpoint walkDocumentSymbol (symbolName : string) (desiredKind : DesiredKind)
    (sym : DocumentSymbol) (matches : list SymbolMatch) : list SymbolMatch :=
  match sym with
  | mkDocumentSymbol name kind selectionStart children =>
      fold_left
        (fun acc child => walkDocumentSymbol symbolName desiredKind child acc)
        children
        (pushMatch symbolName desiredKind name kind selectionStart matches)
  end.

(** The [for (const sym of docs)] loop of [findSymbolsByName]. *)
Definition matchSymbols (symbolName : string) (desiredKind : DesiredKind)
    (docs : list SymbolEntry) : list SymbolMatch :=
  fold_left
    (fun matches sym =>
       match sym with
       | Falsy => matches
       | Flat name kind locationStart =>
           pushMatch symbolName desiredKind name kind locationStart matches
       | Hierarchical d => walkDocumentSymbol symbolName desiredKind d matches
       end)
    docs [].

(** The arguments of the [rename_symbol] tool. *)
Record RenameSymbolArgs := {
  file_path : string;
  symbol_name : string;
  symbol_kind : option string;
  new_name : string;
  dry_run : bool
}.

(** A line of the candidate list:
    [`${file_path}:${line + 1}:${character + 1} (${kind})`]. *)
Record Candidate := {
  c_file : string;
  c_line : Z;
  c_column : Z;
  c_kind : string
}.

Definition candidateOf (file_path : string) (m : SymbolMatch) : Candidate :=
  {| c_file := file_path;
     c_line := line (sm_position m) + 1;
     c_column := character (sm_position m) + 1;
     c_kind := symbolKindToString (sm_kind m) |}.

(** The answers of [handleRenameSymbol]: no symbol, several candidates, or
    the workspace edit obtained from [renameSymbol], which is then previewed
    ([dry_run]) or written to disk. *)
Inductive RenameResponse :=
| NoSymbolsFound (symbolName : string)
| MultipleSymbolsMatch (symbolName : string) (candidates : list Candidate)
| Renamed (edit : ResultValue) (dryRun : bool).

(** [!result || typeof result !== "object"] *)
Definition notAnObject (r : ResultValue) : bool :=
  match r with
  | Symbols _ => false
  | Value (VObject _) | Value (VArray _) => false
  | Value _ => true
  end.

(** [k in v]; [None] is the [TypeError] raised on a primitive value. *)
Definition hasField (k : string) (v : jsval) : option bool :=
  match v with
  | VObject fields =>
      Some (match assoc String.eqb k fields with Some _ => true | None => false end)
  | VArray _ => Some false
  | _ => None
  end.

Definition hasBoth (k1 k2 : string) (v : jsval) : option bool :=
  match hasField k1 v with
  | Some true => hasField k2 v
  | other => other
  end.

(** [{ uri, range }] *)
Definition Location : Type := jsval * jsval.

Definition pick (k1 k2 : string) (v : jsval) : option Location :=
  match getField k1 v, getField k2 v with
  | Some a, Some b => Some (a, b)
  | _, _ => None
  end.

(** [normalizeLocations]; [None] is a [TypeError]. *)
Definition normalizeLocations (r : ResultValue) : option (list Location) :=
  match r with
  | Symbols _ => Some []
  | Value v =>
      if isFalsy v then Some []
      else
        match v with
        | VArray [] => Some []
        | VArray (first :: _ as items) =>
            if isFalsy first then Some []
            else
              match hasBoth "uri" "range" first with
              | None => None
              | Some true => mapM (pick "uri" "range") items
              | Some false =>
                  match hasBoth "targetUri" "targetRange" first with
                  | None => None
                  | Some true => mapM (pick "targetUri" "targetRange") items
                  | Some false => Some []
                  end
              end
        | VObject _ =>
            match hasBoth "uri" "range" v with
            | Some true => option_map (fun l => [l]) (pick "uri" "range" v)
            | _ =>
                match hasBoth "targetUri" "targetRange" v with
                | Some true =>
                    option_map (fun l => [l]) (pick "targetUri" "targetRange" v)
                | _ => Some []
                end
            end
        | _ => Some []
        end
  end.

(** [if (!result || typeof result !== "object") return {}; return result] *)
Definition asWorkspaceEdit (r : ResultValue) : option ResultValue :=
  Some (if notAnObject r then Value (VObject []) else r).

Section World.
(** The surroundings: path and URI functions of the runtime, the file
    system, and the backends, which answer the last request of the wire log. *)
Variable normalize : string -> string.
Variable resolvePath : string -> string.
Variable pathToUri : string -> string.
Variable getWorkspaceRootForFile : string -> EnriLspServerConfig -> string.
Variable readFile : string -> option jsstring.
Variable answer : list Wire -> Reply.

Definition sendNotification (key : ServerKey) (method : string) : M unit :=
  emit (Notification key method).

Definition sendRequest (key : ServerKey) (method : string) (timeoutMs : Z)
    : M ResultValue :=
  fun c =>
    let c' := {| servers := servers c;
                 wire := wire c ++ [Request key method timeoutMs] |} in
    match answer (wire c') with
    | Result r => (inr r, c')
    | ErrorReply message => (inl message, c')
    | NoReply =>
        (inl ("LSP request timeout: " ++ method ++ " (" ++ pretty timeoutMs
              ++ "ms)")%string, c')
    end.

(** [initializeServer]; the state is published by its caller. *)
Definition initializeServer (key : ServerKey) (state : ServerState)
    : M ServerState :=
  initResult ← sendRequest key "initialize" 30000;
  let caps :=
    match initResult with
    | Value v =>
        match asRecord v with
        | Some fields =>
            match fields !! "capabilities"%string with
            | Some c => asRecord c
            | None => None
            end
        | None => None
        end
    | Symbols _ => None
    end in
  sendNotification key "initialized";;
  ret {| config := config state;
         initialized := true;
         capabilities := default (capabilities state) caps;
         openFiles := openFiles state;
         fileVersions := fileVersions state;
         workspaceRoot := workspaceRoot state |}.

Definition startServer (serverConfig : EnriLspServerConfig)
    (workspaceRoot : string) : M ServerState :=
  if isFalsyString (head (command serverConfig)) then
    throw "Invalid server config: command[0] is required"
  else
    let root := normalize workspaceRoot in
    let key := makeServerKey normalize serverConfig workspaceRoot in
    emit (Spawn key);;
    initializeServer key
      {| config := serverConfig; initialized := false; capabilities := ∅;
         openFiles := ∅; fileVersions := ∅; workspaceRoot := root |}.

(** [getServerForConfig], followed by [await state.initializationPromise]. *)
Definition getServerForConfig (filePath : string)
    (serverConfig : EnriLspServerConfig) : M ServerKey :=
  let workspaceRoot := getWorkspaceRootForFile filePath serverConfig in
  let key := makeServerKey normalize serverConfig workspaceRoot in
  existing ← getState key;
  match existing with
  | Some _ => ret key
  | None =>
      state ← startServer serverConfig workspaceRoot;
      setState key state;;
      ret key
  end.

(** [ensureFileOpen(state, filePath)]; the state object is the one
    registered under [key]. *)
Definition ensureFileOpen (key : ServerKey) (filePath : string) : M bool :=
  let absolutePath := resolvePath filePath in
  let uri := pathToUri absolutePath in
  st ← getState key;
  match st with
  | None => throw "no such server"
  | Some state =>
      if bool_decide (uri ∈ openFiles state) then ret false
      else
        match readFile absolutePath with
        | None => throw "ENOENT"
        | Some _ =>
            setState key
              {| config := config state; initialized := initialized state;
                 capabilities := capabilities state;
                 openFiles := {[uri]} ∪ openFiles state;
                 fileVersions := <[uri := 1]> (fileVersions state);
                 workspaceRoot := workspaceRoot state |};;
            sendNotification key "textDocument/didOpen";;
            ret true
        end
  end.

Definition advertised (key : ServerKey) (capability : string) : M bool :=
  st ← getState key;
  match st with
  | None => throw "no such server"
  | Some state => ret (serverAdvertisedCapability (capabilities state) capability)
  end.

Definition noServerConfigured {A} (filePath : string) : M A :=
  throw ("No LSP server configured for file: " ++ filePath).

(** The [for (const cfg of configs)] loop of [getDocumentSymbols]. *)
Fixpoint getDocumentSymbolsLoop (filePath : string)
    (configs : list EnriLspServerConfig) : M (list SymbolEntry) :=
  match configs with
  | [] => ret []
  | cfg :: rest =>
      acquired ← try_catch (key ← getServerForConfig filePath cfg; mret (Some key))
                    (fun _ => ret None);
      match acquired with
      | None => getDocumentSymbolsLoop filePath rest
      | Some key =>
          ok ← advertised key "documentSymbolProvider";
          if negb ok then getDocumentSymbolsLoop filePath rest
          else
            ensureFileOpen key filePath;;
            outcome ← try_catch
                         (r ← sendRequest key "textDocument/documentSymbol" 30000;
                          ret (Some r))
                         (fun _ => ret None);
            match outcome with
            | Some (Symbols entries) => ret entries
            | _ => getDocumentSymbolsLoop filePath rest
            end
      end
  end.

(** [configs] is the result of [getOrderedServerConfigsForFile]. *)
Definition getDocumentSymbols (configs : list EnriLspServerConfig)
    (filePath : string) : M (list SymbolEntry) :=
  match configs with
  | [] => noServerConfigured filePath
  | _ => getDocumentSymbolsLoop filePath configs
  end.

Definition liftThrow {A} (o : option A) : M A :=
  match o with Some a => mret a | None => throw "TypeError" end.

(** The loop of [renameSymbol], [findDefinition] and [findReferences]: the
    first backend that starts, advertises [capability] and answers the
    request with a result that [post] accepts gives the result; [post] is what
    the [try] block does with the answer. *)
Fixpoint requestLoop {A} (filePath : string) (capability method : string)
    (timeoutMs : Z) (post : ResultValue -> option A)
    (configs : list EnriLspServerConfig) : M (option A) :=
  match configs with
  | [] => mret None
  | cfg :: rest =>
      acquired ← try_catch (key ← getServerForConfig filePath cfg; mret (Some key))
                    (fun _ => mret None);
      match acquired with
      | None => requestLoop filePath capability method timeoutMs post rest
      | Some key =>
          ok ← advertised key capability;
          if negb ok then requestLoop filePath capability method timeoutMs post rest
          else
            ensureFileOpen key filePath;;
            outcome ← try_catch
                         (r ← sendRequest key method timeoutMs;
                          a ← liftThrow (post r);
                          mret (Some a))
                         (fun _ => mret None);
            match outcome with
            | Some a => mret (Some a)
            | None => requestLoop filePath capability method timeoutMs post rest
            end
      end
  end.

(** The fall-back after the loop: [getServer] picks the first config of the
    ordered list, and the request goes out without the capability test. *)
Definition fallbackRequest {A} (filePath : string) (method : string)
    (timeoutMs : Z) (post : ResultValue -> option A)
    (configs : list EnriLspServerConfig) : M A :=
  match configs with
  | [] => noServerConfigured filePath
  | cfg :: _ =>
      key ← getServerForConfig filePath cfg;
      ensureFileOpen key filePath;;
      r ← sendRequest key method timeoutMs;
      liftThrow (post r)
  end.

Definition requestWithFallback {A} (filePath : string)
    (capability method : string) (timeoutMs : Z)
    (post : ResultValue -> option A)
    (configs : list EnriLspServerConfig) : M A :=
  match configs with
  | [] => noServerConfigured filePath
  | _ =>
      found ← requestLoop filePath capability method timeoutMs post configs;
      match found with
      | Some a => mret a
      | None => fallbackRequest filePath method timeoutMs post configs
      end
  end.

Definition findDefinition (configs : list EnriLspServerConfig)
    (filePath : string) : M (list Location) :=
  requestWithFallback filePath "definitionProvider" "textDocument/definition"
    30000 normalizeLocations configs.

Definition findReferences (configs : list EnriLspServerConfig)
    (filePath : string) : M (list Location) :=
  requestWithFallback filePath "referencesProvider" "textDocument/references"
    30000 normalizeLocations configs.

Definition renameSymbol (configs : list EnriLspServerConfig)
    (filePath : string) : M ResultValue :=
  requestWithFallback filePath "renameProvider" "textDocument/rename"
    60000 asWorkspaceEdit configs.

Definition findSymbolsByName (configs : list EnriLspServerConfig)
    (filePath symbolName : string) (symbolKind : option string)
    : M (list SymbolMatch) :=
  docs ← getDocumentSymbols configs filePath;
  mret (matchSymbols symbolName (symbolKindFromString symbolKind) docs).

(** [handleRenameSymbol] of the tool server, up to the workspace edit. *)
Definition handleRenameSymbol (configs : list EnriLspServerConfig)
    (toolArgs : RenameSymbolArgs) : M RenameResponse :=
  let absolutePath := resolvePath (file_path toolArgs) in
  matches ← findSymbolsByName configs absolutePath (symbol_name toolArgs)
              (symbol_kind toolArgs);
  match matches with
  | [] => mret (NoSymbolsFound (symbol_name toolArgs))
  | [m] =>
      edit ← renameSymbol configs absolutePath;
      mret (Renamed edit (dry_run toolArgs))
  | _ =>
      mret (MultipleSymbolsMatch (symbol_name toolArgs)
              (map (candidateOf (file_path toolArgs)) matches))
  end.

End World.

(** *** What an operation writes *)

(** [emits P m]: whatever the client, running [m] only appends to the wire
    log, and every message it appends satisfies [P]. *)
Definition emits (P : Wire -> Prop) {A} (m : M A) : Prop :=
  forall c, exists extra, wire (m c).2 = wire c ++ extra /\ Forall P extra.

(** A condition on the requests only: spawns and notifications are free. *)
Definition requestsSatisfy (allowed : string -> Z -> Prop) (w : Wire) : Prop :=
  match w with
  | Request _ method timeoutMs => allowed method timeoutMs
  | _ => True
  end.

(** The budget with which each request is written. *)
Definition budget (method : string) (timeoutMs : Z) : Prop :=
  (method = "textDocument/rename"%string /\ timeoutMs = 60000)
  \/ ((method = "initialize"%string
       \/ method = "textDocument/definition"%string
       \/ method = "textDocument/references"%string
       \/ method = "textDocument/documentSymbol"%string)
      /\ timeoutMs = 30000).

End Dispatcher.

(** ** src/lsp/client.ts: the correlation engine
    ([sendRequest], [sendNotification], [handleMessage])

    The client reacts to events: a call of [sendRequest], a message decoded
    from the output of a process, the firing of a timer. *)

Module Correlation.
Import Types.

#[global] Instance LspId_eq_dec : EqDecision LspId.
Proof. solve_decision. Defined.

#[global] Instance LspId_countable : Countable LspId.
Proof.
  refine (inj_countable'
            (fun i => match i with IdNumber n => inl n | IdString s => inr s end)
            (fun x => match x with inl n => IdNumber n | inr s => IdString s end)
            _).
  intros [n|s]; reflexivity.
Defined.

(** A [ChildProcess]; every [ServerState] has its own. *)
Definition ProcessId : Type := nat.

(** How the promise returned by [sendRequest] is settled. *)
Inductive Outcome :=
| Resolved (value : jsval)
| RejectedError (message : string)
| RejectedTimeout (method : string) (timeoutMs : Z).

(** The closures [{ resolve, reject, timer }] made by one call of
    [sendRequest]; [call] numbers the calls, and with them the promise and
    the timer that a call creates. *)
Record PendingRequest := { call : nat }.

(** What the callback given to [setTimeout] holds. *)
Record Timer := { t_id : Z; t_method : string; t_timeoutMs : Z }.

Record LspClient := {
  nextId : Z;
  pendingRequests : gmap LspId PendingRequest;
  (** the number of calls of [sendRequest] so far *)
  calls : nat;
  (** the timers that are armed: set, and neither cleared nor fired *)
  timers : gmap nat Timer;
  (** the calls of [resolvePromise] and [rejectPromise], oldest first *)
  settlements : list (nat * Outcome);
  (** what [sendMessage] has written to the input of each process *)
  stdin : list (ProcessId * LspMessage);
  (** [state.diagnostics] of each process *)
  diagnostics : gmap (ProcessId * string) jsval
}.

Definition newClient : LspClient :=
  {| nextId := 1; pendingRequests := ∅; calls := 0; timers := ∅;
     settlements := []; stdin := []; diagnostics := ∅ |}.

Definition sendMessage (process : ProcessId) (message : LspMessage)
    (c : LspClient) : LspClient :=
  {| nextId := nextId c; pendingRequests := pendingRequests c;
     calls := calls c; timers := timers c; settlements := settlements c;
     stdin := stdin c ++ [(process, message)];
     diagnostics := diagnostics c |}.

Definition sendRequest (process : ProcessId) (method : string) (params : jsval)
    (timeoutMs : Z) (c : LspClient) : LspClient :=
  let id := nextId c in
  let message := {| id := Some (IdNumber id); method := Some method;
                    params := params; result := VUndefined; error := None |} in
  sendMessage process message
    {| nextId := id + 1;
       pendingRequests := <[IdNumber id := {| call := calls c |}]> (pendingRequests c);
       calls := S (calls c);
       timers := <[calls c := {| t_id := id; t_method := method;
                                 t_timeoutMs := timeoutMs |}]> (timers c);
       settlements := settlements c;
       stdin := stdin c;
       diagnostics := diagnostics c |}.

Definition sendNotification (process : ProcessId) (method : string)
    (params : jsval) (c : LspClient) : LspClient :=
  sendMessage process
    {| id := None; method := Some method; params := params;
       result := VUndefined; error := None |} c.

(** The callback of the timer of call [h]:
    [this.pendingRequests.delete(id); rejectPromise(new Error(...))]; a timer
    that has fired is no longer armed. *)
Definition timerFires (h : nat) (c : LspClient) : option LspClient :=
  match timers c !! h with
  | None => None
  | Some t =>
      Some {| nextId := nextId c;
              pendingRequests := delete (IdNumber (t_id t)) (pendingRequests c);
              calls := calls c;
              timers := delete h (timers c);
              settlements := settlements c
                             ++ [(h, RejectedTimeout (t_method t) (t_timeoutMs t))];
              stdin := stdin c;
              diagnostics := diagnostics c |}
  end.

(** [pending.resolve(value)] and [pending.reject(reason)]:
    [clearTimeout(timer)], then the promise is settled. *)
Definition settle (pending : PendingRequest) (o : Outcome) (c : LspClient)
    : LspClient :=
  {| nextId := nextId c; pendingRequests := pendingRequests c;
     calls := calls c;
     timers := delete (call pending) (timers c);
     settlements := settlements c ++ [(call pending, o)];
     stdin := stdin c; diagnostics := diagnostics c |}.

Definition deletePending (i : LspId) (c : LspClient) : LspClient :=
  {| nextId := nextId c; pendingRequests := delete i (pendingRequests c);
     calls := calls c; timers := timers c; settlements := settlements c;
     stdin := stdin c; diagnostics := diagnostics c |}.

Definition setDiagnostics (process : ProcessId) (uri : string) (d : jsval)
    (c : LspClient) : LspClient :=
  {| nextId := nextId c; pendingRequests := pendingRequests c;
     calls := calls c; timers := timers c; settlements := settlements c;
     stdin := stdin c;
     diagnostics := <[(process, uri) := d]> (diagnostics c) |}.

Definition truthyString (s : option string) : bool :=
  match s with Some s => negb (String.eqb s "") | None => false end.

Section Handlers.
(** [uriConverter.pathToUri(state.workspaceRoot)] for the state of a process. *)
Variable workspaceUri : ProcessId -> string.

Definition handleServerRequest (process : ProcessId) (method : string)
    (params : jsval) : jsval :=
  if String.eqb method "window/workDoneProgress/create" then VNull
  else if String.eqb method "workspace/configuration" then
    let count := match getField "items" params with
                 | Some (VArray items) => length items
                 | _ => 0%nat
                 end in
    VArray (replicate count (VObject []))
  else if String.eqb method "workspace/workspaceFolders" then
    VArray [VObject [("uri", VString (workspaceUri process));
                     ("name", VString "workspace")]]
  else if String.eqb method "client/registerCapability"
          || String.eqb method "client/unregisterCapability" then VNull
  else if String.eqb method "workspace/applyEdit" then
    VObject [("applied", VBool false);
             ("failureReason",
              VString "EnriLSP does not apply edits via LSP requests")]
  else VNull.

Definition handleMessage (process : ProcessId) (message : LspMessage)
    (c : LspClient) : LspClient :=
  let pending :=
    match id message with
    | Some i => option_map (fun p => (i, p)) (pendingRequests c !! i)
    | None => None
    end in
  match pending with
  | Some (i, p) =>
      (* Response to one of our requests. *)
      let c' := deletePending i c in
      match error message with
      | Some e => settle p (RejectedError (Types.message e)) c'
      | None => settle p (Resolved (result message)) c'
      end
  | None =>
      match id message with
      | Some i =>
          if truthyString (method message) then
            (* Server -> client request (must respond). *)
            let r := handleServerRequest process (default "" (method message))
                       (params message) in
            sendMessage process
              {| id := Some i; method := None; params := VUndefined;
                 result := r; error := None |} c
          else c
      | None =>
          (* Notifications. *)
          if negb (truthyString (method message)) then c
          else if String.eqb (default "" (method message))
                    "textDocument/publishDiagnostics" then
            match getField "uri" (params message) with
            | Some (VString uri) =>
                if String.eqb uri "" then c
                else
                  let d := match getField "diagnostics" (params message) with
                           | Some VUndefined | Some VNull | None => VArray []
                           | Some d => d
                           end in
                  setDiagnostics process uri d c
            | _ => c
            end
          else c
      end
  end.

Inductive Event :=
| SendRequest (process : ProcessId) (method : string) (params : jsval)
    (timeoutMs : Z)
| SendNotification (process : ProcessId) (method : string) (params : jsval)
| Receive (process : ProcessId) (message : LspMessage)
| TimerFires (h : nat).

(** One event; [None] when the event cannot happen (a timer that is not
    armed does not fire). *)
Definition step (c : LspClient) (e : Event) : option LspClient :=
  match e with
  | SendRequest process method params timeoutMs =>
      Some (sendRequest process method params timeoutMs c)
  | SendNotification process method params =>
      Some (sendNotification process method params c)
  | Receive process message => Some (handleMessage process message c)
  | TimerFires h => timerFires h c
  end.

Fixpoint run (c : LspClient) (events : list Event) : option LspClient :=
  match events with
  | [] => Some c
  | e :: events' =>
      match step c e with
      | Some c' => run c' events'
      | None => None
      end
  end.

End Handlers.

(** What holds of the client after any sequence of events: the pending
    entries and the armed timers correspond one to one, both belong to calls
    that have not been settled, and no call has been settled twice. *)
Record Consistent (c : LspClient) : Prop := {
  pending_timer : forall i p,
    pendingRequests c !! i = Some p ->
    exists t, timers c !! call p = Some t /\ i = IdNumber (t_id t);
  timer_pending : forall h t,
    timers c !! h = Some t ->
    pendingRequests c !! IdNumber (t_id t) = Some {| call := h |}
    /\ t_id t < nextId c /\ (h < calls c)%nat
    /\ ~ In h (map fst (settlements c));
  settled_once : List.NoDup (map fst (settlements c));
  settled_calls : forall h, In h (map fst (settlements c)) -> (h < calls c)%nat
}.

Definition response (i : Z) (value : jsval) : LspMessage :=
  {| id := Some (IdNumber i); method := None; params := VUndefined;
     result := value; error := None |}.

End Correlation.

(** ** src/lsp/client.ts: the process supervisor ([getServerForConfig])

    Calls of [getServerForConfig] run interleaved: a call runs from one
    [await] to the next without interruption, and the event loop chooses
    which call, or which event of a process, comes next. *)

Module Supervisor.
Import Types.

(** The state of the promise returned by a call of [startServer]. *)
Inductive StartStatus := Starting | Started | Failed.

(** Where a call of [getServerForConfig] stands; a start is named by its
    number, the position of its entry in [starts]. *)
Inductive Phase :=
| ResolvingRoot                 (* [await this.getWorkspaceRootForFile(...)] *)
| AwaitingOwnStart (start : nat)   (* [await startPromise], in the [try] *)
| AwaitingOtherStart (start : nat) (* [return starting] *)
| Returned (state : nat)        (* the [ServerState] made by that start *)
| Thrown.

Record Task := {
  filePath : string;
  serverConfig : EnriLspServerConfig;
  phase : Phase
}.

Record Registry := {
  servers : gmap Dispatcher.ServerKey nat;
  serversStarting : gmap Dispatcher.ServerKey nat;
  (** one entry for each call of [startServer]: its key and its promise *)
  starts : list (Dispatcher.ServerKey * StartStatus);
  (** the keys of the processes spawned, oldest first *)
  spawned : list Dispatcher.ServerKey;
  (** the keys of the [initialize] requests written, oldest first *)
  handshakes : list Dispatcher.ServerKey;
  (** the starts whose process has exited *)
  exited : gset nat;
  tasks : list Task
}.

Definition newRegistry : Registry :=
  {| servers := ∅; serversStarting := ∅; starts := []; spawned := [];
     handshakes := []; exited := ∅; tasks := [] |}.

(** [startServer] rejects, before it spawns, a config without a command. *)
Definition validCommand (command : list string) : bool :=
  negb (Dispatcher.isFalsyString (head command)).

Inductive Event :=
| Acquire (filePath : string) (serverConfig : EnriLspServerConfig)
| Resume (task : nat)
| HandshakeDone (start : nat)
| HandshakeFails (start : nat)
| ProcessExits (start : nat).

(** A schedule in which no handshake fails and no process exits. *)
Definition calm (e : Event) : bool :=
  match e with
  | HandshakeFails _ | ProcessExits _ => false
  | _ => true
  end.

(** How many processes, and how many handshakes, there have been for a key. *)
Definition count (key : Dispatcher.ServerKey) (l : list Dispatcher.ServerKey)
    : nat :=
  length (filter (fun k => k = key) l).

Definition validKey (k : Dispatcher.ServerKey) : bool := validCommand k.1.1.

Definition registered (r : Registry) (k : Dispatcher.ServerKey) : bool :=
  bool_decide (is_Some (servers r !! k))
  || bool_decide (is_Some (serversStarting r !! k)).

Section Steps.
Variable normalize : string -> string.
Variable getWorkspaceRootForFile : string -> EnriLspServerConfig -> string.

Definition keyOf (filePath : string) (serverConfig : EnriLspServerConfig)
    : Dispatcher.ServerKey :=
  Dispatcher.makeServerKey normalize serverConfig
    (getWorkspaceRootForFile filePath serverConfig).

Definition setPhase (i : nat) (t : Task) (p : Phase) (r : Registry)
    : list Task :=
  <[i := {| filePath := filePath t; serverConfig := serverConfig t;
            phase := p |}]> (tasks r).

(** From the end of the first [await] to the next one: the lookups, and, when
    both fail, [startServer] up to its first [await] (spawn, then the
    [initialize] request) and [serversStarting.set]. *)
Definition lookupOrStart (i : nat) (t : Task) (r : Registry) : Registry :=
  let key := keyOf (filePath t) (serverConfig t) in
  match servers r !! key with
  | Some existing =>
      {| servers := servers r; serversStarting := serversStarting r;
         starts := starts r; spawned := spawned r; handshakes := handshakes r;
         exited := exited r; tasks := setPhase i t (Returned existing) r |}
  | None =>
      match serversStarting r !! key with
      | Some starting =>
          {| servers := servers r; serversStarting := serversStarting r;
             starts := starts r; spawned := spawned r;
             handshakes := handshakes r; exited := exited r;
             tasks := setPhase i t (AwaitingOtherStart starting) r |}
      | None =>
          let start := length (starts r) in
          let valid := validCommand (command (serverConfig t)) in
          {| servers := servers r;
             serversStarting := <[key := start]> (serversStarting r);
             starts := starts r ++ [(key, if valid then Starting else Failed)];
             spawned := if valid then spawned r ++ [key] else spawned r;
             handshakes := if valid then handshakes r ++ [key] else handshakes r;
             exited := exited r;
             tasks := setPhase i t (AwaitingOwnStart start) r |}
      end
  end.

(** After [await startPromise]: the [try] block goes on, or the [catch]
    block runs. *)
Definition afterOwnStart (i : nat) (t : Task) (start : nat)
    (status : StartStatus) (r : Registry) : option Registry :=
  let key := keyOf (filePath t) (serverConfig t) in
  match status with
  | Starting => None
  | Started =>
      Some {| servers := <[key := start]> (servers r);
              serversStarting := delete key (serversStarting r);
              starts := starts r; spawned := spawned r;
              handshakes := handshakes r; exited := exited r;
              tasks := setPhase i t (Returned start) r |}
  | Failed =>
      Some {| servers := servers r;
              serversStarting := delete key (serversStarting r);
              starts := starts r; spawned := spawned r;
              handshakes := handshakes r; exited := exited r;
              tasks := setPhase i t Thrown r |}
  end.

Definition afterOtherStart (i : nat) (t : Task) (start : nat)
    (status : StartStatus) (r : Registry) : option Registry :=
  match status with
  | Starting => None
  | Started =>
      Some {| servers := servers r; serversStarting := serversStarting r;
              starts := starts r; spawned := spawned r;
              handshakes := handshakes r; exited := exited r;
              tasks := setPhase i t (Returned start) r |}
  | Failed =>
      Some {| servers := servers r; serversStarting := serversStarting r;
              starts := starts r; spawned := spawned r;
              handshakes := handshakes r; exited := exited r;
              tasks := setPhase i t Thrown r |}
  end.

Definition resume (i : nat) (r : Registry) : option Registry :=
  match tasks r !! i with
  | None => None
  | Some t =>
      match phase t with
      | ResolvingRoot => Some (lookupOrStart i t r)
      | AwaitingOwnStart start =>
          match starts r !! start with
          | Some (_, status) => afterOwnStart i t start status r
          | None => None
          end
      | AwaitingOtherStart start =>
          match starts r !! start with
          | Some (_, status) => afterOtherStart i t start status r
          | None => None
          end
      | Returned _ | Thrown => None
      end
  end.

(** A start promise is settled once, while it is pending. *)
Definition settleStart (start : nat) (status : StartStatus) (r : Registry)
    : option Registry :=
  match starts r !! start with
  | Some (key, Starting) =>
      Some {| servers := servers r; serversStarting := serversStarting r;
              starts := <[start := (key, status)]> (starts r);
              spawned := spawned r; handshakes := handshakes r;
              exited := exited r; tasks := tasks r |}
  | _ => None
  end.

(** The [exit] handler of a spawned process:
    [this.servers.delete(key); this.serversStarting.delete(key)]. *)
Definition processExits (start : nat) (r : Registry) : option Registry :=
  match starts r !! start with
  | Some (key, _) =>
      if validCommand key.1.1 && negb (bool_decide (start ∈ exited r)) then
        Some {| servers := delete key (servers r);
                serversStarting := delete key (serversStarting r);
                starts := starts r; spawned := spawned r;
                handshakes := handshakes r;
                exited := {[start]} ∪ exited r; tasks := tasks r |}
      else None
  | None => None
  end.

Definition step (r : Registry) (e : Event) : option Registry :=
  match e with
  | Acquire file cfg =>
      Some {| servers := servers r; serversStarting := serversStarting r;
              starts := starts r; spawned := spawned r;
              handshakes := handshakes r; exited := exited r;
              tasks := tasks r ++ [{| filePath := file; serverConfig := cfg;
                                      phase := ResolvingRoot |}] |}
  | Resume i => resume i r
  | HandshakeDone start => settleStart start Started r
  | HandshakeFails start => settleStart start Failed r
  | ProcessExits start => processExits start r
  end.

Fixpoint run (r : Registry) (events : list Event) : option Registry :=
  match events with
  | [] => Some r
  | e :: events' =>
      match step r e with
      | Some r' => run r' events'
      | None => None
      end
  end.

Definition taskKey (t : Task) : Dispatcher.ServerKey :=
  keyOf (filePath t) (serverConfig t).

(** What holds of the registry after a calm schedule. *)
Record Deduplicated (r : Registry) : Prop := {
  marker_start : forall k p,
    serversStarting r !! k = Some p ->
    exists st, starts r !! p = Some (k, st) /\ (validKey k = true -> st <> Failed);
  owner_marker : forall i t p,
    tasks r !! i = Some t -> phase t = AwaitingOwnStart p ->
    serversStarting r !! taskKey t = Some p;
  owner_unique : forall i j t t' p,
    tasks r !! i = Some t -> tasks r !! j = Some t' ->
    phase t = AwaitingOwnStart p -> phase t' = AwaitingOwnStart p -> i = j;
  spawn_count : forall k,
    count k (spawned r) = if validKey k && registered r k then 1%nat else 0%nat;
  handshake_spawn : handshakes r = spawned r;
  left_root : forall i t,
    tasks r !! i = Some t -> phase t <> ResolvingRoot ->
    validKey (taskKey t) = true -> count (taskKey t) (spawned r) = 1%nat
}.

End Steps.

End Supervisor.

(** ** Scenarios: one TypeScript backend and what it answers *)

Module Scenario.
Import Types Dispatcher.

Definition tsserver : EnriLspServerConfig :=
  {| name := Some "typescript"; extensions := ["ts"];
     command := ["typescript-language-server"; "--stdio"];
     rootDir := None; initializationOptions := None; warmupMs := None |}.

Definition at_ (l c : Z) : LspPosition := {| line := l; character := c |}.

(** A file that declares a class [Foo] and a function [Foo]. *)
Definition twoFoo : list SymbolEntry :=
  [Hierarchical (mkDocumentSymbol "Foo" 5 (at_ 0 6) []);
   Flat "Foo" 12 (at_ 3 9)].

(** The backend answers the handshake with an empty capability set, the
    symbol query with [twoFoo], and everything else with [null]. *)
Definition answers (log : list Wire) : Reply :=
  match last log with
  | Some (Request _ "initialize" _) =>
      Result (Value (VObject [("capabilities", VObject [])]))
  | Some (Request _ "textDocument/documentSymbol" _) => Result (Symbols twoFoo)
  | _ => Result (Value VNull)
  end%string.

(** A backend whose capability set names the definition provider only. *)
Definition answersDefinitionOnly (log : list Wire) : Reply :=
  match last log with
  | Some (Request _ "initialize" _) =>
      Result (Value (VObject
        [("capabilities", VObject [("definitionProvider", VBool true)])]))
  | _ => Result (Value VNull)
  end%string.

Definition newClient : Client := {| servers := ∅; wire := [] |}.

Definition samePath (p : string) : string := p.
Definition workspace (_ : string) (_ : EnriLspServerConfig) : string := "/w".
Definition emptyFile (_ : string) : option jsstring := Some [].

(** Three calls for files of one workspace, the second one getting past its
    lookup first. *)
Definition threeCalls : list Supervisor.Event :=
  [Supervisor.Acquire "/w/a.ts" tsserver; Supervisor.Acquire "/w/b.ts" tsserver;
   Supervisor.Acquire "/w/c.ts" tsserver;
   Supervisor.Resume 1; Supervisor.Resume 0; Supervisor.HandshakeDone 0;
   Supervisor.Resume 2; Supervisor.Resume 1; Supervisor.Resume 0].

(** A call whose handshake fails, and a later call for the same key. *)
Definition failThenRetry : list Supervisor.Event :=
  [Supervisor.Acquire "/w/a.ts" tsserver; Supervisor.Resume 0;
   Supervisor.HandshakeFails 0; Supervisor.Resume 0;
   Supervisor.Acquire "/w/b.ts" tsserver; Supervisor.Resume 1].

Definition renameFoo : RenameSymbolArgs :=
  {| file_path := "/w/a.ts"; symbol_name := "Foo"; symbol_kind := None;
     new_name := "Bar"; dry_run := false |}.

End Scenario.

(** ** src/file-edits.ts: what an application of edits amounts to, and
    [applyWorkspaceEditToDisk] *)

Module EditSemantics.
Import Types FileEdits.

(** The text in which the range of every edit is replaced by its new text,
    all ranges being read in the original [content]; the edits come by
    ascending offset, and [pos] is the offset up to which the content has been
    dealt with. *)
Fixpoint rebuild (pos : Z) (ascending : list Normalized) (content : jsstring)
    : jsstring :=
  match ascending with
  | [] => slice_from content pos
  | e :: rest =>
      slice content pos (n_start e) ++ n_newText e
      ++ rebuild (n_end e) rest content
  end.

(** The ranges lie one after the other between [pos] and [len]. *)
Fixpoint disjointFrom (pos : Z) (ascending : list Normalized) (len : Z) : Prop :=
  match ascending with
  | [] => pos <= len
  | e :: rest =>
      pos <= n_start e /\ n_start e <= n_end e
      /\ disjointFrom (n_end e) rest len
  end.

(** A position that lies on a line of the text, not after its end:
    [lineOffsets] is the table of line starts and [len] the length of the
    text. *)
Definition onLine (lineOffsets : list Z) (len : Z) (p : LspPosition) : Prop :=
  0 <= line p < jslength lineOffsets
  /\ 0 <= character p
  /\ nth (Z.to_nat (line p)) lineOffsets 0 + character p
     < nth (Z.to_nat (line p) + 1) lineOffsets (len + 1).

(** [end_] is not before [start]. *)
Definition notBefore (start end_ : LspPosition) : Prop :=
  line start < line end_
  \/ (line start = line end_ /\ character start <= character end_).

End EditSemantics.

(** Directories are not part of the model: [mkdir(dir, { recursive: true })]
    for the directory of a file leaves the regular files as they are. *)
Module Disk.
Import Types FileEdits.

(** [ApplyWorkspaceEditResult]. *)
Record ApplyWorkspaceEditResult := {
  success : bool;
  filesModified : list string;
  backupFiles : list string;
  error : option string
}.

(** The regular files of the disk, by path, with their text. *)
Abbreviation files := (gmap string jsstring).

(** What is thrown inside the [try]: the two errors the code raises itself. *)
Inductive Thrown :=
| FileDoesNotExist (filePath : string)
| InvalidEdit (e : EditError).

(** [String(error)] *)
Definition errorText (t : Thrown) : string :=
  match t with
  | FileDoesNotExist filePath =>
      ("Error: File does not exist: " ++ filePath)%string
  | InvalidEdit (FileEdits.InvalidEdit s e) =>
      ("Error: Invalid edit: start(" ++ pretty s ++ ") > end(" ++ pretty e
       ++ ")")%string
  end.

Section WithRuntime.
(** [uriConverter.uriToPath] followed by [resolve], and the name of the
    temporary file, which holds the process id and the time of the [n]-th
    round of the loop. *)
Variable pathOf : string -> string.
Variable tmpPathOf : nat -> string -> string.
Variable createBackups : bool.
Variable backupSuffix : string.

(** One round of [for (const [uri, edits] of Object.entries(edit.changes))]. *)
Definition applyEntry (n : nat) (uri : string) (edits : list LspTextEdit)
    (disk : files) (filesModified backupFiles : list string)
    : Thrown * files * list string * list string
      + files * list string * list string :=
  let filePath := pathOf uri in
  match disk !! filePath with
  | None => inl (FileDoesNotExist filePath, disk, filesModified, backupFiles)
  | Some current =>
      (* [copyFileSync(filePath, backupPath)] *)
      let backupPath := (filePath ++ backupSuffix)%string in
      let disk1 := if createBackups then <[backupPath := current]> disk else disk in
      let backupFiles1 :=
        if createBackups then backupFiles ++ [backupPath] else backupFiles in
      (* [readFile(filePath, "utf8")] *)
      let original := default [] (disk1 !! filePath) in
      match applyTextEditsToContent original edits with
      | inl e => inl (InvalidEdit e, disk1, filesModified, backupFiles1)
      | inr updated =>
          let tmpPath := tmpPathOf n filePath in
          (* [writeFile(tmpPath, updated)], then [rename(tmpPath, filePath)] *)
          let disk2 := <[tmpPath := updated]> disk1 in
          let disk3 := <[filePath := updated]> (delete tmpPath disk2) in
          inr (disk3, filesModified ++ [filePath], backupFiles1)
      end
  end.

Fixpoint applyEntries (n : nat) (entries : list (string * list LspTextEdit))
    (disk : files) (filesModified backupFiles : list string)
    : ApplyWorkspaceEditResult * files :=
  match entries with
  | [] =>
      ({| success := true; filesModified := filesModified;
          backupFiles := backupFiles; error := None |}, disk)
  | (uri, edits) :: rest =>
      match applyEntry n uri edits disk filesModified backupFiles with
      | inl (t, disk', modified, backups) =>
          ({| success := false; filesModified := modified;
              backupFiles := backups; error := Some (errorText t) |}, disk')
      | inr (disk', modified, backups) =>
          applyEntries (S n) rest disk' modified backups
      end
  end.

(** [applyWorkspaceEditToDisk]; [changes] is [Object.entries(edit.changes)],
    or [None] when the edit has no [changes]. *)
Definition applyWorkspaceEditToDisk
    (changes : option (list (string * list LspTextEdit))) (disk : files)
    : ApplyWorkspaceEditResult * files :=
  match changes with
  | None | Some [] =>
      ({| success := true; filesModified := []; backupFiles := [];
          error := None |}, disk)
  | Some entries => applyEntries 0 entries disk [] []
  end.

(** The paths that the rounds of the loop may write: the file of an entry,
    its backup, and the temporary file of its round ([n] is the number of the
    first round). *)
Definition writes (n : nat) (entries : list (string * list LspTextEdit))
    (p : string) : Prop :=
  exists j uri edits,
    entries !! j = Some (uri, edits)
    /\ (p = pathOf uri
        \/ (createBackups = true /\ p = (pathOf uri ++ backupSuffix)%string)
        \/ p = tmpPathOf (n + j) (pathOf uri)).

(** The names of the rounds do not meet: two entries have different files,
    and no backup or temporary file of a round is the file or the backup of
    an entry. *)
Definition separate (entries : list (string * list LspTextEdit)) : Prop :=
  forall i j ui ei uj ej,
    entries !! i = Some (ui, ei) ->
    entries !! j = Some (uj, ej) ->
    (i <> j -> pathOf ui <> pathOf uj)
    /\ (pathOf ui ++ backupSuffix)%string <> pathOf uj
    /\ tmpPathOf i (pathOf ui) <> pathOf uj
    /\ tmpPathOf i (pathOf ui) <> (pathOf uj ++ backupSuffix)%string.

End WithRuntime.

End Disk.

(** A workspace of three files and a rename that touches two of them. *)
Module DiskScenario.
Import Types FileEdits Disk.

Definition tmpPathOf (n : nat) (filePath : string) : string :=
  (filePath ++ ".tmp-4711-" ++ pretty n)%string.

Definition entries : list (string * list LspTextEdit) :=
  [("/w/a.ts", [mkEdit 0 0 0 3 "Bar"]);
   ("/w/b.ts", [mkEdit 0 4 0 7 "Bar"])]%string.

Definition before : files :=
  {[ "/w/a.ts" := lit "Foo()"; "/w/b.ts" := lit "new Foo";
     "/w/c.ts" := lit "Foo" ]}%string.

End DiskScenario.

(** ** src/lsp/client.ts: the calls of [sendRequest] and their ids *)

Module Ledger.
Import Types Correlation.

(** The calls of [sendRequest] are numbered from 0 and the ids from 1: call
    [h] takes the id [h + 1], and every call made so far has its timer armed
    or has been settled. *)
Record Accounted (c : LspClient) : Prop := {
  next_id : nextId c = Z.of_nat (calls c) + 1;
  timer_id : forall h t, timers c !! h = Some t -> t_id t = Z.of_nat h + 1;
  accounted : forall h,
    (h < calls c)%nat ->
    is_Some (timers c !! h) \/ In h (map fst (settlements c))
}.

End Ledger.

(** ** src/lsp/client.ts: the symbols that [findSymbolsByName] looks at *)

Module SymbolSearch.
Import Types Dispatcher.

(** A symbol followed by its children and their children, as a reader of the
    document meets them. *)
Fixpoint preorder (sym : DocumentSymbol) : list SymbolMatch :=
  match sym with
  | mkDocumentSymbol name kind selectionStart children =>
      {| sm_name := name; sm_kind := kind; sm_position := selectionStart |}
      :: concat (map preorder children)
  end.

(** What an entry of a [textDocument/documentSymbol] result declares. *)
Definition declared (entry : SymbolEntry) : list SymbolMatch :=
  match entry with
  | Hierarchical sym => preorder sym
  | Flat name kind locationStart =>
      [{| sm_name := name; sm_kind := kind; sm_position := locationStart |}]
  | Falsy => []
  end.

(** The two tests of [pushMatch]. *)
Definition selected (symbolName : string) (desiredKind : DesiredKind)
    (m : SymbolMatch) : bool :=
  String.eqb (sm_name m) symbolName
  && match desiredKind with
     | AnyKind => true
     | KindNumber k => sm_kind m =? k
     | NotAKind => false
     end.

End SymbolSearch.

(** ** src/lsp/client.ts: [applyAutoInitializationOptions] *)

Module AutoInit.
Import Types Dispatcher.

(** [s.includes(needle)] *)
Fixpoint includes (needle s : string) : bool :=
  String.prefix needle s
  || match s with
     | EmptyString => false
     | String _ s' => includes needle s'
     end.

Definition shouldConsiderTypescriptTsdk (serverConfig : EnriLspServerConfig)
    : bool :=
  let name := toLowerCase (default "" (name serverConfig)) in
  if includes "vtsls" name || includes "typescript" name
     || includes "astro" name || includes "vue" name || includes "svelte" name
  then true
  else
    let exts := map toLowerCase (extensions serverConfig) in
    let tsLike := ["ts"; "tsx"; "js"; "jsx"; "astro"; "vue"; "svelte"]%string in
    existsb (fun e => existsb (String.eqb e) tsLike) exts.

Definition isPlainObject (value : jsval) : bool :=
  match value with VObject _ => true | _ => false end.

(** [obj[k] = v] on an object given by its members in order: a member that
    exists keeps its place, a new one comes last. *)
Fixpoint setField (k : string) (v : jsval) (fields : list (string * jsval))
    : list (string * jsval) :=
  match fields with
  | [] => [(k, v)]
  | (k', v') :: rest =>
      if String.eqb k k' then (k', v) :: rest else (k', v') :: setField k v rest
  end.

(** [{ ...value }] for a plain object, [{}] otherwise. *)
Definition spreadPlain (value : jsval) : list (string * jsval) :=
  match value with VObject fields => fields | _ => [] end.

(** [applyAutoInitializationOptions]: [existing] is
    [initializeParams.initializationOptions] before the call ([VUndefined]
    when there is none), [tsdkDir] is what [resolveTypescriptTsdkDirectory]
    finds for the workspace root of the state, and the result is
    [initializeParams.initializationOptions] after the call. *)
Definition applyAutoInitializationOptions (serverConfig : EnriLspServerConfig)
    (tsdkDir : option string) (existing : jsval) : jsval :=
  if negb (shouldConsiderTypescriptTsdk serverConfig) then existing
  else if isFalsyString tsdkDir then existing
  else
    match existing with
    | VUndefined | VObject _ =>
        let initOptions := spreadPlain existing in
        let existingTypescript :=
          default VUndefined (assoc String.eqb "typescript" initOptions) in
        let typescriptOptions := spreadPlain existingTypescript in
        let currentTsdk :=
          default VUndefined (assoc String.eqb "tsdk" typescriptOptions) in
        let blank :=
          match currentTsdk with
          | VString s => String.eqb (trim s) ""
          | _ => true
          end in
        let typescriptOptions' :=
          if blank
          then setField "tsdk" (VString (default "" tsdkDir)) typescriptOptions
          else typescriptOptions in
        VObject (setField "typescript" (VObject typescriptOptions') initOptions)
    | _ => existing
    end.

(** The member [k] of a plain object, [undefined] when there is none. *)
Definition member (k : string) (value : jsval) : jsval :=
  default VUndefined (assoc String.eqb k (spreadPlain value)).

End AutoInit.

(** ** src/lsp/client.ts: [detectWorkspaceRootFromDir] *)

Module WorkspaceRoot.
Import Types Dispatcher.

(** [s.endsWith(suffix)] *)
Definition endsWith (s suffix : string) : bool :=
  String.prefix (String.rev suffix) (String.rev s).

(** [names.includes(fileName.toLowerCase())] *)
Definition has (names : list string) (fileName : string) : bool :=
  existsb (String.eqb (toLowerCase fileName)) names.

(** [names.some((n) => n.toLowerCase().endsWith(suffix.toLowerCase()))] *)
Definition hasAnySuffix (names : list string) (suffix : string) : bool :=
  existsb (fun n => endsWith (toLowerCase n) (toLowerCase suffix)) names.

(** The tests made on the names of a directory, in their order: the markers
    of the language, then the generic marker. *)
Definition isMarked (languageId : string) (names : list string) : bool :=
  let lang := toLowerCase languageId in
  let langIs := String.eqb lang in
  if langIs "csharp"
     && (hasAnySuffix names ".sln" || hasAnySuffix names ".csproj"
         || hasAnySuffix names ".fsproj") then true
  else if (langIs "typescript" || langIs "typescriptreact" || langIs "javascript"
           || langIs "javascriptreact" || langIs "html" || langIs "css" || langIs "scss"
           || langIs "less" || langIs "json" || langIs "jsonc")
          && (has names "package.json" || has names "tsconfig.json") then true
  else if langIs "python"
          && (has names "pyproject.toml" || has names "setup.py"
              || has names "requirements.txt" || has names "pipfile") then true
  else if langIs "rust" && has names "cargo.toml" then true
  else if langIs "go" && has names "go.mod" then true
  else if (langIs "java" || langIs "kotlin")
          && (has names "pom.xml" || has names "build.gradle"
              || has names "settings.gradle" || has names "gradlew") then true
  else has names ".git".

Section WithFileSystem.
(** [normalize] and [dirname] of [node:path], and [readdir], which gives the
    names of the entries of a directory or throws ([None]). *)
Variable normalize : string -> string.
Variable dirname : string -> string.
Variable readdir : string -> option (list string).

Definition workspaceRootCacheKey (languageId directory : string) : string :=
  (toLowerCase languageId ++ "|" ++ normalize directory)%string.

Definition tryReadDirNamesLowercase (dir : string) : option (list string) :=
  option_map (map toLowerCase) (readdir dir).

(** A directory that can be read and holds a marker. *)
Definition markedDir (languageId dir : string) : bool :=
  match tryReadDirNamesLowercase dir with
  | Some names => isMarked languageId names
  | None => false
  end.

(** The [while (true)] loop: the directory found, if any, and the
    directories visited.  The loop ends when [dirname] no longer changes the
    directory; [fuel] bounds the number of rounds. *)
Fixpoint climb (fuel : nat) (languageId current : string) (visited : list string)
    : option (option string * list string) :=
  match fuel with
  | O => None
  | S fuel' =>
      let visited := visited ++ [current] in
      if markedDir languageId current then Some (Some current, visited)
      else
        let parent := dirname current in
        if String.eqb parent current then Some (None, visited)
        else climb fuel' languageId parent visited
  end.

(** [for (const d of visited) this.workspaceRootCache.set(key(d), root)] *)
Definition remember (languageId : string) (visited : list string)
    (root : string) (cache : gmap string string) : gmap string string :=
  fold_left
    (fun cache d => <[workspaceRootCacheKey languageId d := root]> cache)
    visited cache.

Definition detectWorkspaceRootFromDir (fuel : nat) (startDir languageId : string)
    (cache : gmap string string) : option (string * gmap string string) :=
  let start := normalize startDir in
  let cacheKey := workspaceRootCacheKey languageId start in
  let cached := default "" (cache !! cacheKey) in
  if negb (String.eqb cached "") then Some (cached, cache)
  else
    match climb fuel languageId start [] with
    | None => None
    | Some (found, visited) =>
        (* the fall-back is the starting directory *)
        let root := default start found in
        Some (root, remember languageId visited root cache)
    end.

(** The directory [i] levels above [dir]. *)
Fixpoint ancestor (i : nat) (dir : string) : string :=
  match i with
  | O => dir
  | S i' => ancestor i' (dirname dir)
  end.

End WithFileSystem.

(** [dirname] on an absolute POSIX path without a trailing slash. *)
Fixpoint fromSlash (reversed : list ascii) : list ascii :=
  match reversed with
  | [] => []
  | c :: above => if Ascii.eqb c "/" then reversed else fromSlash above
  end.

Definition parentOf (p : string) : string :=
  match fromSlash (rev (list_ascii_of_string p)) with
  | [] => "."
  | [_] => "/"
  | _ :: above => string_of_list_ascii (rev above)
  end.

(** A project in [/w] with a source directory and no marker above it. *)
Definition listing (dir : string) : option (list string) :=
  if String.eqb dir "/w/src/lib" then Some ["index.ts"]
  else if String.eqb dir "/w/src" then Some ["lib"; "main.ts"]
  else if String.eqb dir "/w" then Some ["Package.json"; "src"]
  else if String.eqb dir "/" then Some ["w"]
  else None.

End WorkspaceRoot.

(** * Theorems *)

Section FileEditsFacts.
Import Types FileEdits.

Lemma lineOffsetsFrom_bounds i text o :
  In o (lineOffsetsFrom i text) -> i < o <= i + jslength text.
Proof.
  revert i. induction text as [|c rest IH]; intros i; simpl; [tauto|].
  unfold jslength in *. simpl length. rewrite Nat2Z.inj_succ.
  destruct (c =? 10)%N; simpl; intros H.
  - destruct H as [<-|H]; [lia|]. apply IH in H. lia.
  - apply IH in H. lia.
Qed.

Lemma computeLineOffsets_bounds text o :
  In o (computeLineOffsets text) -> 0 <= o <= jslength text.
Proof.
  unfold computeLineOffsets. simpl. intros [<-|H].
  - unfold jslength. lia.
  - apply lineOffsetsFrom_bounds in H. lia.
Qed.

Lemma offsetAt_range text position :
  0 <= offsetAt (computeLineOffsets text) position text <= jslength text.
Proof.
  unfold offsetAt.
  set (lo := computeLineOffsets text).
  destruct (Z.leb_spec (jslength lo) (Z.max 0 (line position))) as [Hge|Hlt].
  - unfold jslength. lia.
  - assert (Hin : In (nth (Z.to_nat (Z.max 0 (line position))) lo 0) lo).
    { apply nth_In. unfold jslength in Hlt. lia. }
    apply computeLineOffsets_bounds in Hin. unfold jslength in *. lia.
Qed.

(** *** Stable insertion sort: permutation and sortedness *)

Section SortBy.
Context {A : Type} (cmp : A -> A -> Z).
Hypothesis cmp_total : forall a b, 0 < cmp a b -> cmp b a <= 0.
Hypothesis cmp_trans : forall a b c, cmp a b <= 0 -> cmp b c <= 0 -> cmp a c <= 0.

Lemma insertBy_perm x l : Permutation (x :: l) (insertBy cmp x l).
Proof.
  induction l as [|y l IH]; simpl; [reflexivity|].
  destruct (cmp x y <=? 0); [reflexivity|].
  rewrite perm_swap. now constructor.
Qed.

Lemma sortBy_perm l : Permutation l (sortBy cmp l).
Proof.
  induction l as [|x l IH]; simpl; [constructor|].
  rewrite <- insertBy_perm. now constructor.
Qed.

Lemma insertBy_sorted x l :
  StronglySorted (fun a b => cmp a b <= 0) l ->
  StronglySorted (fun a b => cmp a b <= 0) (insertBy cmp x l).
Proof.
  induction 1 as [|y l Hs IH Hy]; simpl.
  - repeat constructor.
  - destruct (Z.leb_spec (cmp x y) 0) as [Hle|Hgt].
    + constructor; [now constructor|]. constructor; [exact Hle|].
      eapply List.Forall_impl; [|exact Hy]. intros z Hz. simpl in Hz. eauto.
    + constructor; [exact IH|].
      eapply Permutation_Forall; [apply insertBy_perm|].
      constructor; [now apply cmp_total | exact Hy].
Qed.

Lemma sortBy_sorted l : StronglySorted (fun a b => cmp a b <= 0) (sortBy cmp l).
Proof.
  induction l as [|x l IH]; simpl; [constructor|]. now apply insertBy_sorted.
Qed.

End SortBy.

Lemma StronglySorted_impl {A} (R S : A -> A -> Prop) l :
  (forall a b, R a b -> S a b) -> StronglySorted R l -> StronglySorted S l.
Proof.
  intros HRS. induction 1 as [|x l Hs IH Hx]; constructor; [exact IH|].
  eapply List.Forall_impl; [|exact Hx]. intros; now apply HRS.
Qed.

Lemma compareEdits_total a b : 0 < compareEdits a b -> compareEdits b a <= 0.
Proof.
  unfold compareEdits. cbv zeta.
  destruct (Z.eqb_spec (n_start b - n_start a) 0), (Z.eqb_spec (n_start a - n_start b) 0); lia.
Qed.

Lemma compareEdits_trans a b c :
  compareEdits a b <= 0 -> compareEdits b c <= 0 -> compareEdits a c <= 0.
Proof.
  unfold compareEdits. cbv zeta.
  destruct (Z.eqb_spec (n_start b - n_start a) 0), (Z.eqb_spec (n_start c - n_start b) 0),
    (Z.eqb_spec (n_start c - n_start a) 0); lia.
Qed.

Lemma compareEdits_start a b : compareEdits a b <= 0 -> n_start b <= n_start a.
Proof.
  unfold compareEdits. cbv zeta.
  destruct (Z.eqb_spec (n_start b - n_start a) 0); lia.
Qed.

Lemma normalizedEdits_perm content edits :
  Permutation (map (normalize (computeLineOffsets content) content) edits)
    (normalizedEdits content edits).
Proof. apply sortBy_perm. Qed.

Lemma normalizedEdits_descending content edits :
  StronglySorted (fun a b => n_start b <= n_start a) (normalizedEdits content edits).
Proof.
  eapply StronglySorted_impl; [apply compareEdits_start|].
  apply sortBy_sorted; [apply compareEdits_total | apply compareEdits_trans].
Qed.

Lemma applyTextEditsToContent_loop content edits :
  applyTextEditsToContent content edits
  = applyLoop content (normalizedEdits content edits).
Proof. destruct edits; reflexivity. Qed.

Lemma lineOffsetsFrom_spec i text o :
  In o (lineOffsetsFrom i text) <->
  exists k : nat, o = i + Z.of_nat k + 1 /\ nth_error text k = Some 10%N.
Proof.
  revert i. induction text as [|c rest IH]; intros i; simpl.
  - split; [tauto|]. intros [[|k] [_ H]]; discriminate.
  - destruct (N.eqb_spec c 10) as [->|Hc]; simpl; rewrite IH; split.
    + intros [<-|[k [-> Hk]]]; [exists 0%nat; split; [lia|reflexivity]|].
      exists (S k). split; [lia|exact Hk].
    + intros [[|k] [-> Hk]]; [left; lia|]. right. exists k. split; [lia|exact Hk].
    + intros [k [-> Hk]]. exists (S k). split; [lia|exact Hk].
    + intros [[|k] [-> Hk]]; [simpl in Hk; congruence|].
      exists k. split; [lia|exact Hk].
Qed.

(** C7: the edit applier turns every edit into a pair of offsets through the
    table of line starts (offset 0 and the offset after every newline), orders
    the edits by descending start offset, and splices them in that order; on
    the content "World\nfoo\n" the edits 0:0-0:5 -> "Hello" and
    1:0-1:3 -> "X" give "Hello\nX\n". *)
Theorem applyTextEditsToContent_descending_splices :
  (forall content edits,
      (forall o, In o (computeLineOffsets content) <->
                 o = 0 \/ exists k : nat, o = Z.of_nat k + 1 /\ nth_error content k = Some 10%N)
      /\ Permutation (map (normalize (computeLineOffsets content) content) edits)
           (normalizedEdits content edits)
      /\ StronglySorted (fun a b => n_start b <= n_start a) (normalizedEdits content edits)
      /\ applyTextEditsToContent content edits
         = applyLoop content (normalizedEdits content edits))
  /\ applyTextEditsToContent (lit "World" ++ [10%N] ++ lit "foo" ++ [10%N])
       [mkEdit 0 0 0 5 "Hello"; mkEdit 1 0 1 3 "X"]
     = inr (lit "Hello" ++ [10%N] ++ lit "X" ++ [10%N]).
Proof.
  split; [|vm_compute; reflexivity].
  intros content edits. repeat split.
  - unfold computeLineOffsets. simpl. rewrite lineOffsetsFrom_spec.
    intros [H|[k [-> Hk]]]; [left; lia|]. right. exists k. split; [lia|exact Hk].
  - unfold computeLineOffsets. simpl. rewrite lineOffsetsFrom_spec.
    intros [->|[k [-> Hk]]]; [now left|]. right. exists k. split; [lia|exact Hk].
  - apply normalizedEdits_perm.
  - apply normalizedEdits_descending.
  - apply applyTextEditsToContent_loop.
Qed.

Lemma applyLoop_outcome out l :
  match applyLoop out l with
  | inl (InvalidEdit s e) => e < s /\ Exists (fun ed => n_end ed < n_start ed) l
  | inr _ => Forall (fun ed => n_start ed <= n_end ed) l
  end.
Proof.
  revert out. induction l as [|ed l IH]; intros out; simpl; [constructor|].
  destruct (Z.ltb_spec (n_end ed) (n_start ed)) as [Hlt|Hge].
  - split; [exact Hlt|]. now constructor.
  - specialize (IH (splice out ed)).
    destruct (applyLoop (splice out ed) l) as [[s e]|res].
    + destruct IH as [Hse Hex]. split; [exact Hse|]. now apply Exists_cons_tl.
    + now constructor.
Qed.

(** C10: whatever the position (negative components, a character past the end
    of its line, a line past the end of the text), [offsetAt] over the table of
    line starts of a text returns an offset between 0 and the length of the
    text; so every offset handed to a splice lies in that range, and
    [applyTextEditsToContent] fails only through its explicit check, exactly
    when some edit's start offset exceeds its end offset. *)
Theorem offsetAt_clamped_only_error_is_start_after_end :
  forall content edits,
    let lo := computeLineOffsets content in
    (forall position, 0 <= offsetAt lo position content <= jslength content)
    /\ Forall (fun ed => 0 <= n_start ed <= jslength content
                       /\ 0 <= n_end ed <= jslength content)
         (normalizedEdits content edits)
    /\ match applyTextEditsToContent content edits with
       | inl (InvalidEdit s e) =>
           e < s /\
           Exists (fun edit => offsetAt lo (end_ (range edit)) content
                              < offsetAt lo (start (range edit)) content) edits
       | inr _ =>
           Forall (fun edit => offsetAt lo (start (range edit)) content
                              <= offsetAt lo (end_ (range edit)) content) edits
       end.
Proof.
  intros content edits lo. split; [|split].
  - intros position. apply offsetAt_range.
  - eapply Permutation_Forall; [apply normalizedEdits_perm|].
    apply List.Forall_map. apply List.Forall_forall. intros ed _. simpl.
    split; apply offsetAt_range.
  - rewrite applyTextEditsToContent_loop.
    pose proof (applyLoop_outcome content (normalizedEdits content edits)) as H.
    destruct (applyLoop content (normalizedEdits content edits)) as [[s e]|res].
    + destruct H as [Hse Hex]. split; [exact Hse|].
      eapply Permutation_Exists in Hex;
        [|apply Permutation_sym, normalizedEdits_perm].
      apply List.Exists_map in Hex. exact Hex.
    + eapply Permutation_Forall in H;
        [|apply Permutation_sym, normalizedEdits_perm].
      rewrite List.Forall_forall in H. apply List.Forall_forall.
      intros edit Hin. apply (H (normalize lo content edit)).
      apply in_map. exact Hin.
Qed.

End FileEditsFacts.

(** ** The frame codec *)

Section CodecFacts.
Import Codec.

Lemma startsWith_app p l c : startsWith p l = true -> startsWith p (l ++ c) = true.
Proof.
  revert l. induction p as [|a p IH]; intros [|b l]; simpl; try congruence.
  intros H. apply andb_true_iff in H as [Hab Hp].
  rewrite Hab. simpl. now apply IH.
Qed.

Lemma startsWith_length p l : startsWith p l = true -> (length p <= length l)%nat.
Proof.
  revert l. induction p as [|a p IH]; intros [|b l]; simpl; try congruence; try lia.
  intros H. apply andb_true_iff in H as [_ Hp]. apply IH in Hp. lia.
Qed.

Lemma startsWith_self p r : startsWith p (p ++ r) = true.
Proof.
  induction p as [|a p IH]; simpl; [reflexivity|].
  rewrite IH, andb_true_r. now apply Byte.byte_dec_lb.
Qed.

Lemma indexOf_eq p l :
  indexOf p l =
  if startsWith p l then Some 0%nat
  else match l with [] => None | _ :: l' => option_map S (indexOf p l') end.
Proof. destruct l; reflexivity. Qed.

Lemma indexOf_bound p l i : indexOf p l = Some i -> (i + length p <= length l)%nat.
Proof.
  revert i. induction l as [|x l IH]; intros i; rewrite indexOf_eq.
  - destruct (startsWith p []) eqn:E; [|discriminate].
    intros [= <-]. apply startsWith_length in E. simpl in *. lia.
  - destruct (startsWith p (x :: l)) eqn:E.
    + intros [= <-]. apply startsWith_length in E. simpl in *. lia.
    + destruct (indexOf p l) as [k|] eqn:Hk; [|discriminate].
      simpl. intros [= <-]. specialize (IH k eq_refl). simpl. lia.
Qed.

Lemma startsWith_within p (l c : buffer) :
  (length p <= length l)%nat -> startsWith p (l ++ c) = startsWith p l.
Proof.
  revert l. induction p as [|a p IH]; intros [|y l]; simpl; try reflexivity; try lia.
  intros Hl. rewrite IH by lia. reflexivity.
Qed.

Lemma indexOf_app p l c i : indexOf p l = Some i -> indexOf p (l ++ c) = Some i.
Proof.
  revert i. induction l as [|b l IH]; intros i Hi.
  - pose proof (indexOf_bound _ _ _ Hi) as Hb.
    rewrite indexOf_eq in Hi. rewrite indexOf_eq.
    destruct (startsWith p []) eqn:Hs; [|discriminate].
    now rewrite (startsWith_app _ _ c Hs).
  - pose proof (indexOf_bound _ _ _ Hi) as Hb.
    rewrite indexOf_eq in Hi. rewrite indexOf_eq.
    rewrite startsWith_within by lia.
    destruct (startsWith p (b :: l)); [exact Hi|].
    simpl. destruct (indexOf p l) as [j|]; [|discriminate].
    now rewrite (IH j eq_refl).
Qed.

Lemma indexOf_separator_after (h r : buffer) :
  Forall (fun b => b <> CR) h ->
  indexOf separator (h ++ separator ++ r) = Some (length h).
Proof.
  induction 1 as [|b h Hb Hh IH].
  - rewrite indexOf_eq, app_nil_l. now rewrite (startsWith_self separator r).
  - rewrite indexOf_eq, <- app_comm_cons.
    assert (Hs : startsWith separator (b :: (h ++ separator ++ r)) = false).
    { unfold separator at 1. cbn [startsWith].
      destruct (Byte.eqb CR b) eqn:E; [|reflexivity].
      apply Byte.byte_dec_bl in E. congruence. }
    rewrite Hs, IH. reflexivity.
Qed.

Lemma drainLoop_fuel f1 :
  forall f2 buf, (length buf < f1)%nat -> (length buf < f2)%nat ->
    drainLoop f1 buf = drainLoop f2 buf.
Proof.
  induction f1 as [|f1 IH]; intros [|f2] buf H1 H2; try lia.
  cbn [drainLoop].
  destruct (indexOf separator buf) as [i|] eqn:Hi; [|reflexivity].
  apply indexOf_bound in Hi. cbn [length separator] in *.
  destruct (execContentLength _) as [digits|].
  - destruct (_ <? _)%nat; [reflexivity|].
    rewrite (IH f2); [reflexivity | rewrite length_drop; lia ..].
  - apply IH; rewrite length_drop; lia.
Qed.

(** One round of the loop, as an equation on [drainServerBuffer]. *)
Lemma drainServerBuffer_eq buf :
  drainServerBuffer buf =
  match indexOf separator buf with
  | None => ([], buf)
  | Some headerEnd =>
      match execContentLength (toStringAscii (take headerEnd buf)) with
      | None => drainServerBuffer (drop (headerEnd + 4) buf)
      | Some digits =>
          let len := N.to_nat (parseInt digits) in
          if (length buf <? headerEnd + 4 + len)%nat then ([], buf)
          else
            let '(bodies, rest) :=
              drainServerBuffer (drop (headerEnd + 4 + len) buf) in
            (take len (drop (headerEnd + 4) buf) :: bodies, rest)
      end
  end.
Proof.
  unfold drainServerBuffer at 1. cbn [drainLoop].
  destruct (indexOf separator buf) as [i|] eqn:Hi; [|reflexivity].
  apply indexOf_bound in Hi. cbn [length separator] in *.
  destruct (execContentLength _) as [digits|].
  - cbv zeta. destruct (_ <? _)%nat; [reflexivity|].
    unfold drainServerBuffer.
    rewrite (drainLoop_fuel (length buf) (S (length (drop (i + 4 + N.to_nat (parseInt digits)) buf))));
      [reflexivity | rewrite length_drop; lia | lia].
  - unfold drainServerBuffer.
    apply drainLoop_fuel; [rewrite length_drop; lia | lia].
Qed.

(** Draining commutes with the arrival of more bytes: what one call cuts out
    of [buf ++ chunk] is what a call on [buf] cuts out, followed by what a
    call on the left-over buffer extended by [chunk] cuts out. *)
Lemma drainServerBuffer_app chunk :
  forall n buf, (length buf < n)%nat ->
    drainServerBuffer (buf ++ chunk) =
    let '(bodies, rest) := drainServerBuffer buf in
    let '(bodies', rest') := drainServerBuffer (rest ++ chunk) in
    (bodies ++ bodies', rest').
Proof.
  induction n as [|n IH]; intros buf Hn; [lia|].
  rewrite (drainServerBuffer_eq buf).
  destruct (indexOf separator buf) as [i|] eqn:Hi.
  2:{ destruct (drainServerBuffer (buf ++ chunk)); reflexivity. }
  pose proof (indexOf_bound _ _ _ Hi) as Hb. cbn [length separator] in Hb.
  destruct (execContentLength (toStringAscii (take i buf))) as [digits|] eqn:Hx.
  - cbv zeta. destruct (Nat.ltb_spec (length buf) (i + 4 + N.to_nat (parseInt digits))) as [Hshort|Hlong].
    { destruct (drainServerBuffer (buf ++ chunk)); reflexivity. }
    rewrite (drainServerBuffer_eq (buf ++ chunk)), (indexOf_app _ _ chunk _ Hi).
    rewrite take_app_le by lia. rewrite Hx. cbv zeta.
    destruct (Nat.ltb_spec (length (buf ++ chunk)) (i + 4 + N.to_nat (parseInt digits))) as [Hs|_].
    { rewrite length_app in Hs. lia. }
    rewrite !drop_app_le by lia.
    rewrite (IH (drop (i + 4 + N.to_nat (parseInt digits)) buf)) by (rewrite length_drop; lia).
    rewrite take_app_le by (rewrite length_drop; lia).
    destruct (drainServerBuffer (drop _ buf)) as [bodies rest].
    destruct (drainServerBuffer (rest ++ chunk)) as [bodies' rest'].
    reflexivity.
  - rewrite (drainServerBuffer_eq (buf ++ chunk)), (indexOf_app _ _ chunk _ Hi).
    rewrite take_app_le by lia. rewrite Hx.
    rewrite drop_app_le by lia.
    apply IH. rewrite length_drop. lia.
Qed.

(** The buffer a call leaves behind holds no complete frame. *)
Lemma drainServerBuffer_rest buf :
  drainServerBuffer (snd (drainServerBuffer buf)) = ([], snd (drainServerBuffer buf)).
Proof.
  pose proof (drainServerBuffer_app [] (S (length buf)) buf (Nat.lt_succ_diag_r _)) as H.
  rewrite !app_nil_r in H.
  destruct (drainServerBuffer buf) as [bodies rest]. simpl.
  rewrite app_nil_r in H.
  destruct (drainServerBuffer rest) as [bodies' rest'].
  injection H as Hb Hr. subst rest'. f_equal.
  rewrite <- (app_nil_r bodies) in Hb at 1. now apply app_inv_head in Hb.
Qed.

Lemma feed_concat chunks :
  forall buf, drainServerBuffer buf = ([], buf) ->
    feed buf chunks = drainServerBuffer (buf ++ concat chunks).
Proof.
  induction chunks as [|chunk chunks IH]; intros buf Hbuf; cbn [feed concat].
  - now rewrite app_nil_r, Hbuf.
  - unfold onData. rewrite app_assoc.
    rewrite (drainServerBuffer_app (concat chunks) (S (length (buf ++ chunk))))
      by apply Nat.lt_succ_diag_r.
    pose proof (drainServerBuffer_rest (buf ++ chunk)) as Hrest.
    destruct (drainServerBuffer (buf ++ chunk)) as [bodies rest]. simpl in Hrest.
    rewrite (IH rest Hrest). reflexivity.
Qed.

(** *** The header written by [sendMessage] is read back by the decoder *)

Lemma decimalLoop_acc f :
  forall n acc, decimalLoop f n acc = decimalLoop f n [] ++ acc.
Proof.
  induction f as [|f IH]; intros n acc; cbn [decimalLoop]; [reflexivity|].
  destruct (n / 10 =? 0)%N; [reflexivity|].
  rewrite (IH _ (_ :: acc)), (IH _ [_]), <- app_assoc. reflexivity.
Qed.

Lemma decimalLoop_spec f :
  forall n, (0 < n < 2 ^ N.of_nat f)%N ->
    decimalLoop f n [] <> []
    /\ Forall (fun d => (d < 10)%N) (decimalLoop f n [])
    /\ digitsValue (decimalLoop f n []) = n.
Proof.
  induction f as [|f IH]; intros n Hn.
  - simpl in Hn. lia.
  - cbn [decimalLoop].
    assert (Hmod : (n mod 10 < 10)%N) by (apply N.mod_lt; discriminate).
    assert (Hdm : n = (10 * (n / 10) + n mod 10)%N) by (apply N.div_mod; discriminate).
    rewrite Nat2N.inj_succ, N.pow_succ_r' in Hn.
    revert Hmod Hdm. generalize (n mod 10)%N as r. generalize (n / 10)%N as q.
    intros q r Hmod Hdm.
    destruct (N.eqb_spec q 0) as [Hz|Hnz].
    + split; [discriminate|]. split; [repeat constructor; exact Hmod|].
      unfold digitsValue. simpl. lia.
    + rewrite decimalLoop_acc.
      assert (Hrec : (0 < q < 2 ^ N.of_nat f)%N) by lia.
      destruct (IH _ Hrec) as (Hne & Hall & Hval).
      split; [intros H; apply app_eq_nil in H as [H _]; contradiction|].
      split; [apply Forall_app; split; [exact Hall|repeat constructor; exact Hmod]|].
      unfold digitsValue in *. rewrite fold_left_app, Hval. simpl. lia.
Qed.

Lemma decimalDigits_spec n :
  decimalDigits n <> []
  /\ Forall (fun d => (d < 10)%N) (decimalDigits n)
  /\ digitsValue (decimalDigits n) = n.
Proof.
  destruct (N.eq_dec n 0%N) as [->|Hn].
  - vm_compute. split; [discriminate|]. split; [repeat constructor|reflexivity].
  - apply decimalLoop_spec. split; [lia|].
    rewrite Nat2N.inj_succ, N2Nat.id. apply N.log2_spec. lia.
Qed.

Lemma digit_cases d : (d < 10)%N ->
  d = 0%N \/ d = 1%N \/ d = 2%N \/ d = 3%N \/ d = 4%N \/ d = 5%N \/ d = 6%N
  \/ d = 7%N \/ d = 8%N \/ d = 9%N.
Proof. lia. Qed.

Ltac by_digit H :=
  apply digit_cases in H;
  repeat (destruct H as [H|H]; [subst; vm_compute; try reflexivity; try discriminate|]);
  subst; vm_compute; try reflexivity; try discriminate.

Lemma digitByte_ascii d : (d < 10)%N -> N.land (Byte.to_N (digitByte d)) 127 = (48 + d)%N.
Proof. intros H. by_digit H. Qed.

Lemma digitByte_not_CR d : (d < 10)%N -> digitByte d <> CR.
Proof. intros H. by_digit H. Qed.

Lemma digit_char d : (d < 10)%N -> isDigit (48 + d) = true /\ isSpace (48 + d) = false.
Proof. intros H. by_digit H; split; reflexivity. Qed.

Lemma toStringAscii_digits ds :
  Forall (fun d => (d < 10)%N) ds ->
  toStringAscii (map digitByte ds) = map (fun d => (48 + d)%N) ds.
Proof.
  induction 1 as [|d ds Hd _ IH]; [reflexivity|].
  unfold toStringAscii in *. cbn [map]. rewrite IH, digitByte_ascii by exact Hd.
  reflexivity.
Qed.

Lemma takeDigits_digits ds :
  Forall (fun d => (d < 10)%N) ds ->
  takeDigits (map (fun d => (48 + d)%N) ds) = map (fun d => (48 + d)%N) ds.
Proof.
  induction 1 as [|d ds Hd _ IH]; [reflexivity|].
  cbn [map takeDigits]. destruct (digit_char d Hd) as [-> _]. now rewrite IH.
Qed.

Lemma parseInt_digits ds :
  parseInt (map (fun d => (48 + d)%N) ds) = digitsValue ds.
Proof.
  unfold parseInt, digitsValue. generalize 0%N.
  induction ds as [|d ds IH]; intros acc; [reflexivity|].
  cbn [map fold_left]. rewrite IH. f_equal. lia.
Qed.

Lemma execContentLength_eq text :
  execContentLength text =
  match matchHere text with
  | Some digits => Some digits
  | None => match text with [] => None | _ :: text' => execContentLength text' end
  end.
Proof. destruct text; reflexivity. Qed.

Lemma execContentLength_header ds :
  ds <> [] -> Forall (fun d => (d < 10)%N) ds ->
  execContentLength
    (toStringAscii (list_byte_of_string "Content-Length: " ++ map digitByte ds))
  = Some (map (fun d => (48 + d)%N) ds).
Proof.
  intros Hne Hall. rewrite execContentLength_eq.
  unfold toStringAscii. rewrite map_app. fold (toStringAscii (map digitByte ds)).
  rewrite (toStringAscii_digits _ Hall).
  assert (Hm : matchHere (map (fun x => N.land (Byte.to_N x) 127)
                 (list_byte_of_string "Content-Length: ")
               ++ map (fun d => (48 + d)%N) ds)
             = Some (map (fun d => (48 + d)%N) ds)).
  { unfold matchHere.
    change (matchLiteral _ _) with (Some (32%N :: map (fun d => (48 + d)%N) ds)).
    destruct ds as [|d ds']; [contradiction|].
    pose proof (takeDigits_digits _ Hall) as Ht.
    inversion Hall as [|? ? Hd _]; subst.
    cbn [map skipSpaces]. change (isSpace 32) with true. cbv iota.
    cbn [map skipSpaces] in *. destruct (digit_char d Hd) as [Hdig Hsp].
    rewrite Hsp. rewrite Ht. reflexivity. }
  now rewrite Hm.
Qed.

Lemma header_prefix_no_CR ds :
  Forall (fun d => (d < 10)%N) ds ->
  Forall (fun b => b <> CR) (list_byte_of_string "Content-Length: " ++ map digitByte ds).
Proof.
  intros Hall. apply Forall_app. split.
  - vm_compute. repeat constructor; discriminate.
  - apply List.Forall_map. eapply List.Forall_impl; [|exact Hall].
    intros d Hd. now apply digitByte_not_CR.
Qed.

(** A buffer that starts with a frame written by [sendMessage]. *)
Lemma drainServerBuffer_frame (content rest : buffer) :
  drainServerBuffer (header (N.of_nat (length content)) ++ content ++ rest) =
  let '(bodies, rest') := drainServerBuffer rest in (content :: bodies, rest').
Proof.
  unfold header.
  destruct (decimalDigits_spec (N.of_nat (length content))) as (Hne & Hall & Hval).
  set (ds := decimalDigits (N.of_nat (length content))) in *.
  set (h := list_byte_of_string "Content-Length: " ++ map digitByte ds).
  replace ((list_byte_of_string "Content-Length: " ++ map digitByte ds ++ separator)
           ++ content ++ rest)
    with (h ++ separator ++ (content ++ rest))
    by (unfold h; now rewrite <- !app_assoc).
  rewrite drainServerBuffer_eq.
  rewrite (indexOf_separator_after h _ (header_prefix_no_CR _ Hall)).
  rewrite take_app_length. unfold h at 1.
  rewrite (execContentLength_header _ Hne Hall), parseInt_digits, Hval, Nat2N.id.
  cbv zeta.
  destruct (Nat.ltb_spec (length (h ++ separator ++ content ++ rest))
              (length h + 4 + length content)) as [Hshort|_].
  { rewrite !length_app in Hshort. cbn [length separator] in Hshort. lia. }
  replace (drop (length h + 4 + length content) (h ++ separator ++ content ++ rest))
    with rest.
  2:{ replace (h ++ separator ++ content ++ rest)
        with ((h ++ separator ++ content) ++ rest) by (now rewrite <- !app_assoc).
      rewrite drop_app_length'; [reflexivity|].
      rewrite !length_app. cbn [length separator]. lia. }
  replace (take (length content) (drop (length h + 4) (h ++ separator ++ content ++ rest)))
    with content.
  2:{ replace (h ++ separator ++ content ++ rest)
        with ((h ++ separator) ++ content ++ rest) by (now rewrite <- !app_assoc).
      rewrite drop_app_length' by (rewrite length_app; cbn [length separator]; lia).
      now rewrite take_app_length. }
  reflexivity.
Qed.

Lemma drainServerBuffer_frames {message} (stringify : message -> buffer) ms :
  drainServerBuffer (concat (map (sendMessage stringify) ms)) = (map stringify ms, []).
Proof.
  induction ms as [|m ms IH]; [reflexivity|].
  cbn [map concat]. unfold sendMessage at 1. cbv zeta.
  rewrite <- app_assoc, drainServerBuffer_frame, IH. reflexivity.
Qed.

Lemma omap_parse_stringify {message} (stringify : message -> buffer)
    (parse : buffer -> option message) ms :
  (forall m, parse (stringify m) = Some m) ->
  omap parse (map stringify ms) = ms.
Proof.
  intros Hparse. induction ms as [|m ms IH]; [reflexivity|].
  cbn. rewrite Hparse. f_equal. exact IH.
Qed.

(** C2: the bytes written by [sendMessage] for any sequence of messages,
    delivered to the [data] handler in any split into chunks (one byte at a
    time, or all frames in a single chunk), make the decoder hand over exactly
    those messages, in order, and leave the buffer empty. *)
Theorem frame_roundtrip_any_chunking {message : Type}
    (stringify : message -> buffer) (parse : buffer -> option message)
    (ms : list message) (chunks : list buffer) :
  (forall m, parse (stringify m) = Some m) ->
  concat chunks = concat (map (sendMessage stringify) ms) ->
  received parse (feed [] chunks) = (ms, []).
Proof.
  intros Hparse Hchunks.
  rewrite feed_concat by reflexivity.
  rewrite app_nil_l, Hchunks, drainServerBuffer_frames.
  unfold received. cbn [fst snd].
  now rewrite omap_parse_stringify.
Qed.

Lemma frame_roundtrip_any_chunking_witness :
  let ms := [list_byte_of_string "{}"; list_byte_of_string "[1,2]"] in
  let stream := concat (map (sendMessage (fun body : buffer => body)) ms) in
  received Some (feed [] (map (fun b => [b]) stream)) = (ms, [])
  /\ received Some (feed [] [stream]) = (ms, []).
Proof.
  split.
  - apply (frame_roundtrip_any_chunking (fun body : buffer => body) Some);
      [reflexivity | vm_compute; reflexivity].
  - apply (frame_roundtrip_any_chunking (fun body : buffer => body) Some);
      [reflexivity | vm_compute; reflexivity].
Defined.

End CodecFacts.

(** ** The router *)

Section RouterFacts.
Import Types Router.

Lemma compareScored_total a b : 0 < compareScored a b -> compareScored b a <= 0.
Proof.
  unfold compareScored. cbv zeta.
  destruct (Z.eqb_spec (score b - score a) 0), (Z.eqb_spec (score a - score b) 0); lia.
Qed.

Lemma compareScored_trans a b c :
  compareScored a b <= 0 -> compareScored b c <= 0 -> compareScored a c <= 0.
Proof.
  unfold compareScored. cbv zeta.
  destruct (Z.eqb_spec (score b - score a) 0), (Z.eqb_spec (score c - score b) 0),
    (Z.eqb_spec (score c - score a) 0); lia.
Qed.

Lemma compareScored_order a b :
  compareScored a b <= 0 ->
  score b < score a \/ (score a = score b /\ index a <= index b).
Proof.
  unfold compareScored. cbv zeta.
  destruct (Z.eqb_spec (score b - score a) 0); lia.
Qed.

Lemma scoreServer_server path file i s : server (scoreServer path file i s) = s.
Proof.
  unfold scoreServer. destruct (rootDir s) as [dir|]; [|reflexivity].
  destruct (String.eqb dir ""); reflexivity.
Qed.

Lemma scoreServer_index path file i s : index (scoreServer path file i s) = Z.of_nat i.
Proof.
  unfold scoreServer. destruct (rootDir s) as [dir|]; [|reflexivity].
  destruct (String.eqb dir ""); reflexivity.
Qed.

Lemma imap_scoreServer_index path file servers :
  forall k,
    map index (imap (fun i => scoreServer path file (k + i)) servers)
    = map Z.of_nat (seq k (length servers)).
Proof.
  induction servers as [|s servers IH]; intros k; [reflexivity|].
  cbn [imap length seq map]. rewrite scoreServer_index, Nat.add_0_r. f_equal.
  rewrite <- IH. f_equal. apply imap_ext. intros i x _. simpl.
  now rewrite Nat.add_succ_r.
Qed.

Lemma scoredServers_index_NoDup path filePath servers :
  List.NoDup (map index (scoredServers path filePath servers)).
Proof.
  assert (E : map index (scoredServers path filePath servers)
              = map Z.of_nat (seq 0 (length servers)))
    by exact (imap_scoreServer_index path (absolutePath path filePath) servers 0).
  rewrite E.
  apply Finite.Injective_map_NoDup; [intros x y; apply Nat2Z.inj|apply List.seq_NoDup].
Qed.

Lemma StronglySorted_strict (l : list Scored) :
  List.NoDup (map index l) ->
  StronglySorted (fun a b => compareScored a b <= 0) l ->
  StronglySorted
    (fun a b => score b < score a \/ (score a = score b /\ index a < index b)) l.
Proof.
  intros Hnd Hs. induction Hs as [|a l Hs IH Ha]; [constructor|].
  cbn [map] in Hnd. apply List.NoDup_cons_iff in Hnd as [Hnotin Hnd].
  constructor; [now apply IH|].
  apply List.Forall_forall. intros b Hb.
  rewrite List.Forall_forall in Ha. specialize (Ha b Hb).
  apply compareScored_order in Ha.
  assert (index a <> index b).
  { intros E. apply Hnotin. rewrite E. now apply in_map. }
  lia.
Qed.

Lemma orderServerConfigsBySpecificity_sorted path filePath servers :
  orderServerConfigsBySpecificity path filePath servers
  = map server (sortBy (compareScored) (scoredServers path filePath servers)).
Proof.
  unfold orderServerConfigsBySpecificity.
  destruct servers as [|s [|s' servers]]; try reflexivity.
  cbn. now rewrite scoreServer_server.
Qed.

Lemma prefix_cons a s1 b s2 :
  String.prefix (String a s1) (String b s2)
  = if Ascii.ascii_dec a b then String.prefix s1 s2 else false.
Proof. reflexivity. Qed.

Lemma prefix_dotdot_slash rel :
  String.prefix "../" rel = true -> String.prefix ".." rel = true.
Proof.
  destruct rel as [|c1 rel]; [discriminate|]. rewrite !prefix_cons.
  destruct (Ascii.ascii_dec "." c1); [|discriminate].
  destruct rel as [|c2 rel]; [discriminate|]. rewrite !prefix_cons.
  destruct (Ascii.ascii_dec "." c2); [|discriminate].
  destruct rel; reflexivity.
Qed.

Lemma scoreServer_score path file i s :
  match rootDir s with
  | None => score (scoreServer path file i s) = 0
  | Some dir =>
      dir <> ""%string ->
      let root := absolutePath path dir in
      let rel := relative path root file in
      ((rel = ""%string
        \/ (String.prefix ".." rel = false /\ isAbsolute path rel = false)) ->
       score (scoreServer path file i s) = 10000 + Z.of_nat (String.length root))
      /\ (rel <> ""%string ->
          (rel = ".."%string \/ String.prefix "../" rel = true
           \/ isAbsolute path rel = true) ->
          score (scoreServer path file i s) = -1)
  end.
Proof.
  unfold scoreServer. destruct (rootDir s) as [dir|]; [|reflexivity].
  intros Hdir. destruct (String.eqb_spec dir "") as [E|_]; [contradiction|].
  cbv zeta. unfold isInside. cbn [score].
  set (rel := relative path (absolutePath path dir) file).
  split.
  - intros [->|[Hp Ha]]; [reflexivity|].
    rewrite Hp, Ha. cbn. now rewrite orb_true_r.
  - intros Hne Hout. destruct (String.eqb_spec rel "") as [E|_]; [contradiction|].
    cbn [orb].
    destruct Hout as [->|[Hp|Ha]].
    + reflexivity.
    + rewrite (prefix_dotdot_slash _ Hp). reflexivity.
    + rewrite Ha. cbn. now rewrite andb_false_r.
Qed.

(** C1 (as amended): the router returns the configs in the order of their
    scores, highest first, the position in the configuration breaking ties;
    a config with no explicit root scores 0, a config whose resolved root
    contains the file scores 10000 plus the length of that root, so a longer
    containing root ranks earlier and every containing root ranks before the
    unscoped configs, and a config whose explicit root does not contain the
    file scores -1, after the unscoped ones.  For the file /a/b/c.ts, a config
    scoped to /a/b ranks before an unscoped one. *)
Theorem orderServerConfigsBySpecificity_ranks_by_score :
  (forall path filePath servers,
      let file := absolutePath path filePath in
      let scored := scoredServers path filePath servers in
      let ranked := sortBy compareScored scored in
      orderServerConfigsBySpecificity path filePath servers = map server ranked
      /\ Permutation scored ranked
      /\ StronglySorted
           (fun a b => score b < score a
                       \/ (score a = score b /\ index a < index b)) ranked
      /\ (forall i s, servers !! i = Some s ->
            exists sc, scored !! i = Some sc /\ server sc = s
              /\ index sc = Z.of_nat i
              /\ match rootDir s with
                 | None => score sc = 0
                 | Some dir =>
                     dir <> ""%string ->
                     let root := absolutePath path dir in
                     let rel := relative path root file in
                     ((rel = ""%string
                       \/ (String.prefix ".." rel = false
                           /\ isAbsolute path rel = false)) ->
                      score sc = 10000 + Z.of_nat (String.length root))
                     /\ (rel <> ""%string ->
                         (rel = ".."%string \/ String.prefix "../" rel = true
                          \/ isAbsolute path rel = true) ->
                         score sc = -1)
                 end))
  /\ orderServerConfigsBySpecificity (posix "/") "/a/b/c.ts"
       [backend "global" None; backend "scoped" (Some "/a/b"%string)]
     = [backend "scoped" (Some "/a/b"%string); backend "global" None]
  /\ orderServerConfigsBySpecificity (posix "/") "/a/b/c.ts"
       [backend "scoped" (Some "/a/b"%string); backend "global" None]
     = [backend "scoped" (Some "/a/b"%string); backend "global" None].
Proof.
  split; [|split; vm_compute; reflexivity].
  intros path filePath servers file scored ranked.
  split; [apply orderServerConfigsBySpecificity_sorted|].
  split; [apply sortBy_perm|].
  split.
  - apply StronglySorted_strict.
    + eapply Permutation_NoDup; [apply Permutation_map, sortBy_perm|].
      apply scoredServers_index_NoDup.
    + apply sortBy_sorted; [apply compareScored_total|apply compareScored_trans].
  - intros i s Hi. exists (scoreServer path file i s).
    split; [unfold scored, scoredServers; now rewrite list_lookup_imap, Hi|].
    split; [apply scoreServer_server|].
    split; [apply scoreServer_index|].
    apply scoreServer_score.
Qed.

Lemma orderServerConfigsBySpecificity_ranks_by_score_witness :
  exists sc,
    scoredServers (posix "/") "/a/b/c.ts"
      [backend "global" None; backend "scoped" (Some "/a/b"%string)] !! 1%nat
    = Some sc
    /\ score sc = 10004.
Proof.
  destruct (proj1 orderServerConfigsBySpecificity_ranks_by_score (posix "/")
              "/a/b/c.ts"%string
              [backend "global" None; backend "scoped" (Some "/a/b"%string)])
    as (_ & _ & _ & H).
  destruct (H 1%nat (backend "scoped" (Some "/a/b"%string)) eq_refl)
    as (sc & Hsc & _ & _ & Hscore).
  exists sc. split; [exact Hsc|].
  cbn [rootDir backend] in Hscore.
  destruct (Hscore ltac:(discriminate)) as [Hin _].
  apply Hin. right. split; reflexivity.
Defined.

(** C1 as stated fails: an unscoped config does not score lowest, since a
    config whose explicit root does not contain the file scores below it. *)
Lemma unscoped_config_does_not_score_lowest :
  ~ (forall filePath servers u s,
        In u (scoredServers (posix "/") filePath servers) ->
        In s (scoredServers (posix "/") filePath servers) ->
        rootDir (server u) = None ->
        score u <= score s).
Proof.
  intros H.
  pose (servers := [backend "other" (Some "/x"%string); backend "global" None]).
  pose (u := scoreServer (posix "/") "/a/b/c.ts" 1 (backend "global" None)).
  pose (s := scoreServer (posix "/") "/a/b/c.ts" 0 (backend "other" (Some "/x"%string))).
  assert (Hu : In u (scoredServers (posix "/") "/a/b/c.ts" servers))
    by (vm_compute; right; left; reflexivity).
  assert (Hs : In s (scoredServers (posix "/") "/a/b/c.ts" servers))
    by (vm_compute; left; reflexivity).
  specialize (H _ _ u s Hu Hs eq_refl).
  vm_compute in H. apply H. reflexivity.
Qed.

End RouterFacts.

(** ** Capabilities and the operation dispatcher *)

Section DispatcherFacts.
Import Types Dispatcher Scenario.

Lemma emits_ret P {A} (a : A) : emits P (mret a : M A).
Proof. intros c. exists []. split; [now rewrite app_nil_r|constructor]. Qed.

Lemma emits_throw P {A} e : emits P (throw e : M A).
Proof. intros c. exists []. split; [now rewrite app_nil_r|constructor]. Qed.

Lemma emits_bind P {A B} (m : M A) (k : A -> M B) :
  emits P m -> (forall a, emits P (k a)) -> emits P (m ≫= k).
Proof.
  intros Hm Hk c. unfold mbind, M_bind, bind.
  destruct (Hm c) as (e1 & E1 & F1).
  destruct (m c) as [[e|a] c1]; simpl in *.
  - now exists e1.
  - destruct (Hk a c1) as (e2 & E2 & F2). exists (e1 ++ e2).
    rewrite E2, E1, app_assoc. split; [reflexivity|now apply Forall_app].
Qed.

Lemma emits_try_catch P {A} (m : M A) handler :
  emits P m -> (forall e, emits P (handler e)) -> emits P (try_catch m handler).
Proof.
  intros Hm Hh c. unfold try_catch.
  destruct (Hm c) as (e1 & E1 & F1).
  destruct (m c) as [[e|a] c1]; simpl in *.
  - destruct (Hh e c1) as (e2 & E2 & F2). exists (e1 ++ e2).
    rewrite E2, E1, app_assoc. split; [reflexivity|now apply Forall_app].
  - now exists e1.
Qed.

Lemma emits_emit P w : P w -> emits P (emit w).
Proof. intros Hw c. exists [w]. split; [reflexivity|now repeat constructor]. Qed.

Lemma emits_getState P key : emits P (getState key).
Proof. intros c. exists []. split; [now rewrite app_nil_r|constructor]. Qed.

Lemma emits_setState P key st : emits P (setState key st).
Proof. intros c. exists []. split; [simpl; now rewrite app_nil_r|constructor]. Qed.

Lemma emits_liftThrow P {A} (o : option A) : emits P (liftThrow o).
Proof. destruct o; [apply emits_ret|apply emits_throw]. Qed.

Lemma emits_sendRequest P answer key method timeoutMs :
  P (Request key method timeoutMs) ->
  emits P (sendRequest answer key method timeoutMs).
Proof.
  intros Hw c. exists [Request key method timeoutMs]. unfold sendRequest.
  split; [|now repeat constructor].
  cbn [wire]. destruct (answer _); reflexivity.
Qed.

Ltac emits_step :=
  first
    [ apply emits_ret | apply emits_throw | apply emits_getState
    | apply emits_setState | apply emits_liftThrow
    | apply emits_emit; exact I
    | apply emits_sendRequest; assumption
    | apply emits_bind; [|intros ?]
    | apply emits_try_catch; [|intros ?]
    | match goal with
      | |- emits _ (match ?x with _ => _ end) => destruct x
      end ].

Section Emission.
Variable normalize resolvePath pathToUri : string -> string.
Variable getWorkspaceRootForFile : string -> EnriLspServerConfig -> string.
Variable readFile : string -> option jsstring.
Variable answer : list Wire -> Reply.
Variable allowed : string -> Z -> Prop.
Hypothesis allowed_initialize : allowed "initialize" 30000.

Lemma emits_getServerForConfig filePath cfg :
  emits (requestsSatisfy allowed)
    (getServerForConfig normalize getWorkspaceRootForFile answer filePath cfg).
Proof.
  unfold getServerForConfig, startServer, initializeServer, sendNotification.
  repeat emits_step.
Qed.

Lemma emits_ensureFileOpen key filePath :
  emits (requestsSatisfy allowed)
    (ensureFileOpen resolvePath pathToUri readFile key filePath).
Proof.
  unfold ensureFileOpen, sendNotification. repeat emits_step.
Qed.

Lemma emits_advertised key capability :
  emits (requestsSatisfy allowed) (advertised key capability).
Proof. unfold advertised. repeat emits_step. Qed.

Lemma emits_getDocumentSymbols configs filePath :
  allowed "textDocument/documentSymbol" 30000 ->
  emits (requestsSatisfy allowed)
    (getDocumentSymbols normalize resolvePath pathToUri getWorkspaceRootForFile
       readFile answer configs filePath).
Proof.
  intros Hsym.
  assert (Hloop : emits (requestsSatisfy allowed)
            (getDocumentSymbolsLoop normalize resolvePath pathToUri
               getWorkspaceRootForFile readFile answer filePath configs)).
  { induction configs as [|cfg rest IH]; cbn [getDocumentSymbolsLoop].
    - apply emits_ret.
    - apply emits_bind.
      { apply emits_try_catch; [|intros; apply emits_ret].
        apply emits_bind; [apply emits_getServerForConfig|intros; apply emits_ret]. }
      intros [key|]; [|exact IH].
      apply emits_bind; [apply emits_advertised|].
      intros [|]; cbn [negb]; [|exact IH].
      apply emits_bind; [apply emits_ensureFileOpen|]. intros _.
      apply emits_bind.
      { apply emits_try_catch; [|intros; apply emits_ret].
        apply emits_bind; [now apply emits_sendRequest|intros; apply emits_ret]. }
      intros [[entries|v]|]; [apply emits_ret|exact IH|exact IH]. }
  unfold getDocumentSymbols, noServerConfigured.
  destruct configs; [apply emits_throw|exact Hloop].
Qed.

Lemma emits_requestWithFallback {A} filePath capability method timeoutMs
    (post : ResultValue -> option A) configs :
  allowed method timeoutMs ->
  emits (requestsSatisfy allowed)
    (requestWithFallback normalize resolvePath pathToUri getWorkspaceRootForFile
       readFile answer filePath capability method timeoutMs post configs).
Proof.
  intros Hm.
  assert (Hloop : forall l, emits (requestsSatisfy allowed)
            (requestLoop normalize resolvePath pathToUri getWorkspaceRootForFile
               readFile answer filePath capability method timeoutMs post l)).
  { induction l as [|cfg rest IH]; cbn [requestLoop].
    - apply emits_ret.
    - apply emits_bind.
      { apply emits_try_catch; [|intros; apply emits_ret].
        apply emits_bind; [apply emits_getServerForConfig|intros; apply emits_ret]. }
      intros [key|]; [|exact IH].
      apply emits_bind; [apply emits_advertised|].
      intros [|]; cbn [negb]; [|exact IH].
      apply emits_bind; [apply emits_ensureFileOpen|]. intros _.
      apply emits_bind.
      { apply emits_try_catch; [|intros; apply emits_ret].
        apply emits_bind; [now apply emits_sendRequest|]. intros r.
        apply emits_bind; [apply emits_liftThrow|intros; apply emits_ret]. }
      intros [a|]; [apply emits_ret|exact IH]. }
  unfold requestWithFallback, fallbackRequest, noServerConfigured.
  destruct configs as [|cfg rest]; [apply emits_throw|].
  apply emits_bind; [apply Hloop|].
  intros [a|]; [apply emits_ret|].
  apply emits_bind; [apply emits_getServerForConfig|]. intros key.
  apply emits_bind; [apply emits_ensureFileOpen|]. intros _.
  apply emits_bind; [now apply emits_sendRequest|]. intros r.
  apply emits_liftThrow.
Qed.

End Emission.

(** *** Ambiguous renames *)

Lemma handleRenameSymbol_many normalize resolvePath pathToUri root readFile
    answer configs toolArgs c matches c1 :
  findSymbolsByName normalize resolvePath pathToUri root readFile answer configs
    (resolvePath (file_path toolArgs)) (symbol_name toolArgs)
    (symbol_kind toolArgs) c = (inr matches, c1) ->
  (1 < length matches)%nat ->
  handleRenameSymbol normalize resolvePath pathToUri root readFile answer configs
    toolArgs c
  = (inr (MultipleSymbolsMatch (symbol_name toolArgs)
            (map (candidateOf (file_path toolArgs)) matches)), c1).
Proof.
  intros Hfind Hlen. unfold handleRenameSymbol.
  unfold mbind at 1. unfold M_bind, bind. rewrite Hfind.
  destruct matches as [|m1 [|m2 rest]]; simpl in Hlen; try lia.
  reflexivity.
Qed.

Lemma emits_findSymbolsByName normalize resolvePath pathToUri root readFile
    answer allowed configs filePath symbolName symbolKind :
  allowed "initialize"%string 30000 ->
  allowed "textDocument/documentSymbol"%string 30000 ->
  emits (requestsSatisfy allowed)
    (findSymbolsByName normalize resolvePath pathToUri root readFile answer
       configs filePath symbolName symbolKind).
Proof.
  intros Hi Hs. unfold findSymbolsByName.
  apply emits_bind; [now apply emits_getDocumentSymbols|intros; apply emits_ret].
Qed.

(** C6 (as amended): when matching the symbol name against the document
    symbols yields more than one candidate, [handleRenameSymbol] answers with
    the list of all candidates, one per match and in the order of the matches,
    and sends nothing after the symbol query: in particular no
    [textDocument/rename] request is written to any backend. *)
Theorem handleRenameSymbol_ambiguous_sends_no_rename
    normalize resolvePath pathToUri root readFile answer configs toolArgs c
    matches c1 :
  findSymbolsByName normalize resolvePath pathToUri root readFile answer configs
    (resolvePath (file_path toolArgs)) (symbol_name toolArgs)
    (symbol_kind toolArgs) c = (inr matches, c1) ->
  (1 < length matches)%nat ->
  handleRenameSymbol normalize resolvePath pathToUri root readFile answer configs
    toolArgs c
  = (inr (MultipleSymbolsMatch (symbol_name toolArgs)
            (map (candidateOf (file_path toolArgs)) matches)), c1)
  /\ exists extra,
      wire c1 = wire c ++ extra
      /\ Forall (requestsSatisfy
                   (fun method _ => method <> "textDocument/rename"%string)) extra.
Proof.
  intros Hfind Hlen. split; [now apply handleRenameSymbol_many|].
  pose proof (emits_findSymbolsByName normalize resolvePath pathToUri root
                readFile answer
                (fun method _ => method <> "textDocument/rename"%string)
                configs (resolvePath (file_path toolArgs))
                (symbol_name toolArgs) (symbol_kind toolArgs)
                ltac:(discriminate) ltac:(discriminate) c) as H.
  rewrite Hfind in H. exact H.
Qed.

Lemma handleRenameSymbol_ambiguous_sends_no_rename_witness :
  exists c1 extra,
    (handleRenameSymbol samePath samePath samePath workspace emptyFile answers
      [tsserver] renameFoo newClient)
    = (inr (MultipleSymbolsMatch "Foo"
              [ {| c_file := "/w/a.ts"; c_line := 1; c_column := 7; c_kind := "class" |};
                {| c_file := "/w/a.ts"; c_line := 4; c_column := 10; c_kind := "function" |} ]),
       c1)
    /\ wire c1 = extra
    /\ Forall (requestsSatisfy
                 (fun method _ => method <> "textDocument/rename"%string)) extra.
Proof.
  destruct ((findSymbolsByName samePath samePath samePath workspace emptyFile
              answers [tsserver] "/w/a.ts" "Foo" None newClient))
    as [r c1] eqn:Hrun.
  assert (Hr : r = inr [ {| sm_name := "Foo"; sm_kind := 5; sm_position := at_ 0 6 |};
                         {| sm_name := "Foo"; sm_kind := 12; sm_position := at_ 3 9 |} ]).
  { apply (f_equal fst) in Hrun. cbn [fst] in Hrun. rewrite <- Hrun.
    vm_compute. reflexivity. }
  subst r.
  destruct (handleRenameSymbol_ambiguous_sends_no_rename
              samePath samePath samePath
              workspace emptyFile answers
              [tsserver] renameFoo newClient _ c1 Hrun)
    as [Hresp (extra & Hwire & Hall)].
  { simpl. lia. }
  exists c1, extra. split; [exact Hresp|]. split; [exact Hwire|exact Hall].
Defined.

(** C6 as stated fails: the candidates come from a [documentSymbol] query, so
    a backend has been started and queried by the time the ambiguity is
    reported. *)
Lemma ambiguous_rename_contacts_a_backend :
  ~ (forall answer configs toolArgs c candidates c1,
        (handleRenameSymbol samePath samePath samePath workspace emptyFile)
          answer configs toolArgs c
        = (inr (MultipleSymbolsMatch (symbol_name toolArgs) candidates), c1) ->
        wire c1 = wire c).
Proof.
  intros H.
  destruct ((handleRenameSymbol samePath samePath samePath workspace emptyFile
              answers [tsserver] renameFoo newClient)) as [r c1] eqn:Hrun.
  assert (Hr : exists candidates, r = inr (MultipleSymbolsMatch "Foo" candidates)).
  { apply (f_equal fst) in Hrun. cbn [fst] in Hrun. rewrite <- Hrun.
    eexists. vm_compute. reflexivity. }
  destruct Hr as [candidates ->].
  specialize (H _ _ _ _ _ _ Hrun).
  apply (f_equal snd) in Hrun. cbn [snd] in Hrun. rewrite <- Hrun in H.
  vm_compute in H. discriminate H.
Qed.

(** *** Timeout budgets *)

(** C9 (as amended): the handshake request [initialize] is written with a
    budget of 30000 ms, which is the budget of the definition, references and
    document-symbol requests (and half the 60000 ms of a rename request): no
    operation writes a request with another budget, and a first
    [findDefinition] writes the handshake and the query with the same one. *)
Theorem handshake_budget_equals_query_budget :
  (forall normalize resolvePath pathToUri root readFile answer configs filePath,
      emits (requestsSatisfy budget)
        (findDefinition normalize resolvePath pathToUri root readFile answer
           configs filePath)
      /\ emits (requestsSatisfy budget)
           (findReferences normalize resolvePath pathToUri root readFile answer
              configs filePath)
      /\ emits (requestsSatisfy budget)
           (getDocumentSymbols normalize resolvePath pathToUri root readFile
              answer configs filePath)
      /\ emits (requestsSatisfy budget)
           (renameSymbol normalize resolvePath pathToUri root readFile answer
              configs filePath))
  /\ (let key := (command tsserver, "/w"%string, extensions tsserver) in
      wire (findDefinition samePath samePath samePath workspace emptyFile
              answers [tsserver] "/w/a.ts" newClient).2
      = [Spawn key; Request key "initialize" 30000;
         Notification key "initialized"; Notification key "textDocument/didOpen";
         Request key "textDocument/definition" 30000]).
Proof.
  assert (Hi : budget "initialize" 30000) by (right; split; [now left|reflexivity]).
  split; [|vm_compute; reflexivity].
  intros. repeat split.
  - apply emits_requestWithFallback; [exact Hi|].
    right. split; [right; now left|reflexivity].
  - apply emits_requestWithFallback; [exact Hi|].
    right. split; [right; right; now left|reflexivity].
  - apply emits_getDocumentSymbols; [exact Hi|].
    right. split; [right; right; now right|reflexivity].
  - apply emits_requestWithFallback; [exact Hi|]. left. split; reflexivity.
Qed.

(** C9 as stated fails: in a first [findDefinition] the handshake is not given
    a longer budget than the query that follows it. *)
Lemma handshake_budget_not_longer :
  ~ (forall answer configs filePath k1 k2 t1 t2,
        let log := wire (findDefinition samePath samePath samePath workspace
                           emptyFile answer configs filePath newClient).2 in
        In (Request k1 "initialize" t1) log ->
        In (Request k2 "textDocument/definition" t2) log ->
        t2 < t1).
Proof.
  intros H.
  pose (key := (command tsserver, "/w"%string, extensions tsserver)).
  specialize (H answers [tsserver] "/w/a.ts"%string key key 30000 30000).
  cbv zeta in H.
  replace (wire (findDefinition samePath samePath samePath workspace emptyFile
                   answers [tsserver] "/w/a.ts" newClient).2)
    with [Spawn key; Request key "initialize" 30000;
          Notification key "initialized"; Notification key "textDocument/didOpen";
          Request key "textDocument/definition" 30000] in H
    by (vm_compute; reflexivity).
  assert (30000 < 30000); [|lia].
  apply H; simpl; tauto.
Qed.

(** *** The capability gate *)

Lemma size_pos_nonempty (caps : gmap string jsval) :
  (0 <? size caps)%nat = negb (bool_decide (caps = ∅)).
Proof.
  destruct (decide (caps = ∅)) as [->|Hne].
  - rewrite map_size_empty. reflexivity.
  - rewrite bool_decide_eq_false_2 by exact Hne. simpl.
    apply Nat.ltb_lt. apply map_size_non_empty_iff in Hne. lia.
Qed.

Lemma bind_run {A B} (m : M A) (k : A -> M B) c :
  (m ≫= k) c
  = match m c with
    | (inr a, c') => k a c'
    | (inl e, c') => (inl e, c')
    end.
Proof. reflexivity. Qed.

Lemma requestLoop_skip {A} normalize resolvePath pathToUri root readFile answer
    filePath capability method timeoutMs (post : ResultValue -> option A)
    cfg rest c key c1 st :
  getServerForConfig normalize root answer filePath cfg c = (inr key, c1) ->
  servers c1 !! key = Some st ->
  serverAdvertisedCapability (capabilities st) capability = false ->
  requestLoop normalize resolvePath pathToUri root readFile answer filePath
    capability method timeoutMs post (cfg :: rest) c
  = requestLoop normalize resolvePath pathToUri root readFile answer filePath
      capability method timeoutMs post rest c1.
Proof.
  intros Hget Hst Hcap. cbn [requestLoop].
  rewrite bind_run. unfold try_catch. rewrite bind_run, Hget.
  change ((mret (Some key) : M (option ServerKey)) c1) with (inr (A:=string) (Some key), c1).
  cbv iota. rewrite bind_run. unfold advertised. rewrite bind_run.
  unfold getState at 1. cbv iota. rewrite Hst.
  change ((mret (serverAdvertisedCapability (capabilities st) capability) : M bool) c1)
    with (inr (A:=string) (serverAdvertisedCapability (capabilities st) capability), c1).
  cbv iota. rewrite Hcap. reflexivity.
Qed.




End DispatcherFacts.

(** ** The correlation engine *)

Section CorrelationFacts.
Import Types Correlation.

Lemma Consistent_new : Consistent newClient.
Proof.
  split; cbn.
  - intros i p H. rewrite lookup_empty in H. discriminate.
  - intros h t H. rewrite lookup_empty in H. discriminate.
  - constructor.
  - tauto.
Qed.

Lemma Consistent_same c c' :
  nextId c' = nextId c -> pendingRequests c' = pendingRequests c ->
  calls c' = calls c -> timers c' = timers c ->
  settlements c' = settlements c ->
  Consistent c -> Consistent c'.
Proof.
  intros E1 E2 E3 E4 E5 [H1 H2 H3 H4].
  split; rewrite ?E1, ?E2, ?E3, ?E4, ?E5; assumption.
Qed.

Lemma Consistent_sendRequest process method params timeoutMs c :
  Consistent c -> Consistent (sendRequest process method params timeoutMs c).
Proof.
  intros [H1 H2 H3 H4]. split; cbn.
  - intros i p Hi.
    destruct (decide (i = IdNumber (nextId c))) as [->|Hne].
    + rewrite lookup_insert_eq in Hi. injection Hi as <-. cbn.
      rewrite lookup_insert_eq. eexists. split; reflexivity.
    + rewrite lookup_insert_ne in Hi by congruence.
      destruct (H1 i p Hi) as (t & Ht & ->).
      destruct (H2 _ _ Ht) as (_ & _ & Hlt & _).
      exists t. split; [|reflexivity].
      rewrite lookup_insert_ne by lia. exact Ht.
  - intros h t Ht.
    destruct (decide (h = calls c)) as [->|Hne].
    + rewrite lookup_insert_eq in Ht. injection Ht as <-. cbn.
      rewrite lookup_insert_eq. repeat split; try lia.
      intros Hin. apply H4 in Hin. lia.
    + rewrite lookup_insert_ne in Ht by congruence.
      destruct (H2 _ _ Ht) as (Hp & Hid & Hlt & Hns).
      rewrite lookup_insert_ne by (intros [= E]; lia).
      repeat split; try assumption; lia.
  - exact H3.
  - intros h Hin. apply H4 in Hin. lia.
Qed.

Lemma Consistent_settle c i p o :
  Consistent c -> pendingRequests c !! i = Some p ->
  Consistent (settle p o (deletePending i c)).
Proof.
  intros [H1 H2 H3 H4] Hp.
  destruct (H1 i p Hp) as (t & Ht & Hi).
  destruct (H2 _ _ Ht) as (Hpt & Hid & Hlt & Hns).
  split; cbn.
  - intros i' p' Hi'.
    apply lookup_delete_Some in Hi' as [Hne Hi'].
    destruct (H1 i' p' Hi') as (t' & Ht' & Hi'').
    exists t'. split; [|exact Hi''].
    rewrite lookup_delete_ne; [exact Ht'|].
    intros E. rewrite <- E in Ht'. congruence.
  - intros h' t' Ht'.
    apply lookup_delete_Some in Ht' as [Hne Ht'].
    destruct (H2 _ _ Ht') as (Hp' & Hid' & Hlt' & Hns').
    repeat split; try assumption.
    + rewrite lookup_delete_ne; [exact Hp'|].
      intros E. rewrite E in Hp. rewrite Hp' in Hp. injection Hp as <-.
      cbn in Hne. congruence.
    + rewrite map_app, in_app_iff. cbn. intros [Hin|[E|[]]]; [tauto|congruence].
  - rewrite map_app. cbn. apply List.NoDup_app; [exact H3| |].
    + repeat constructor. simpl. tauto.
    + intros x Hx [<-|[]]. exact (Hns Hx).
  - intros h. rewrite map_app, in_app_iff. cbn.
    intros [Hin|[<-|[]]]; [now apply H4|exact Hlt].
Qed.

Lemma timerFires_settle h c t :
  timers c !! h = Some t ->
  timerFires h c
  = Some (settle {| call := h |} (RejectedTimeout (t_method t) (t_timeoutMs t))
            (deletePending (IdNumber (t_id t)) c)).
Proof. intros Ht. unfold timerFires. rewrite Ht. reflexivity. Qed.

Section Handling.
Variable workspaceUri : ProcessId -> string.

(** The response branch of [handleMessage]. *)
Lemma handleMessage_response process message c i p :
  id message = Some i -> pendingRequests c !! i = Some p ->
  handleMessage workspaceUri process message c
  = settle p (match error message with
              | Some e => RejectedError (Types.message e)
              | None => Resolved (result message)
              end) (deletePending i c).
Proof.
  intros Hid Hp. unfold handleMessage. rewrite Hid, Hp. cbn.
  destruct (error message); reflexivity.
Qed.

(** Outside the response branch the correlation state is left alone. *)
Lemma handleMessage_other process message c :
  (forall i, id message = Some i -> pendingRequests c !! i = None) ->
  let c' := handleMessage workspaceUri process message c in
  nextId c' = nextId c /\ pendingRequests c' = pendingRequests c
  /\ calls c' = calls c /\ timers c' = timers c
  /\ settlements c' = settlements c.
Proof.
  intros Hnone. cbv zeta. unfold handleMessage.
  destruct (id message) as [i|] eqn:Hid.
  - rewrite (Hnone i eq_refl). cbn.
    destruct (truthyString (method message)); cbn; repeat split.
  - cbn. destruct (negb (truthyString (method message))); [repeat split|].
    destruct (String.eqb _ _); [|repeat split].
    destruct (getField "uri" (params message)) as [[| | | |uri| |]|];
      try (repeat split; fail).
    destruct (String.eqb uri ""); repeat split.
Qed.

Lemma Consistent_handleMessage process message c :
  Consistent c -> Consistent (handleMessage workspaceUri process message c).
Proof.
  intros Hc.
  destruct (id message) as [i|] eqn:Hid.
  - destruct (pendingRequests c !! i) as [p|] eqn:Hp.
    + rewrite (handleMessage_response _ _ _ _ _ Hid Hp).
      now apply Consistent_settle.
    + destruct (handleMessage_other process message c) as (E1 & E2 & E3 & E4 & E5).
      { intros j Hj. congruence. }
      eapply Consistent_same; eassumption.
  - destruct (handleMessage_other process message c) as (E1 & E2 & E3 & E4 & E5).
    { intros j Hj. congruence. }
    eapply Consistent_same; eassumption.
Qed.

Lemma Consistent_step c e c' :
  Consistent c -> step workspaceUri c e = Some c' -> Consistent c'.
Proof.
  intros Hc. destruct e as [process method params timeoutMs|process method params
                           |process message|h]; cbn.
  - intros [= <-]. now apply Consistent_sendRequest.
  - intros [= <-]. eapply Consistent_same; [..|exact Hc]; reflexivity.
  - intros [= <-]. now apply Consistent_handleMessage.
  - destruct (timers c !! h) as [t|] eqn:Ht.
    + rewrite (timerFires_settle _ _ _ Ht). intros [= <-].
      apply Consistent_settle; [exact Hc|].
      now destruct (timer_pending c Hc h t Ht) as (Hp & _).
    + unfold timerFires. rewrite Ht. discriminate.
Qed.

Lemma Consistent_run events :
  forall c c', Consistent c -> run workspaceUri c events = Some c' -> Consistent c'.
Proof.
  induction events as [|e events IH]; intros c c' Hc; cbn.
  - now intros [= <-].
  - destruct (step workspaceUri c e) as [c1|] eqn:Hstep; [|discriminate].
    apply IH. eapply Consistent_step; eassumption.
Qed.

End Handling.

End CorrelationFacts.

Section CorrelationClaims.
Import Types Correlation.

(** C5: after any sequence of events, no request has been settled twice; a
    pending request is unsettled and its timer is armed, so that it is settled
    by whichever comes first of a response with its id (resolution, or
    rejection when the response carries an error) and the firing of its timer
    (rejection with the timeout error), each of which removes the pending
    entry; and a response whose id has no pending entry leaves the client as
    it is. *)
Theorem pending_request_settled_exactly_once workspaceUri events c :
  run workspaceUri newClient events = Some c ->
  List.NoDup (map fst (settlements c))
  /\ (forall i p,
        pendingRequests c !! i = Some p ->
        ~ In (call p) (map fst (settlements c))
        /\ (exists t c',
              timers c !! call p = Some t /\ i = IdNumber (t_id t)
              /\ step workspaceUri c (TimerFires (call p)) = Some c'
              /\ pendingRequests c' !! i = None
              /\ timers c' !! call p = None
              /\ settlements c'
                 = settlements c
                   ++ [(call p, RejectedTimeout (t_method t) (t_timeoutMs t))])
        /\ (forall process message,
              id message = Some i ->
              let c' := handleMessage workspaceUri process message c in
              pendingRequests c' !! i = None
              /\ timers c' !! call p = None
              /\ settlements c'
                 = settlements c
                   ++ [(call p,
                        match error message with
                        | Some e => RejectedError (Types.message e)
                        | None => Resolved (result message)
                        end)]))
  /\ (forall process message i,
        id message = Some i ->
        pendingRequests c !! i = None ->
        truthyString (method message) = false ->
        handleMessage workspaceUri process message c = c).
Proof.
  intros Hrun.
  pose proof (Consistent_run workspaceUri events _ _ Consistent_new Hrun) as Hc.
  split; [apply (settled_once c Hc)|]. split.
  - intros i p Hp.
    destruct (pending_timer c Hc i p Hp) as (t & Ht & Hi).
    destruct (timer_pending c Hc _ _ Ht) as (Hpt & _ & _ & Hns).
    split; [exact Hns|]. split.
    + exists t. eexists. split; [exact Ht|]. split; [exact Hi|].
      cbn [step]. rewrite (timerFires_settle _ _ _ Ht).
      split; [reflexivity|]. cbn. subst i.
      rewrite !lookup_delete_eq. repeat split.
    + intros process message Hid. cbv zeta.
      rewrite (handleMessage_response workspaceUri _ _ _ _ _ Hid Hp). cbn.
      rewrite !lookup_delete_eq. repeat split.
  - intros process message i Hid Hnone Hm.
    unfold handleMessage. rewrite Hid, Hnone. cbn. rewrite Hm. reflexivity.
Qed.

Lemma pending_request_settled_exactly_once_witness :
  exists c,
    run (fun _ => "file:///w"%string) newClient
      [SendRequest 0%nat "initialize" VNull 30000;
       SendRequest 0%nat "textDocument/definition" VNull 30000;
       Receive 0%nat (response 1 VNull);
       TimerFires 1%nat;
       Receive 0%nat (response 2 VNull)] = Some c
    /\ List.NoDup (map fst (settlements c))
    /\ settlements c
       = [(0%nat, Resolved VNull);
          (1%nat, RejectedTimeout "textDocument/definition" 30000)].
Proof.
  destruct (run (fun _ => "file:///w"%string) newClient
              [SendRequest 0%nat "initialize" VNull 30000;
               SendRequest 0%nat "textDocument/definition" VNull 30000;
               Receive 0%nat (response 1 VNull);
               TimerFires 1%nat;
               Receive 0%nat (response 2 VNull)]) as [c|] eqn:Hrun.
  - exists c. split; [reflexivity|].
    split; [exact (proj1 (pending_request_settled_exactly_once _ _ _ Hrun))|].
    apply (f_equal (option_map settlements)) in Hrun.
    vm_compute in Hrun. injection Hrun as Hs. symmetry. exact Hs.
  - vm_compute in Hrun. discriminate Hrun.
Defined.

(** C8 (as amended): the request-id counter and the pending-request map
    belong to the client and are shared by all of its backend instances: a
    request takes the next id of the one counter whatever the process it is
    written to, so ids are unique across the instances, and a response settles
    the pending request that has its id whatever the instance whose output
    delivered it. *)
Theorem request_ids_and_pending_map_are_client_wide workspaceUri :
  (forall c p q method params timeoutMs,
      let cp := sendRequest p method params timeoutMs c in
      let cq := sendRequest q method params timeoutMs c in
      nextId cp = nextId c + 1
      /\ nextId cq = nextId cp
      /\ pendingRequests cq = pendingRequests cp
      /\ pendingRequests cp !! IdNumber (nextId c) = Some {| call := calls c |}
      /\ stdin cp
         = stdin c ++ [(p, {| id := Some (IdNumber (nextId c));
                              method := Some method; params := params;
                              result := VUndefined; error := None |})])
  /\ (forall c p q message i pending,
        id message = Some i ->
        pendingRequests c !! i = Some pending ->
        handleMessage workspaceUri q message c
        = handleMessage workspaceUri p message c).
Proof.
  split.
  - intros c p q method params timeoutMs. cbn.
    rewrite lookup_insert_eq. repeat split.
  - intros c p q message i pending Hid Hp.
    now rewrite !(handleMessage_response workspaceUri _ _ _ _ _ Hid Hp).
Qed.

Lemma request_ids_and_pending_map_are_client_wide_witness :
  let c := sendRequest 0%nat "textDocument/definition" VNull 30000 newClient in
  handleMessage (fun _ => "file:///w"%string) 1%nat (response 1 VNull) c
  = handleMessage (fun _ => "file:///w"%string) 0%nat (response 1 VNull) c.
Proof.
  cbv zeta.
  apply (proj2 (request_ids_and_pending_map_are_client_wide _)
           _ 0%nat 1%nat (response 1 VNull) (IdNumber 1) {| call := 0%nat |}).
  - reflexivity.
  - vm_compute. reflexivity.
Defined.

(** C8 as stated fails: a message read from the output of one instance
    settles a request that was written to another instance. *)
Lemma response_from_another_instance_settles :
  ~ (forall workspaceUri p q method params timeoutMs message c,
        p <> q ->
        let c1 := sendRequest p method params timeoutMs c in
        settlements (handleMessage workspaceUri q message c1) = settlements c1).
Proof.
  intros H.
  specialize (H (fun _ => "file:///w"%string) 0%nat 1%nat
                "textDocument/definition"%string VNull 30000
                (response 1 VNull) newClient ltac:(discriminate)).
  vm_compute in H. discriminate H.
Qed.

End CorrelationClaims.

(** ** The process supervisor *)

Section SupervisorFacts.
Import Types Supervisor.
Variable normalize : string -> string.
Variable getWorkspaceRootForFile : string -> EnriLspServerConfig -> string.

#[local] Abbreviation taskKey := (taskKey normalize getWorkspaceRootForFile).
#[local] Abbreviation Deduplicated := (Deduplicated normalize getWorkspaceRootForFile).
#[local] Abbreviation marker_start := (marker_start normalize getWorkspaceRootForFile).
#[local] Abbreviation owner_marker := (owner_marker normalize getWorkspaceRootForFile).
#[local] Abbreviation owner_unique := (owner_unique normalize getWorkspaceRootForFile).
#[local] Abbreviation spawn_count := (spawn_count normalize getWorkspaceRootForFile).
#[local] Abbreviation left_root := (left_root normalize getWorkspaceRootForFile).

#[local] Arguments count : simpl never.

Lemma count_snoc k k' l :
  count k (l ++ [k']) = (count k l + if decide (k' = k) then 1 else 0)%nat.
Proof.
  unfold count. rewrite filter_app, length_app. f_equal.
  rewrite filter_cons, filter_nil. destruct (decide (k' = k)); reflexivity.
Qed.

Lemma Deduplicated_new : Deduplicated newRegistry.
Proof.
  split; cbn.
  - intros k p H. rewrite lookup_empty in H. discriminate.
  - intros i t p H. rewrite lookup_nil in H. discriminate.
  - intros i j t t' p H. rewrite lookup_nil in H. discriminate.
  - intros k. unfold registered. cbn. rewrite !lookup_empty.
    rewrite !bool_decide_eq_false_2 by (intros [? ?]; discriminate).
    now rewrite andb_false_r.
  - reflexivity.
  - intros i t H. rewrite lookup_nil in H. discriminate.
Qed.

Lemma taskKey_setPhase t ph :
  taskKey {| filePath := filePath t; serverConfig := serverConfig t; phase := ph |}
  = taskKey t.
Proof. reflexivity. Qed.

(** A step that only moves task [i] to a phase other than
    [AwaitingOwnStart]. *)
Lemma Deduplicated_phase r r' i t ph :
  Deduplicated r ->
  tasks r !! i = Some t ->
  servers r' = servers r -> serversStarting r' = serversStarting r ->
  starts r' = starts r -> spawned r' = spawned r ->
  handshakes r' = handshakes r ->
  tasks r' = setPhase i t ph r ->
  (forall p, ph <> AwaitingOwnStart p) ->
  (ph <> ResolvingRoot -> validKey (taskKey t) = true ->
   count (taskKey t) (spawned r) = 1%nat) ->
  Deduplicated r'.
Proof.
  intros [H1 H2 H3 H4 H5 H6] Hi E1 E2 E3 E4 E5 E6 Hph Hcount.
  split; unfold registered; rewrite ?E1, ?E2, ?E3, ?E4, ?E5, ?E6; unfold setPhase.
  - exact H1.
  - intros j t' p Hj Hp.
    apply list_lookup_insert_Some in Hj as [(-> & <- & _)|(Hne & Hj)].
    + cbn in Hp. now apply Hph in Hp.
    + now apply (H2 j).
  - intros j1 j2 t1 t2 p Hj1 Hj2 Hp1 Hp2.
    apply list_lookup_insert_Some in Hj1 as [(-> & <- & _)|(Hne1 & Hj1)].
    { cbn in Hp1. now apply Hph in Hp1. }
    apply list_lookup_insert_Some in Hj2 as [(-> & <- & _)|(Hne2 & Hj2)].
    { cbn in Hp2. now apply Hph in Hp2. }
    now apply (H3 j1 j2 t1 t2 p).
  - exact H4.
  - exact H5.
  - intros j t' Hj Hnr Hv.
    apply list_lookup_insert_Some in Hj as [(-> & <- & _)|(Hne & Hj)].
    + cbn in Hnr. rewrite taskKey_setPhase in *. now apply Hcount.
    + now apply (H6 j).
Qed.

Lemma registered_true r k :
  registered r k = true <->
  is_Some (servers r !! k) \/ is_Some (serversStarting r !! k).
Proof.
  unfold registered. rewrite orb_true_iff, !bool_decide_eq_true. reflexivity.
Qed.

Lemma registered_false r k :
  servers r !! k = None -> serversStarting r !! k = None ->
  registered r k = false.
Proof.
  intros H1 H2. destruct (registered r k) eqn:E; [|reflexivity].
  apply registered_true in E as [[x Hx]|[x Hx]]; congruence.
Qed.

Lemma count_registered r k :
  Deduplicated r -> validKey k = true -> registered r k = true ->
  count k (spawned r) = 1%nat.
Proof. intros Hr Hv Hreg. now rewrite (spawn_count r Hr), Hv, Hreg. Qed.

Lemma Deduplicated_lookupOrStart r i t :
  Deduplicated r -> tasks r !! i = Some t -> phase t = ResolvingRoot ->
  Deduplicated (lookupOrStart normalize getWorkspaceRootForFile i t r).
Proof.
  intros Hr Hi Hph. unfold lookupOrStart. fold (taskKey t).
  destruct (servers r !! taskKey t) as [existing|] eqn:Hs.
  { eapply Deduplicated_phase; try exact Hr; try exact Hi; try reflexivity.
    - discriminate.
    - intros _ Hv. apply count_registered; [exact Hr|exact Hv|].
      apply registered_true. left. now rewrite Hs. }
  destruct (serversStarting r !! taskKey t) as [starting|] eqn:Hm.
  { eapply Deduplicated_phase; try exact Hr; try exact Hi; try reflexivity.
    - discriminate.
    - intros _ Hv. apply count_registered; [exact Hr|exact Hv|].
      apply registered_true. right. now rewrite Hm. }
  change (validCommand (command (serverConfig t))) with (validKey (taskKey t)).
  pose proof (registered_false r _ Hs Hm) as Hreg.
  assert (Hzero : count (taskKey t) (spawned r) = 0%nat).
  { rewrite (spawn_count r Hr), Hreg. now rewrite andb_false_r. }
  destruct Hr as [H1 H2 H3 H4 H5 H6].
  split; cbn; unfold setPhase.
  - intros k p Hk.
    destruct (decide (k = taskKey t)) as [->|Hne].
    + rewrite lookup_insert_eq in Hk. injection Hk as <-.
      eexists. split; [now apply list_lookup_middle|].
      intros ->. discriminate.
    + rewrite lookup_insert_ne in Hk by congruence.
      destruct (H1 k p Hk) as (st & Hst & Hv).
      exists st. split; [|exact Hv]. now apply lookup_app_l_Some.
  - intros j t' p Hj Hp.
    apply list_lookup_insert_Some in Hj as [(-> & <- & _)|(Hne & Hj)].
    + cbn in Hp. injection Hp as <-. rewrite taskKey_setPhase.
      apply lookup_insert_eq.
    + pose proof (H2 j t' p Hj Hp) as Hmark.
      rewrite lookup_insert_ne; [exact Hmark|]. intros E. congruence.
  - assert (Hfresh : forall j t',
              tasks r !! j = Some t' ->
              phase t' = AwaitingOwnStart (length (starts r)) -> False).
    { intros j t' Hj Hp. pose proof (H2 j t' _ Hj Hp) as Hmark.
      destruct (H1 _ _ Hmark) as (st & Hst & _).
      apply lookup_lt_Some in Hst. lia. }
    intros j1 j2 t1 t2 p Hj1 Hj2 Hp1 Hp2.
    apply list_lookup_insert_Some in Hj1 as [(-> & <- & _)|(Hne1 & Hj1)];
      apply list_lookup_insert_Some in Hj2 as [(-> & <- & _)|(Hne2 & Hj2)].
    + reflexivity.
    + cbn in Hp1. injection Hp1 as <-. now destruct (Hfresh j2 t2).
    + cbn in Hp2. injection Hp2 as <-. now destruct (Hfresh j1 t1).
    + now apply (H3 j1 j2 t1 t2 p).
  - intros k. unfold registered. cbn.
    destruct (decide (k = taskKey t)) as [->|Hne].
    + rewrite lookup_insert_eq.
      rewrite (bool_decide_eq_true_2 (is_Some (Some _))) by eauto.
      rewrite orb_true_r, andb_true_r.
      destruct (validKey (taskKey t)); [|exact Hzero].
      rewrite count_snoc, Hzero. now rewrite decide_True.
    + rewrite lookup_insert_ne by congruence.
      fold (registered r k). rewrite <- H4.
      destruct (validKey (taskKey t)); [|reflexivity].
      rewrite count_snoc. rewrite decide_False by congruence. lia.
  - rewrite H5. reflexivity.
  - intros j t' Hj Hnr Hv.
    apply list_lookup_insert_Some in Hj as [(-> & <- & _)|(Hne & Hj)].
    + rewrite taskKey_setPhase in *. rewrite Hv.
      rewrite count_snoc, Hzero. now rewrite decide_True.
    + pose proof (H6 j t' Hj Hnr Hv) as Hone.
      assert (Hk : taskKey t' <> taskKey t) by (intros E; rewrite E in Hone; lia).
      destruct (validKey (taskKey t)); [|exact Hone].
      rewrite count_snoc. rewrite decide_False by congruence. lia.
Qed.

Lemma Deduplicated_afterOwnStart r r' i t p k status :
  Deduplicated r -> tasks r !! i = Some t -> phase t = AwaitingOwnStart p ->
  starts r !! p = Some (k, status) ->
  afterOwnStart normalize getWorkspaceRootForFile i t p status r = Some r' ->
  Deduplicated r'.
Proof.
  intros Hr Hi Hph Hst Hafter.
  pose proof (owner_marker r Hr i t p Hi Hph) as Hmark.
  destruct (marker_start r Hr _ _ Hmark) as (st & Hst' & Hvalid).
  rewrite Hst in Hst'. injection Hst' as -> ->.
  assert (Hreg : registered r (taskKey t) = true).
  { apply registered_true. right. now rewrite Hmark. }
  assert (Hother : forall j t' p',
             j <> i -> tasks r !! j = Some t' -> phase t' = AwaitingOwnStart p' ->
             taskKey t' <> taskKey t).
  { intros j t' p' Hne Hj Hp' E.
    pose proof (owner_marker r Hr j t' p' Hj Hp') as Hm'.
    rewrite E, Hmark in Hm'. injection Hm' as <-.
    apply Hne. exact (owner_unique r Hr j i t' t p Hj Hi Hp' Hph). }
  pose proof Hr as [H1 H2 H3 H4 H5 H6].
  unfold afterOwnStart in Hafter. fold (taskKey t) in Hafter.
  destruct st; [discriminate| |]; injection Hafter as <-;
    split; cbn; unfold setPhase.
  - (* Started *)
    intros k p' Hk. apply lookup_delete_Some in Hk as [Hne Hk]. now apply H1.
  - intros j t' p' Hj Hp'.
    apply list_lookup_insert_Some in Hj as [(-> & <- & _)|(Hne & Hj)];
      [discriminate Hp'|].
    rewrite lookup_delete_ne; [now apply (H2 j)|].
    intros E. symmetry in E. revert E. now apply (Hother j t' p').
  - intros j1 j2 t1 t2 p' Hj1 Hj2 Hp1 Hp2.
    apply list_lookup_insert_Some in Hj1 as [(-> & <- & _)|(Hne1 & Hj1)];
      [discriminate Hp1|].
    apply list_lookup_insert_Some in Hj2 as [(-> & <- & _)|(Hne2 & Hj2)];
      [discriminate Hp2|].
    now apply (H3 j1 j2 t1 t2 p').
  - intros k. rewrite H4. unfold registered. cbn.
    destruct (decide (k = taskKey t)) as [->|Hne].
    + rewrite lookup_insert_eq, lookup_delete_eq, Hmark.
      rewrite !(bool_decide_eq_true_2 (is_Some (Some _))) by eauto.
      now rewrite !orb_true_r.
    + rewrite lookup_insert_ne, lookup_delete_ne by congruence. reflexivity.
  - exact H5.
  - intros j t' Hj Hnr Hv.
    apply list_lookup_insert_Some in Hj as [(-> & <- & _)|(Hne & Hj)].
    + rewrite taskKey_setPhase in *. now apply count_registered.
    + now apply (H6 j).
  - (* Failed *)
    intros k p' Hk. apply lookup_delete_Some in Hk as [Hne Hk]. now apply H1.
  - intros j t' p' Hj Hp'.
    apply list_lookup_insert_Some in Hj as [(-> & <- & _)|(Hne & Hj)];
      [discriminate Hp'|].
    rewrite lookup_delete_ne; [now apply (H2 j)|].
    intros E. symmetry in E. revert E. now apply (Hother j t' p').
  - intros j1 j2 t1 t2 p' Hj1 Hj2 Hp1 Hp2.
    apply list_lookup_insert_Some in Hj1 as [(-> & <- & _)|(Hne1 & Hj1)];
      [discriminate Hp1|].
    apply list_lookup_insert_Some in Hj2 as [(-> & <- & _)|(Hne2 & Hj2)];
      [discriminate Hp2|].
    now apply (H3 j1 j2 t1 t2 p').
  - assert (Hinvalid : validKey (taskKey t) = false).
    { destruct (validKey (taskKey t)); [|reflexivity]. now destruct Hvalid. }
    intros k. rewrite H4. unfold registered. cbn.
    destruct (decide (k = taskKey t)) as [->|Hne].
    + now rewrite Hinvalid.
    + rewrite lookup_delete_ne by congruence. reflexivity.
  - exact H5.
  - intros j t' Hj Hnr Hv.
    apply list_lookup_insert_Some in Hj as [(-> & <- & _)|(Hne & Hj)].
    + rewrite taskKey_setPhase in *.
      destruct (validKey (taskKey t)); [now destruct Hvalid|discriminate].
    + now apply (H6 j).
Qed.

Lemma Deduplicated_afterOtherStart r r' i t p status :
  Deduplicated r -> tasks r !! i = Some t -> phase t = AwaitingOtherStart p ->
  afterOtherStart i t p status r = Some r' -> Deduplicated r'.
Proof.
  intros Hr Hi Hph Hafter. unfold afterOtherStart in Hafter.
  assert (Hcount : validKey (taskKey t) = true ->
                   count (taskKey t) (spawned r) = 1%nat).
  { apply (left_root r Hr i t Hi). rewrite Hph. discriminate. }
  destruct status; [discriminate| |]; injection Hafter as <-;
    (eapply Deduplicated_phase; try exact Hr; try exact Hi; try reflexivity;
     [discriminate|intros _; exact Hcount]).
Qed.

Lemma Deduplicated_handshakeDone r r' p :
  Deduplicated r -> settleStart p Started r = Some r' -> Deduplicated r'.
Proof.
  intros Hr Hset. unfold settleStart in Hset.
  destruct (starts r !! p) as [[key [| |]]|] eqn:Hp; try discriminate.
  injection Hset as <-. destruct Hr as [H1 H2 H3 H4 H5 H6].
  split; try assumption. cbn.
  intros k p' Hk. destruct (H1 k p' Hk) as (st & Hst & Hv).
  destruct (decide (p' = p)) as [->|Hne].
  - rewrite Hp in Hst. injection Hst as <- <-.
    exists Started. split; [|discriminate].
    apply list_lookup_insert_eq. now apply lookup_lt_Some in Hp.
  - exists st. split; [|exact Hv]. rewrite list_lookup_insert_ne by congruence.
    exact Hst.
Qed.

Lemma Deduplicated_acquire r file cfg :
  Deduplicated r ->
  Deduplicated
    {| servers := servers r; serversStarting := serversStarting r;
       starts := starts r; spawned := spawned r; handshakes := handshakes r;
       exited := exited r;
       tasks := tasks r ++ [{| filePath := file; serverConfig := cfg;
                               phase := ResolvingRoot |}] |}.
Proof.
  intros [H1 H2 H3 H4 H5 H6].
  assert (Hold : forall j t', 
            (tasks r ++ [{| filePath := file; serverConfig := cfg;
                            phase := ResolvingRoot |}]) !! j = Some t' ->
            phase t' <> ResolvingRoot -> tasks r !! j = Some t').
  { intros j t' Hj Hnr. apply lookup_app_Some in Hj as [Hj|[_ Hj]]; [exact Hj|].
    apply list_lookup_singleton_Some in Hj as [_ <-]. now destruct Hnr. }
  split; cbn; try assumption.
  - intros j t' p Hj Hp. apply (H2 j); [|exact Hp].
    apply Hold; [exact Hj|]. rewrite Hp. discriminate.
  - intros j1 j2 t1 t2 p Hj1 Hj2 Hp1 Hp2.
    apply (H3 j1 j2 t1 t2 p); try assumption;
      (apply Hold; [assumption|]); [rewrite Hp1|rewrite Hp2]; discriminate.
  - intros j t' Hj Hnr. apply (H6 j); [|exact Hnr]. now apply Hold.
Qed.

Lemma Deduplicated_step r r' e :
  calm e = true -> Deduplicated r ->
  step normalize getWorkspaceRootForFile r e = Some r' -> Deduplicated r'.
Proof.
  intros Hcalm Hr. destruct e as [file cfg|i|p|p|p]; try discriminate Hcalm; cbn.
  - intros [= <-]. now apply Deduplicated_acquire.
  - unfold resume. destruct (tasks r !! i) as [t|] eqn:Hi; [|discriminate].
    destruct (phase t) as [|p|p|s|] eqn:Hph; try discriminate.
    + intros [= <-]. now apply Deduplicated_lookupOrStart.
    + destruct (starts r !! p) as [[k status]|] eqn:Hp; [|discriminate].
      intros Hafter. eapply Deduplicated_afterOwnStart; eassumption.
    + destruct (starts r !! p) as [[k status]|] eqn:Hp; [|discriminate].
      intros Hafter. eapply Deduplicated_afterOtherStart; eassumption.
  - now apply Deduplicated_handshakeDone.
Qed.

Lemma Deduplicated_run events :
  forall r r', forallb calm events = true -> Deduplicated r ->
    run normalize getWorkspaceRootForFile r events = Some r' -> Deduplicated r'.
Proof.
  induction events as [|e events IH]; intros r r' Hcalm Hr; cbn.
  - now intros [= <-].
  - cbn in Hcalm. apply andb_true_iff in Hcalm as [He Hes].
    destruct (step normalize getWorkspaceRootForFile r e) as [r1|] eqn:Hstep;
      [|discriminate].
    apply IH; [exact Hes|]. eapply Deduplicated_step; eassumption.
Qed.

End SupervisorFacts.

Section SupervisorClaims.
Import Types Supervisor Scenario.

Lemma count_le_one normalize root r k :
  Deduplicated normalize root r -> (count k (spawned r) <= 1)%nat.
Proof.
  intros Hr. rewrite (spawn_count _ _ r Hr).
  destruct (validKey k && registered r k); lia.
Qed.

(** C3: a call of [getServerForConfig], once the workspace root is known,
    returns the registered instance when there is one, otherwise waits for the
    start in flight when there is one, and only otherwise starts the server
    (spawn and handshake request) and records the start in [serversStarting]
    in the same uninterrupted step.  So, however the calls and the completion
    of handshakes are interleaved, as long as no handshake fails and no
    process exits, at most one process is spawned and one handshake begun for
    each key, and exactly one as soon as a call for that key has got past its
    lookup.  A failed start removes the mark of the start in flight, and the
    next call that finds neither instance nor mark starts the server again,
    as in the schedule [failThenRetry]. *)
Theorem acquire_spawns_once_per_key normalize root :
  (forall r i t,
      tasks r !! i = Some t -> phase t = ResolvingRoot ->
      let key := keyOf normalize root (filePath t) (serverConfig t) in
      exists r',
        step normalize root r (Resume i) = Some r'
        /\ match servers r !! key, serversStarting r !! key with
           | Some existing, _ =>
               option_map phase (tasks r' !! i) = Some (Returned existing)
               /\ spawned r' = spawned r /\ handshakes r' = handshakes r
               /\ servers r' = servers r
               /\ serversStarting r' = serversStarting r
           | None, Some starting =>
               option_map phase (tasks r' !! i) = Some (AwaitingOtherStart starting)
               /\ spawned r' = spawned r /\ handshakes r' = handshakes r
               /\ servers r' = servers r
               /\ serversStarting r' = serversStarting r
           | None, None =>
               option_map phase (tasks r' !! i)
               = Some (AwaitingOwnStart (length (starts r)))
               /\ serversStarting r' !! key = Some (length (starts r))
               /\ (if validCommand (command (serverConfig t))
                   then spawned r' = spawned r ++ [key]
                        /\ handshakes r' = handshakes r ++ [key]
                        /\ starts r' = starts r ++ [(key, Starting)]
                   else spawned r' = spawned r
                        /\ handshakes r' = handshakes r
                        /\ starts r' = starts r ++ [(key, Failed)])
           end)
  /\ (forall events r,
        forallb calm events = true ->
        run normalize root newRegistry events = Some r ->
        forall key,
          (count key (spawned r) <= 1)%nat
          /\ count key (handshakes r) = count key (spawned r)
          /\ (forall i t,
                tasks r !! i = Some t ->
                keyOf normalize root (filePath t) (serverConfig t) = key ->
                phase t <> ResolvingRoot ->
                validCommand (command (serverConfig t)) = true ->
                count key (spawned r) = 1%nat))
  /\ (forall r i t p key,
        tasks r !! i = Some t -> phase t = AwaitingOwnStart p ->
        starts r !! p = Some (key, Failed) ->
        exists r',
          step normalize root r (Resume i) = Some r'
          /\ serversStarting r'
             !! keyOf normalize root (filePath t) (serverConfig t) = None
          /\ servers r' = servers r
          /\ spawned r' = spawned r
          /\ option_map phase (tasks r' !! i) = Some Thrown)
  /\ (let key := (command tsserver, "/w"%string, extensions tsserver) in
      option_map spawned (run samePath workspace newRegistry failThenRetry)
      = Some [key; key]).
Proof.
  split; [|split; [|split; [|vm_compute; reflexivity]]].
  - intros r i t Hi Hph key. eexists. split.
    { cbn. unfold resume. rewrite Hi, Hph. reflexivity. }
    assert (Hlt : (i < length (tasks r))%nat) by now apply lookup_lt_Some in Hi.
    unfold lookupOrStart. fold key.
    destruct (servers r !! key) as [existing|].
    { cbn. unfold setPhase. rewrite list_lookup_insert_eq by exact Hlt.
      repeat split. }
    destruct (serversStarting r !! key) as [starting|].
    { cbn. unfold setPhase. rewrite list_lookup_insert_eq by exact Hlt.
      repeat split. }
    cbn. unfold setPhase. rewrite list_lookup_insert_eq by exact Hlt.
    rewrite lookup_insert_eq.
    split; [reflexivity|]. split; [reflexivity|].
    destruct (validCommand (command (serverConfig t))); repeat split.
  - intros events r Hcalm Hrun key.
    pose proof (Deduplicated_run normalize root events _ _ Hcalm
                  (Deduplicated_new normalize root) Hrun) as Hr.
    split; [now apply (count_le_one normalize root)|].
    split; [now rewrite (handshake_spawn _ _ r Hr)|].
    intros i t Hi <- Hnr Hv.
    exact (left_root _ _ r Hr i t Hi Hnr Hv).
  - intros r i t p key Hi Hph Hst. eexists. split.
    { cbn. unfold resume. rewrite Hi, Hph, Hst. reflexivity. }
    cbn. unfold setPhase.
    rewrite lookup_delete_eq, list_lookup_insert_eq
      by now apply lookup_lt_Some in Hi.
    repeat split.
Qed.

Lemma acquire_spawns_once_per_key_witness :
  let key := (command tsserver, "/w"%string, extensions tsserver) in
  exists r,
    run samePath workspace newRegistry threeCalls = Some r
    /\ count key (spawned r) = 1%nat
    /\ count key (handshakes r) = 1%nat.
Proof.
  cbv zeta.
  destruct (run samePath workspace newRegistry threeCalls)
    as [r|] eqn:Hrun; [|vm_compute in Hrun; discriminate Hrun].
  exists r. split; [reflexivity|].
  destruct (acquire_spawns_once_per_key samePath workspace) as (_ & Hdedup & _ & _).
  destruct (Hdedup threeCalls r eq_refl Hrun
              (command tsserver, "/w"%string, extensions tsserver))
    as (_ & Hhs & Hone).
  assert (Hspawn : count (command tsserver, "/w"%string, extensions tsserver)
                     (spawned r) = 1%nat).
  { apply (Hone 0%nat {| filePath := "/w/a.ts"; serverConfig := tsserver;
                         phase := Returned 0 |}).
    - apply (f_equal (fun o => match o with
                               | Some r => tasks r !! 0%nat
                               | None => None
                               end)) in Hrun.
      vm_compute in Hrun. symmetry. exact Hrun.
    - reflexivity.
    - discriminate.
    - reflexivity. }
  split; [exact Hspawn|]. now rewrite Hhs.
Defined.

End SupervisorClaims.

(** ** More on the edit applier *)

Section EditSemanticsFacts.
Import Types FileEdits EditSemantics.

Lemma slice_take_drop {A} (s : list A) a b :
  0 <= a -> a <= b -> b <= jslength s ->
  slice s a b = take (Z.to_nat b - Z.to_nat a) (drop (Z.to_nat a) s).
Proof.
  intros Ha Hab Hb. unfold slice, rel_index.
  destruct (Z.ltb_spec a 0), (Z.ltb_spec b 0); try lia.
  rewrite !Z.min_l by lia. f_equal. lia.
Qed.

Lemma slice_from_drop {A} (s : list A) a :
  0 <= a -> a <= jslength s -> slice_from s a = drop (Z.to_nat a) s.
Proof.
  intros Ha Hb. unfold slice_from. rewrite slice_take_drop by lia.
  apply take_ge. rewrite length_drop. unfold jslength. lia.
Qed.

Lemma slice_0_take {A} (s : list A) b :
  0 <= b -> b <= jslength s -> slice s 0 b = take (Z.to_nat b) s.
Proof.
  intros Hb Hl. rewrite slice_take_drop by lia. cbn. f_equal. lia.
Qed.

Lemma jslength_take {A} (s : list A) b :
  0 <= b -> b <= jslength s -> jslength (take (Z.to_nat b) s) = b.
Proof. unfold jslength. intros. rewrite length_take. lia. Qed.

(** The slices of a prefix that is long enough are those of the text. *)
Lemma slice_of_take {A} (s : list A) a b k :
  0 <= a -> a <= b -> b <= k -> k <= jslength s ->
  slice (take (Z.to_nat k) s) a b = slice s a b.
Proof.
  intros Ha Hab Hbk Hk.
  rewrite !slice_take_drop by (rewrite ?jslength_take; lia).
  rewrite <- (take_drop (Z.to_nat k) s) at 2.
  rewrite drop_app_le by (rewrite length_take; unfold jslength in *; lia).
  rewrite take_app_le; [reflexivity|].
  rewrite length_drop, length_take. unfold jslength in *. lia.
Qed.

Lemma disjointFrom_le pos ascending len :
  disjointFrom pos ascending len -> pos <= len.
Proof.
  revert pos. induction ascending as [|e rest IH]; intros pos; cbn; [tauto|].
  intros (H1 & H2 & H3). apply IH in H3. lia.
Qed.

Lemma disjointFrom_snoc pos ascending e len :
  disjointFrom pos (ascending ++ [e]) len <->
  disjointFrom pos ascending (n_start e) /\ n_start e <= n_end e /\ n_end e <= len.
Proof.
  revert pos. induction ascending as [|a rest IH]; intros pos; cbn.
  - tauto.
  - rewrite IH. tauto.
Qed.

Lemma rebuild_snoc ascending e content :
  forall pos,
    0 <= pos -> disjointFrom pos ascending (n_start e) ->
    n_start e <= n_end e -> n_end e <= jslength content ->
    rebuild pos (ascending ++ [e]) content
    = rebuild pos ascending (take (Z.to_nat (n_start e)) content)
      ++ n_newText e ++ slice_from content (n_end e).
Proof.
  induction ascending as [|a rest IH]; intros pos Hpos Hd Hse Hlen; cbn in *.
  - f_equal. unfold slice_from at 1. rewrite jslength_take by lia.
    now rewrite slice_of_take by lia.
  - destruct Hd as (H1 & H2 & H3).
    pose proof (disjointFrom_le _ _ _ H3) as Hle.
    rewrite IH by (try assumption; lia).
    rewrite slice_of_take by lia.
    now rewrite <- !app_assoc.
Qed.

Lemma splice_app (p q : jsstring) e :
  0 <= n_start e -> n_start e <= n_end e -> n_end e <= jslength p ->
  splice (p ++ q) e
  = take (Z.to_nat (n_start e)) p ++ (n_newText e ++ drop (Z.to_nat (n_end e)) p ++ q).
Proof.
  intros Hs Hse He. unfold splice.
  assert (Hl : jslength (p ++ q) = jslength p + jslength q)
    by (unfold jslength; rewrite length_app; lia).
  assert (0 <= jslength q) by (unfold jslength; lia).
  rewrite slice_0_take, slice_from_drop by lia.
  rewrite take_app_le, drop_app_le by (unfold jslength in *; lia).
  reflexivity.
Qed.

Lemma applyLoop_rebuild ascending :
  forall pos (p q : jsstring),
    0 <= pos -> disjointFrom pos ascending (jslength p) ->
    applyLoop (p ++ q) (rev ascending)
    = inr (take (Z.to_nat pos) p ++ rebuild pos ascending p ++ q).
Proof.
  induction ascending as [|e ascending IH] using rev_ind; intros pos p q Hpos Hd.
  - cbn in *. rewrite slice_from_drop by lia.
    now rewrite app_assoc, take_drop.
  - apply disjointFrom_snoc in Hd as (Hd & Hse & Hlen).
    pose proof (disjointFrom_le _ _ _ Hd) as Hps.
    rewrite rev_unit. cbn [applyLoop].
    destruct (Z.ltb_spec (n_end e) (n_start e)) as [Hlt|_]; [lia|].
    rewrite splice_app by lia.
    rewrite IH with (pos := pos);
      [|exact Hpos|rewrite jslength_take by lia; exact Hd].
    rewrite rebuild_snoc by (try assumption; lia).
    rewrite slice_from_drop by lia.
    rewrite take_take, Nat.min_l by lia.
    now rewrite <- !app_assoc.
Qed.



(** *** The order in which the edits are given *)

Lemma sorted_permutation_unique {A} (R : A -> A -> Prop) (l : list A) :
  forall l',
    StronglySorted R l -> StronglySorted R l' -> Permutation l l' ->
    (forall a b, In a l -> In b l -> R a b -> R b a -> a = b) ->
    l = l'.
Proof.
  induction l as [|a l IH]; intros l' Hs Hs' Hperm Hanti.
  - now apply Permutation_nil in Hperm.
  - destruct l' as [|b l'].
    { apply Permutation_sym, Permutation_nil in Hperm. discriminate. }
    inversion Hs as [|? ? Hsl Ha]; subst.
    inversion Hs' as [|? ? Hsl' Hb]; subst.
    rewrite List.Forall_forall in Ha, Hb.
    assert (Hab : a = b).
    { assert (Hina : In a (b :: l')) by (eapply Permutation_in; [exact Hperm|now left]).
      assert (Hinb : In b (a :: l))
        by (eapply Permutation_in; [apply Permutation_sym; exact Hperm|now left]).
      destruct Hina as [->|Hina]; [reflexivity|].
      destruct Hinb as [->|Hinb]; [reflexivity|].
      apply Hanti; [now left|now right|now apply Ha|now apply Hb]. }
    subst b. f_equal. apply IH; try assumption.
    + now apply Permutation_cons_inv in Hperm.
    + intros x y Hx Hy. apply Hanti; now right.
Qed.

Lemma NoDup_map_injective {A B} (f : A -> B) (l : list A) a b :
  List.NoDup (map f l) -> In a l -> In b l -> f a = f b -> a = b.
Proof.
  induction l as [|x l IH]; cbn; [tauto|].
  intros Hnd Ha Hb Hf. apply List.NoDup_cons_iff in Hnd as [Hx Hnd].
  destruct Ha as [->|Ha], Hb as [->|Hb]; try reflexivity.
  - exfalso. apply Hx. rewrite Hf. now apply in_map.
  - exfalso. apply Hx. rewrite <- Hf. now apply in_map.
  - now apply IH.
Qed.

Lemma compareEdits_antisym a b :
  compareEdits a b <= 0 -> compareEdits b a <= 0 ->
  (n_start a, n_end a) = (n_start b, n_end b).
Proof.
  unfold compareEdits. cbv zeta.
  destruct (Z.eqb_spec (n_start b - n_start a) 0), (Z.eqb_spec (n_start a - n_start b) 0);
    intros; f_equal; lia.
Qed.

(** X2: when no two edits have the same pair of start and end offsets, the
    result of applying the edits does not depend on the order in which they
    are listed. *)
Theorem applyTextEditsToContent_order_irrelevant content edits edits' :
  Permutation edits edits' ->
  List.NoDup
    (map (fun e => (n_start e, n_end e))
       (map (normalize (computeLineOffsets content) content) edits)) ->
  applyTextEditsToContent content edits = applyTextEditsToContent content edits'.
Proof.
  intros Hperm Hnd. rewrite !applyTextEditsToContent_loop. f_equal.
  apply (sorted_permutation_unique (fun a b => compareEdits a b <= 0)).
  - apply sortBy_sorted; [apply compareEdits_total|apply compareEdits_trans].
  - apply sortBy_sorted; [apply compareEdits_total|apply compareEdits_trans].
  - rewrite <- !normalizedEdits_perm. now apply Permutation_map.
  - intros a b Ha Hb Hab Hba.
    assert (Hnd' : List.NoDup (map (fun e => (n_start e, n_end e))
                                 (normalizedEdits content edits))).
    { eapply Permutation_NoDup; [|exact Hnd].
      apply Permutation_map, normalizedEdits_perm. }
    eapply NoDup_map_injective; try eassumption.
    now apply compareEdits_antisym.
Qed.

Lemma applyTextEditsToContent_order_irrelevant_witness :
  let content := lit "World" ++ [10%N] ++ lit "foo" ++ [10%N] in
  applyTextEditsToContent content [mkEdit 0 0 0 5 "Hello"; mkEdit 1 0 1 3 "X"]
  = applyTextEditsToContent content [mkEdit 1 0 1 3 "X"; mkEdit 0 0 0 5 "Hello"].
Proof.
  cbv zeta. apply applyTextEditsToContent_order_irrelevant.
  - apply perm_swap.
  - vm_compute. repeat constructor; simpl; intuition discriminate.
Defined.

(** *** Ranges that cannot fail *)

Lemma lineOffsetsFrom_sorted i text : StronglySorted Z.lt (lineOffsetsFrom i text).
Proof.
  revert i. induction text as [|c rest IH]; intros i; cbn; [constructor|].
  destruct (c =? 10)%N; [|apply IH].
  constructor; [apply IH|].
  apply List.Forall_forall. intros o Ho. apply lineOffsetsFrom_bounds in Ho. lia.
Qed.

Lemma computeLineOffsets_sorted text : StronglySorted Z.lt (computeLineOffsets text).
Proof.
  unfold computeLineOffsets. constructor; [apply lineOffsetsFrom_sorted|].
  apply List.Forall_forall. intros o Ho. apply lineOffsetsFrom_bounds in Ho. lia.
Qed.

Lemma sorted_nth_le (l : list Z) d :
  StronglySorted Z.lt l ->
  forall i j, (i <= j)%nat -> (j < length l)%nat -> nth i l d <= nth j l d.
Proof.
  induction 1 as [|x l Hs IH Hx]; intros i j Hij Hj; cbn in *; [lia|].
  destruct i as [|i], j as [|j]; try lia.
  - rewrite List.Forall_forall in Hx.
    assert (x < nth j l d); [|lia]. apply Hx, nth_In. lia.
  - apply IH; lia.
Qed.

Lemma offsetAt_ordered content start end_ :
  onLine (computeLineOffsets content) (jslength content) start ->
  notBefore start end_ ->
  offsetAt (computeLineOffsets content) start content
  <= offsetAt (computeLineOffsets content) end_ content.
Proof.
  set (lo := computeLineOffsets content). set (len := jslength content).
  intros (Hline & Hchar & Hfit) Hnb.
  assert (Hlen : 0 <= len) by (unfold len, jslength; lia).
  assert (Hnext : nth (Z.to_nat (line start) + 1) lo (len + 1) <= len + 1).
  { destruct (Nat.lt_ge_cases (Z.to_nat (line start) + 1) (length lo)) as [Hin|Hout].
    - assert (Hi : In (nth (Z.to_nat (line start) + 1) lo (len + 1)) lo)
        by now apply nth_In.
      apply computeLineOffsets_bounds in Hi. fold len in Hi. lia.
    - rewrite nth_overflow by lia. lia. }
  assert (Hsl : nth (Z.to_nat (line start)) lo 0 + character start <= len) by lia.
  assert (Hstart : offsetAt lo start content
                   = nth (Z.to_nat (line start)) lo 0 + character start).
  { unfold offsetAt. fold len.
    destruct (Z.leb_spec (jslength lo) (Z.max 0 (line start))); [lia|].
    rewrite !Z.max_r by lia. lia. }
  rewrite Hstart. unfold offsetAt at 1. fold len.
  destruct (Z.leb_spec (jslength lo) (Z.max 0 (line end_))) as [Hbig|Hsmall];
    [lia|].
  destruct Hnb as [Hlt|[Heq Hc]].
  - assert (Hj : (Z.to_nat (line start) + 1 <= Z.to_nat (Z.max 0 (line end_)))%nat)
      by lia.
    assert (Hk : (Z.to_nat (Z.max 0 (line end_)) < length lo)%nat)
      by (unfold jslength in Hsmall; lia).
    pose proof (sorted_nth_le lo 0 (computeLineOffsets_sorted content) _ _ Hj Hk) as Hmono.
    rewrite (nth_indep lo (len + 1) 0) in Hfit by lia.
    lia.
  - rewrite <- Heq. rewrite (Z.max_r 0 (line start)) by lia. lia.
Qed.

(** X3: an edit whose start position lies on a line of the content (not
    after the end of that line) and whose end position is not before its
    start is never rejected: when all the edits are so, the applier returns a
    text. *)
Theorem applyTextEditsToContent_ordered_ranges_succeed content edits :
  Forall (fun edit =>
            onLine (computeLineOffsets content) (jslength content)
              (start (range edit))
            /\ notBefore (start (range edit)) (end_ (range edit))) edits ->
  exists out, applyTextEditsToContent content edits = inr out.
Proof.
  intros Hall. rewrite applyTextEditsToContent_loop.
  pose proof (applyLoop_outcome content (normalizedEdits content edits)) as H.
  destruct (applyLoop content (normalizedEdits content edits)) as [[s e]|out];
    [|now exists out].
  exfalso. destruct H as [_ Hex].
  eapply Permutation_Exists in Hex; [|apply Permutation_sym, normalizedEdits_perm].
  apply List.Exists_exists in Hex as (n & Hin & Hlt).
  apply in_map_iff in Hin as (edit & <- & Hin).
  rewrite List.Forall_forall in Hall. destruct (Hall edit Hin) as [Hon Hnb].
  pose proof (offsetAt_ordered content _ _ Hon Hnb) as Hle.
  cbn in Hlt. lia.
Qed.

Lemma applyTextEditsToContent_ordered_ranges_succeed_witness :
  exists out,
    applyTextEditsToContent (lit "World" ++ [10%N] ++ lit "foo" ++ [10%N])
      [mkEdit 0 3 1 1 "-"; mkEdit 1 1 7 0 ""] = inr out.
Proof.
  apply applyTextEditsToContent_ordered_ranges_succeed.
  repeat constructor; vm_compute; try discriminate; try reflexivity;
    intuition discriminate.
Defined.

End EditSemanticsFacts.

(** ** Writing a workspace edit to disk *)

Section DiskFacts.
Import Types FileEdits Disk.
Variable pathOf : string -> string.
Variable tmpPathOf : nat -> string -> string.
Variable createBackups : bool.
Variable backupSuffix : string.

#[local] Abbreviation applyEntry :=
  (applyEntry pathOf tmpPathOf createBackups backupSuffix).
#[local] Abbreviation applyEntries :=
  (applyEntries pathOf tmpPathOf createBackups backupSuffix).
#[local] Abbreviation writes := (writes pathOf tmpPathOf createBackups backupSuffix).

Lemma writes_head n uri edits rest p :
  ~ writes n ((uri, edits) :: rest) p ->
  p <> pathOf uri
  /\ (createBackups = true -> p <> (pathOf uri ++ backupSuffix)%string)
  /\ p <> tmpPathOf n (pathOf uri)
  /\ ~ writes (S n) rest p.
Proof.
  intros H. repeat split.
  - intros E. apply H. exists 0%nat, uri, edits. split; [reflexivity|now left].
  - intros Hb E. apply H. exists 0%nat, uri, edits.
    split; [reflexivity|right; left; now split].
  - intros E. apply H. exists 0%nat, uri, edits. split; [reflexivity|].
    right; right. now rewrite Nat.add_0_r.
  - intros (j & u & e & Hj & Hp). apply H. exists (S j), u, e.
    split; [exact Hj|]. now rewrite Nat.add_succ_r.
Qed.

(** What one round leaves of a path that it does not write. *)
Lemma applyEntry_frame n uri edits disk fm bf p :
  p <> pathOf uri ->
  (createBackups = true -> p <> (pathOf uri ++ backupSuffix)%string) ->
  p <> tmpPathOf n (pathOf uri) ->
  match applyEntry n uri edits disk fm bf with
  | inl (_, disk', _, _) | inr (disk', _, _) => disk' !! p = disk !! p
  end.
Proof.
  intros Hp Hb Ht. unfold Disk.applyEntry.
  destruct (disk !! pathOf uri) as [current|]; [|reflexivity].
  assert (Hd1 : (if createBackups
                 then <[(pathOf uri ++ backupSuffix)%string := current]> disk
                 else disk) !! p = disk !! p).
  { destruct createBackups; [|reflexivity].
    rewrite lookup_insert_ne; [reflexivity|]. intros E. now apply Hb. }
  destruct (applyTextEditsToContent _ edits) as [e|updated]; [exact Hd1|].
  rewrite lookup_insert_ne by congruence.
  rewrite lookup_delete_ne by congruence.
  rewrite lookup_insert_ne by congruence. exact Hd1.
Qed.

Lemma applyEntries_frame entries :
  forall n disk fm bf p,
    ~ writes n entries p ->
    (applyEntries n entries disk fm bf).2 !! p = disk !! p.
Proof.
  induction entries as [|[uri edits] rest IH]; intros n disk fm bf p Hw;
    [reflexivity|].
  apply writes_head in Hw as (Hp & Hb & Ht & Hrest).
  pose proof (applyEntry_frame n uri edits disk fm bf p Hp Hb Ht) as Hstep.
  cbn [Disk.applyEntries].
  destruct (applyEntry n uri edits disk fm bf) as [[[[t d] m] b]|[[d m] b]].
  - exact Hstep.
  - rewrite IH by exact Hrest. exact Hstep.
Qed.

(** The outcome of the loop, from any round on. *)
Lemma applyEntries_outcome entries :
  forall n disk fm bf,
    let res := (applyEntries n entries disk fm bf).1 in
    exists done rest,
      entries = done ++ rest
      /\ filesModified res = fm ++ map (fun e => pathOf e.1) done
      /\ (exists extra,
             backupFiles res
             = bf ++ (if createBackups
                      then map (fun e => (pathOf e.1 ++ backupSuffix)%string) done
                      else []) ++ extra
             /\ match rest with
                | [] => extra = []
                | e :: _ =>
                    extra = []
                    \/ (createBackups = true
                        /\ extra = [(pathOf e.1 ++ backupSuffix)%string])
                end)
      /\ match rest with
         | [] => success res = true /\ error res = None
         | _ :: _ => success res = false /\ is_Some (error res)
         end.
Proof.
  induction entries as [|[uri edits] rest IH]; intros n disk fm bf; cbv zeta.
  - exists [], []. cbn. rewrite !app_nil_r. repeat split.
    exists []. split; [|reflexivity].
    rewrite app_nil_r. destruct createBackups; now rewrite ?app_nil_r.
  - cbn [Disk.applyEntries]. unfold Disk.applyEntry.
    destruct (disk !! pathOf uri) as [current|].
    2:{ exists [], ((uri, edits) :: rest). cbn. rewrite !app_nil_r.
        repeat split; eauto.
        exists []. split; [|now left].
        destruct createBackups; now rewrite ?app_nil_r. }
    destruct (applyTextEditsToContent _ edits) as [e|updated].
    { exists [], ((uri, edits) :: rest). cbn. rewrite !app_nil_r.
      repeat split; eauto.
      destruct createBackups.
      - eexists. split; [reflexivity|]. right. now split.
      - exists []. split; [now rewrite app_nil_r|now left]. }
    match goal with
    | |- context [Disk.applyEntries _ _ _ _ (S n) rest ?d ?m ?b] =>
        destruct (IH (S n) d m b) as (done & rest' & Hsplit & Hfm & Hbk & Hres)
    end.
    exists ((uri, edits) :: done), rest'. cbv zeta in *.
    split; [now rewrite Hsplit|].
    split; [rewrite Hfm; cbn; now rewrite <- app_assoc|].
    split; [|exact Hres].
    destruct Hbk as (extra & Hbk & Hextra). exists extra. split; [|exact Hextra].
    rewrite Hbk. destruct createBackups; cbn; now rewrite <- ?app_assoc.
Qed.

Lemma string_app_cons (c : ascii) (a b : string) :
  (String c a ++ b)%string = String c (a ++ b).
Proof. reflexivity. Qed.

Lemma string_length_app (a b : string) :
  String.length (a ++ b) = (String.length a + String.length b)%nat.
Proof.
  induction a as [|c a IH]; [reflexivity|].
  rewrite string_app_cons. cbn [String.length]. now rewrite IH.
Qed.

Lemma string_app_inj_r (s a b : string) :
  (a ++ s = b ++ s)%string -> a = b.
Proof.
  revert b. induction a as [|c a IH]; intros [|d b] E.
  - reflexivity.
  - apply (f_equal String.length) in E.
    rewrite string_app_cons in E. cbn [String.length] in E.
    rewrite !string_length_app in E. cbn [String.length] in E. lia.
  - apply (f_equal String.length) in E.
    rewrite string_app_cons in E. cbn [String.length] in E.
    rewrite !string_length_app in E. cbn [String.length] in E. lia.
  - rewrite !string_app_cons in E. injection E as -> E. f_equal. now apply IH.
Qed.

(** The first round either fails, and nothing more is reported, or hands
    the rewritten disk to the next round. *)
Lemma applyEntries_head n uri edits rest disk fm bf :
  filesModified (applyEntries n ((uri, edits) :: rest) disk fm bf).1 = fm
  \/ exists current updated,
    disk !! pathOf uri = Some current
    /\ applyTextEditsToContent
         (default []
            ((if createBackups
              then <[(pathOf uri ++ backupSuffix)%string := current]> disk
              else disk) !! pathOf uri)) edits = inr updated
    /\ applyEntries n ((uri, edits) :: rest) disk fm bf
       = applyEntries (S n) rest
           (<[pathOf uri := updated]>
              (delete (tmpPathOf n (pathOf uri))
                 (<[tmpPathOf n (pathOf uri) := updated]>
                    (if createBackups
                     then <[(pathOf uri ++ backupSuffix)%string := current]> disk
                     else disk))))
           (fm ++ [pathOf uri])
           (if createBackups then bf ++ [(pathOf uri ++ backupSuffix)%string] else bf).
Proof.
  cbn [Disk.applyEntries]. unfold Disk.applyEntry.
  destruct (disk !! pathOf uri) as [current|]; [|now left].
  destruct (applyTextEditsToContent _ edits) as [e|updated] eqn:Happ;
    [now left|].
  right. exists current, updated.
  split; [reflexivity|]. split; [exact Happ|reflexivity].
Qed.

(** The file of a round that is reported holds the edited text at the end,
    when no other round writes it. *)
Lemma applyEntries_file entries :
  forall n disk fm bf k uri edits original,
    entries !! k = Some (uri, edits) ->
    disk !! pathOf uri = Some original ->
    (forall j u e,
        entries !! j = Some (u, e) ->
        (j <> k -> pathOf u <> pathOf uri)
        /\ (createBackups = true ->
            (pathOf u ++ backupSuffix)%string <> pathOf uri)
        /\ tmpPathOf (n + j) (pathOf u) <> pathOf uri) ->
    (k < length (filesModified (applyEntries n entries disk fm bf).1)
         - length fm)%nat ->
    exists updated,
      applyTextEditsToContent original edits = inr updated
      /\ (applyEntries n entries disk fm bf).2 !! pathOf uri = Some updated.
Proof.
  induction entries as [|[u0 e0] rest IH];
    intros n disk fm bf k uri edits original Hk Hdisk Hsep Hok; [discriminate|].
  destruct (applyEntries_head n u0 e0 rest disk fm bf)
    as [Hfail|(current & updated & Hcur & Happ & Hrun)].
  { rewrite Hfail in Hok. lia. }
  rewrite Hrun in Hok |- *.
  destruct (Hsep 0%nat u0 e0 eq_refl) as (Hp0 & Hb0 & Ht0).
  rewrite Nat.add_0_r in Ht0.
  destruct k as [|k].
  - cbn in Hk. injection Hk as -> ->. clear Hp0.
    rewrite Hdisk in Hcur. injection Hcur as <-.
    assert (Horig : (if createBackups
                     then <[(pathOf uri ++ backupSuffix)%string := original]> disk
                     else disk) !! pathOf uri = Some original).
    { destruct createBackups; [|exact Hdisk].
      rewrite lookup_insert_ne; [exact Hdisk|]. now apply Hb0. }
    rewrite Horig in Happ. cbn in Happ.
    exists updated. split; [exact Happ|].
    rewrite applyEntries_frame; [apply lookup_insert_eq|].
    intros (j & u & e & Hj & Hw).
    destruct (Hsep (S j) u e Hj) as (Hp & Hb & Ht).
    rewrite Nat.add_succ_r in Ht.
    destruct Hw as [E|[[Hcb E]|E]].
    + apply Hp; [lia|]. now symmetry.
    + apply Hb; [exact Hcb|]. now symmetry.
    + apply Ht. now symmetry.
  - cbn in Hk.
    eapply (IH (S n) _ _ _ k uri edits original Hk).
    + rewrite lookup_insert_ne by (apply Hp0; lia).
      rewrite lookup_delete_ne by exact Ht0.
      rewrite lookup_insert_ne by exact Ht0.
      destruct createBackups; [|exact Hdisk].
      rewrite lookup_insert_ne; [exact Hdisk|]. now apply Hb0.
    + intros j u e Hj. destruct (Hsep (S j) u e Hj) as (Hp & Hb & Ht).
      rewrite Nat.add_succ_r in Ht. repeat split; try assumption.
      intros Hne. apply Hp. lia.
    + rewrite length_app. cbn [length]. lia.
Qed.

(** The backup of a round that is reported holds at the end what the file
    held at the start, when no earlier round writes the file and no other
    round writes the backup. *)
Lemma applyEntries_backup entries :
  createBackups = true ->
  forall n disk fm bf k uri edits original,
    entries !! k = Some (uri, edits) ->
    disk !! pathOf uri = Some original ->
    (forall j u e,
        entries !! j = Some (u, e) ->
        ((j < k)%nat ->
         pathOf u <> pathOf uri
         /\ (pathOf u ++ backupSuffix)%string <> pathOf uri
         /\ tmpPathOf (n + j) (pathOf u) <> pathOf uri)
        /\ pathOf u <> (pathOf uri ++ backupSuffix)%string
        /\ (j <> k ->
            (pathOf u ++ backupSuffix)%string <> (pathOf uri ++ backupSuffix)%string)
        /\ tmpPathOf (n + j) (pathOf u) <> (pathOf uri ++ backupSuffix)%string) ->
    (k < length (filesModified (applyEntries n entries disk fm bf).1)
         - length fm)%nat ->
    (applyEntries n entries disk fm bf).2 !! (pathOf uri ++ backupSuffix)%string
    = Some original.
Proof.
  intros Hcb.
  induction entries as [|[u0 e0] rest IH];
    intros n disk fm bf k uri edits original Hk Hdisk Hsep Hok; [discriminate|].
  destruct (applyEntries_head n u0 e0 rest disk fm bf)
    as [Hfail|(current & updated & Hcur & Happ & Hrun)].
  { rewrite Hfail in Hok. lia. }
  rewrite Hrun in Hok |- *.
  assert (Eif : forall (A : Type) (a b : A),
             (if createBackups then a else b) = a)
    by (intros; now rewrite Hcb).
  rewrite !Eif in *.
  destruct (Hsep 0%nat u0 e0 eq_refl) as (Hbefore & Hpb & Hbb & Htb).
  rewrite Nat.add_0_r in Htb, Hbefore.
  destruct k as [|k].
  - cbn in Hk. injection Hk as -> ->.
    rewrite Hdisk in Hcur. injection Hcur as <-.
    rewrite applyEntries_frame.
    + rewrite lookup_insert_ne by exact Hpb.
      rewrite lookup_delete_ne by exact Htb.
      rewrite lookup_insert_ne by exact Htb.
      apply lookup_insert_eq.
    + intros (j & u & e & Hj & Hw).
      destruct (Hsep (S j) u e Hj) as (_ & Hp & Hb & Ht).
      rewrite Nat.add_succ_r in Ht.
      destruct Hw as [E|[[_ E]|E]].
      * apply Hp. now symmetry.
      * apply Hb; [lia|]. now symmetry.
      * apply Ht. now symmetry.
  - cbn in Hk. destruct Hbefore as (Hp0 & Hb0 & Ht0); [lia|].
    eapply (IH (S n) _ _ _ k uri edits original Hk).
    + rewrite lookup_insert_ne by exact Hp0.
      rewrite lookup_delete_ne by exact Ht0.
      rewrite lookup_insert_ne by exact Ht0.
      rewrite lookup_insert_ne by exact Hb0. exact Hdisk.
    + intros j u e Hj. destruct (Hsep (S j) u e Hj) as (Hbf & Hp & Hb & Ht).
      rewrite Nat.add_succ_r in Ht, Hbf. repeat split; try assumption.
      * apply Hbf. lia.
      * apply Hbf. lia.
      * apply Hbf. lia.
      * intros Hne. apply Hb. lia.
    + rewrite length_app. cbn [length]. lia.
Qed.


(** X5: [applyWorkspaceEditToDisk] leaves every path alone that is not the
    file of an entry, the backup of one (when backups are made) or the
    temporary file of a round: such a path holds at the end what it held
    at the start, whether the call succeeds or fails. *)
Theorem applyWorkspaceEditToDisk_touches_only_its_paths changes disk p :
  ~ writes 0 (default [] changes) p ->
  (applyWorkspaceEditToDisk pathOf tmpPathOf createBackups backupSuffix
     changes disk).2 !! p = disk !! p.
Proof.
  intros Hw. destruct changes as [[|entry entries]|]; [reflexivity| |reflexivity].
  cbn [Disk.applyWorkspaceEditToDisk]. now apply applyEntries_frame.
Qed.

(** X6: there is no rollback, and what is reported is on the disk.  When
    the names of the rounds do not meet, the file of every entry that
    [applyWorkspaceEditToDisk] reports as modified holds at the end its
    text at the start with the entry's edits applied, and, when backups are
    made, its backup holds the text at the start; this is so also when a
    later entry failed. *)
Theorem applyWorkspaceEditToDisk_reported_files_are_rewritten
    entries disk k uri edits original :
  let out :=
    applyWorkspaceEditToDisk pathOf tmpPathOf createBackups backupSuffix
      (Some entries) disk in
  separate pathOf tmpPathOf backupSuffix entries ->
  entries !! k = Some (uri, edits) ->
  disk !! pathOf uri = Some original ->
  (k < length (filesModified out.1))%nat ->
  exists updated,
    applyTextEditsToContent original edits = inr updated
    /\ out.2 !! pathOf uri = Some updated
    /\ (createBackups = true ->
        out.2 !! (pathOf uri ++ backupSuffix)%string = Some original).
Proof.
  cbv zeta. intros Hsep Hk Hdisk Hlen.
  destruct entries as [|entry entries]; [discriminate|].
  cbn [Disk.applyWorkspaceEditToDisk] in *.
  destruct (applyEntries_file (entry :: entries) 0 disk [] [] k uri edits
              original Hk Hdisk) as (updated & Happ & Hfile).
  { intros j u e Hj. destruct (Hsep j k u e uri edits Hj Hk) as (Hp & Hb & Ht & _).
    repeat split; [exact Hp|intros _; exact Hb|exact Ht]. }
  { cbn [length]. lia. }
  exists updated. split; [exact Happ|]. split; [exact Hfile|].
  intros Hcb.
  apply (applyEntries_backup (entry :: entries) Hcb 0 disk [] [] k uri edits
           original Hk Hdisk); [|cbn [length]; lia].
  intros j u e Hj.
  destruct (Hsep j k u e uri edits Hj Hk) as (Hp & Hb & Ht & Htb).
  destruct (Hsep k j uri edits u e Hk Hj) as (_ & Hb' & _ & _).
  repeat split.
  - apply Hp. lia.
  - exact Hb.
  - exact Ht.
  - intros E. apply Hb'. now symmetry.
  - intros Hne E. apply (Hp Hne). now apply string_app_inj_r in E.
  - exact Htb.
Qed.

End DiskFacts.

Lemma applyWorkspaceEditToDisk_touches_only_its_paths_witness :
  (Disk.applyWorkspaceEditToDisk Scenario.samePath DiskScenario.tmpPathOf true
     ".bak" (Some DiskScenario.entries) DiskScenario.before).2 !! "/w/c.ts"%string
  = DiskScenario.before !! "/w/c.ts"%string.
Proof.
  apply applyWorkspaceEditToDisk_touches_only_its_paths.
  intros (j & u & e & Hj & Hw).
  destruct j as [|[|j]]; try discriminate Hj;
    injection Hj as <- <-; vm_compute in Hw;
    destruct Hw as [E|[[_ E]|E]]; discriminate E.
Defined.

Lemma applyWorkspaceEditToDisk_reported_files_are_rewritten_witness :
  let out :=
    Disk.applyWorkspaceEditToDisk Scenario.samePath DiskScenario.tmpPathOf true
      ".bak" (Some DiskScenario.entries) DiskScenario.before in
  exists updated,
    FileEdits.applyTextEditsToContent (lit "new Foo")
      [FileEdits.mkEdit 0 4 0 7 "Bar"] = inr updated
    /\ out.2 !! "/w/b.ts"%string = Some updated
    /\ (true = true -> out.2 !! "/w/b.ts.bak"%string = Some (lit "new Foo")).
Proof.
  cbv zeta.
  apply (applyWorkspaceEditToDisk_reported_files_are_rewritten
           Scenario.samePath DiskScenario.tmpPathOf true ".bak"
           DiskScenario.entries DiskScenario.before 1 "/w/b.ts"
           [FileEdits.mkEdit 0 4 0 7 "Bar"] (lit "new Foo")).
  - intros i j ui ei uj ej Hi Hj.
    destruct i as [|[|i]]; try discriminate Hi;
      destruct j as [|[|j]]; try discriminate Hj;
      injection Hi as <- <-; injection Hj as <- <-;
      vm_compute; repeat split; repeat intro; congruence.
  - reflexivity.
  - reflexivity.
  - vm_compute. lia.
Defined.

(** ** The frame decoder on arbitrary input *)

Section CodecExtras.
Import Codec.

(** X7: the decoder does not depend on how the output of a process is cut
    into [data] events: for any bytes whatever (frames, parts of frames,
    header blocks without a length), handling the chunks one after the other
    hands over the same bodies, and leaves the same buffer, as a single call
    of [drainServerBuffer] on all the bytes at once. *)
Theorem feed_decodes_like_one_read (chunks : list buffer) :
  feed [] chunks = drainServerBuffer (concat chunks).
Proof. rewrite feed_concat by reflexivity. now rewrite app_nil_l. Qed.

Lemma drainServerBuffer_consumed n :
  forall buf bodies rest,
    (length buf < n)%nat ->
    drainServerBuffer buf = (bodies, rest) ->
    exists consumed,
      buf = consumed ++ rest
      /\ (length (concat bodies) + 4 * length bodies <= length consumed)%nat.
Proof.
  induction n as [|n IH]; intros buf bodies rest Hn; [lia|].
  rewrite drainServerBuffer_eq.
  destruct (indexOf separator buf) as [i|] eqn:Hi.
  2:{ intros [= <- <-]. exists []. split; [reflexivity|cbn; lia]. }
  pose proof (indexOf_bound _ _ _ Hi) as Hb. cbn [length separator] in Hb.
  destruct (execContentLength (toStringAscii (take i buf))) as [digits|].
  - cbv zeta.
    destruct (Nat.ltb_spec (length buf) (i + 4 + N.to_nat (parseInt digits)))
      as [Hshort|Hlong].
    { intros [= <- <-]. exists []. split; [reflexivity|cbn; lia]. }
    destruct (drainServerBuffer (drop (i + 4 + N.to_nat (parseInt digits)) buf))
      as [bodies' rest'] eqn:Hrec.
    intros [= <- <-].
    assert (Hlt : (length (drop (i + 4 + N.to_nat (parseInt digits)) buf) < n)%nat)
      by (rewrite length_drop; lia).
    destruct (IH _ _ _ Hlt Hrec) as (consumed & Hsplit & Hlen).
    exists (take (i + 4 + N.to_nat (parseInt digits)) buf ++ consumed). split.
    + rewrite <- app_assoc, <- Hsplit. now rewrite take_drop.
    + rewrite length_app, length_take. cbn [concat length].
      rewrite length_app, length_take, length_drop. lia.
  - intros Hrec.
    assert (Hlt : (length (drop (i + 4) buf) < n)%nat)
      by (rewrite length_drop; lia).
    destruct (IH _ _ _ Hlt Hrec) as (consumed & Hsplit & Hlen).
    exists (take (i + 4) buf ++ consumed). split.
    + rewrite <- app_assoc, <- Hsplit. now rewrite take_drop.
    + rewrite length_app, length_take. lia.
Qed.

(** X8: what [drainServerBuffer] leaves in [state.buffer] is the end of the
    buffer it was given, with nothing added or reordered; the bodies handed
    over were cut out of the part before it, each behind a separator of its
    own (so no byte is handed over twice); and the buffer left holds no
    complete frame: a second call hands over nothing and leaves it as it
    is. *)
Theorem drainServerBuffer_leaves_the_unread_end (buf : buffer) :
  let bodies := (drainServerBuffer buf).1 in
  let rest := (drainServerBuffer buf).2 in
  (exists consumed,
      buf = consumed ++ rest
      /\ (length (concat bodies) + 4 * length bodies <= length consumed)%nat)
  /\ drainServerBuffer rest = ([], rest).
Proof.
  cbv zeta. split.
  - apply (drainServerBuffer_consumed (S (length buf))); [lia|].
    now destruct (drainServerBuffer buf).
  - apply drainServerBuffer_rest.
Qed.

(** X9: a header block that names no content length is skipped together
    with its separator, and decoding goes on behind it: nothing of what
    follows is lost. *)
Theorem drainServerBuffer_skips_block_without_length (junk rest : buffer) :
  Forall (fun b => b <> CR) junk ->
  execContentLength (toStringAscii junk) = None ->
  drainServerBuffer (junk ++ separator ++ rest) = drainServerBuffer rest.
Proof.
  intros Hcr Hnone.
  rewrite drainServerBuffer_eq, (indexOf_separator_after junk rest Hcr).
  rewrite take_app_length, Hnone.
  replace (junk ++ separator ++ rest) with ((junk ++ separator) ++ rest)
    by (now rewrite <- app_assoc).
  rewrite drop_app_length'; [reflexivity|].
  rewrite length_app. cbn [length separator]. lia.
Qed.

Lemma drainServerBuffer_skips_block_without_length_witness :
  let junk := list_byte_of_string "Content-Type: application/json" in
  let frame := sendMessage (fun body : buffer => body) (list_byte_of_string "{}") in
  drainServerBuffer (junk ++ separator ++ frame) = drainServerBuffer frame
  /\ drainServerBuffer frame = ([list_byte_of_string "{}"], []).
Proof.
  cbv zeta. split; [|vm_compute; reflexivity].
  apply drainServerBuffer_skips_block_without_length.
  - vm_compute. repeat constructor; discriminate.
  - vm_compute. reflexivity.
Defined.

Lemma indexOf_startsWith p l :
  forall i, indexOf p l = Some i -> startsWith p (drop i l) = true.
Proof.
  induction l as [|x l IH]; intros i; rewrite indexOf_eq.
  - destruct (startsWith p []) eqn:E; [|discriminate]. now intros [= <-].
  - destruct (startsWith p (x :: l)) eqn:E; [now intros [= <-]|].
    destruct (indexOf p l) as [k|]; [|discriminate].
    cbn [option_map]. intros [= <-]. cbn [drop]. now apply IH.
Qed.

Lemma indexOf_separator_CR l i : indexOf separator l = Some i -> l !! i = Some CR.
Proof.
  intros Hi. apply indexOf_startsWith in Hi.
  rewrite <- (Nat.add_0_r i), <- lookup_drop.
  destruct (drop i l) as [|b l']; [discriminate Hi|].
  unfold separator in Hi. cbn [startsWith] in Hi.
  apply andb_true_iff in Hi as [Hb _]. apply Byte.byte_dec_bl in Hb.
  now subst b.
Qed.

(** No separator ends before the one that closes a header without CR. *)
Lemma indexOf_separator_prefix (h tail : buffer) k :
  Forall (fun b => b <> CR) h ->
  (k < length h + 4)%nat ->
  indexOf separator (take k (h ++ tail)) = None.
Proof.
  intros Hcr Hk.
  destruct (indexOf separator (take k (h ++ tail))) as [i|] eqn:Hi; [|reflexivity].
  pose proof (indexOf_bound _ _ _ Hi) as Hb. cbn [length separator] in Hb.
  apply indexOf_separator_CR in Hi.
  rewrite length_take in Hb.
  rewrite lookup_take_lt in Hi by lia.
  rewrite lookup_app_l in Hi by lia.
  exfalso. exact (Forall_lookup_1 _ _ _ _ Hcr Hi eq_refl).
Qed.

(** X10: [drainServerBuffer] hands a message over only when its last byte
    has arrived.  Of a frame written by [sendMessage], every proper beginning
    (cut in the header, in the separator or in the body) yields no body and
    stays in the buffer whole, so that the bytes that follow complete it. *)
Theorem drainServerBuffer_keeps_incomplete_frame {message : Type}
    (stringify : message -> buffer) (m : message) (k : nat) :
  (k < length (sendMessage stringify m))%nat ->
  drainServerBuffer (take k (sendMessage stringify m))
  = ([], take k (sendMessage stringify m)).
Proof.
  unfold sendMessage. cbv zeta. set (content := stringify m).
  unfold header.
  destruct (decimalDigits_spec (N.of_nat (length content))) as (Hne & Hall & Hval).
  set (ds := decimalDigits (N.of_nat (length content))) in *.
  set (h := list_byte_of_string "Content-Length: " ++ map digitByte ds).
  replace ((list_byte_of_string "Content-Length: " ++ map digitByte ds ++ separator)
           ++ content)
    with (h ++ separator ++ content)
    by (unfold h; now rewrite <- !app_assoc).
  intros Hk. rewrite !length_app in Hk. cbn [length separator] in Hk.
  pose proof (header_prefix_no_CR _ Hall) as Hcr. fold h in Hcr.
  destruct (Nat.lt_ge_cases k (length h + 4)) as [Hhead|Hbody].
  - rewrite drainServerBuffer_eq.
    now rewrite (indexOf_separator_prefix h _ k Hcr Hhead).
  - assert (Hcut : take k (h ++ separator ++ content)
                   = h ++ separator ++ take (k - (length h + 4)) content).
    { replace (h ++ separator ++ content) with ((h ++ separator) ++ content)
        by (now rewrite <- app_assoc).
      rewrite take_app_ge by (rewrite length_app; cbn [length separator]; lia).
      rewrite length_app. cbn [length separator].
      now rewrite <- app_assoc. }
    rewrite Hcut, drainServerBuffer_eq.
    rewrite (indexOf_separator_after h _ Hcr), take_app_length.
    unfold h at 1.
    rewrite (execContentLength_header _ Hne Hall), parseInt_digits, Hval, Nat2N.id.
    cbv zeta.
    destruct (Nat.ltb_spec
                (length (h ++ separator ++ take (k - (length h + 4)) content))
                (length h + 4 + length content)) as [_|Hlong]; [reflexivity|].
    rewrite !length_app, length_take in Hlong. cbn [length separator] in Hlong.
    lia.
Qed.

Lemma drainServerBuffer_keeps_incomplete_frame_witness :
  let frame := sendMessage (fun body : buffer => body) (list_byte_of_string "[1,2]") in
  drainServerBuffer (take 7 frame) = ([], take 7 frame)
  /\ drainServerBuffer (take 24 frame) = ([], take 24 frame).
Proof.
  cbv zeta. split;
    apply (drainServerBuffer_keeps_incomplete_frame (fun body : buffer => body));
    vm_compute; lia.
Defined.

End CodecExtras.

(** ** The calls of [sendRequest] and their ids *)

Section LedgerFacts.
Import Types Correlation Ledger.

Lemma Accounted_new : Accounted newClient.
Proof.
  split; cbn.
  - reflexivity.
  - intros h t H. rewrite lookup_empty in H. discriminate.
  - intros h Hh. lia.
Qed.

Lemma Accounted_same c c' :
  nextId c' = nextId c -> calls c' = calls c -> timers c' = timers c ->
  settlements c' = settlements c ->
  Accounted c -> Accounted c'.
Proof.
  intros E1 E2 E3 E4 [H1 H2 H3].
  split; rewrite ?E1, ?E2, ?E3, ?E4; assumption.
Qed.

Lemma Accounted_sendRequest process method params timeoutMs c :
  Accounted c -> Accounted (sendRequest process method params timeoutMs c).
Proof.
  intros [H1 H2 H3]. split; cbn.
  - lia.
  - intros h t Ht. destruct (decide (h = calls c)) as [->|Hne].
    + rewrite lookup_insert_eq in Ht. injection Ht as <-. cbn. lia.
    + rewrite lookup_insert_ne in Ht by congruence. now apply H2.
  - intros h Hh. destruct (decide (h = calls c)) as [->|Hne].
    + left. rewrite lookup_insert_eq. eauto.
    + rewrite lookup_insert_ne by congruence. apply H3. lia.
Qed.

Lemma Accounted_settle c i p o :
  Accounted c -> Accounted (settle p o (deletePending i c)).
Proof.
  intros [H1 H2 H3]. split; cbn.
  - exact H1.
  - intros h t Ht. apply lookup_delete_Some in Ht as [_ Ht]. now apply H2.
  - intros h Hh. rewrite map_app, in_app_iff. cbn.
    destruct (decide (h = call p)) as [->|Hne]; [right; right; now left|].
    destruct (H3 h Hh) as [Ht|Hin]; [left|right; now left].
    now rewrite lookup_delete_ne by congruence.
Qed.

Section Running.
Variable workspaceUri : ProcessId -> string.

Lemma Accounted_step c e c' :
  Accounted c -> step workspaceUri c e = Some c' -> Accounted c'.
Proof.
  intros Hc. destruct e as [process method params timeoutMs|process method params
                           |process message|h]; cbn.
  - intros [= <-]. now apply Accounted_sendRequest.
  - intros [= <-]. eapply Accounted_same; [..|exact Hc]; reflexivity.
  - intros [= <-].
    destruct (id message) as [i|] eqn:Hid.
    + destruct (pendingRequests c !! i) as [p|] eqn:Hp.
      * rewrite (handleMessage_response _ _ _ _ _ _ Hid Hp).
        now apply Accounted_settle.
      * destruct (handleMessage_other workspaceUri process message c)
          as (E1 & E2 & E3 & E4 & E5).
        { intros j Hj. congruence. }
        eapply Accounted_same; eassumption.
    + destruct (handleMessage_other workspaceUri process message c)
        as (E1 & E2 & E3 & E4 & E5).
      { intros j Hj. congruence. }
      eapply Accounted_same; eassumption.
  - destruct (timers c !! h) as [t|] eqn:Ht.
    + rewrite (timerFires_settle _ _ _ Ht). intros [= <-].
      now apply Accounted_settle.
    + unfold timerFires. rewrite Ht. discriminate.
Qed.

Lemma Accounted_run events :
  forall c c', Accounted c -> run workspaceUri c events = Some c' -> Accounted c'.
Proof.
  induction events as [|e events IH]; intros c c' Hc; cbn.
  - now intros [= <-].
  - destruct (step workspaceUri c e) as [c1|] eqn:Hstep; [|discriminate].
    apply IH. eapply Accounted_step; eassumption.
Qed.

(** X11: no request is lost and no id is reused.  After any sequence of
    events the next id is one more than the number of calls of [sendRequest];
    the call number [h] (counted from 0) took the id [h + 1]; and each call
    made so far is in exactly one of two states: its entry is in
    [pendingRequests] under its id and its promise is unsettled, or the
    entry is gone and its promise has been settled. *)
Theorem every_request_is_pending_or_settled events c :
  run workspaceUri newClient events = Some c ->
  nextId c = Z.of_nat (calls c) + 1
  /\ forall h,
       (h < calls c)%nat ->
       (pendingRequests c !! IdNumber (Z.of_nat h + 1) = Some {| call := h |}
        /\ ~ In h (map fst (settlements c)))
       \/ (pendingRequests c !! IdNumber (Z.of_nat h + 1) = None
           /\ exists o, In (h, o) (settlements c)).
Proof.
  intros Hrun.
  pose proof (Consistent_run workspaceUri events _ _ Consistent_new Hrun) as Hc.
  pose proof (Accounted_run events _ _ Accounted_new Hrun) as Ha.
  split; [exact (next_id c Ha)|].
  intros h Hh. destruct (accounted c Ha h Hh) as [[t Ht]|Hin].
  - left. destruct (timer_pending c Hc h t Ht) as (Hp & _ & _ & Hns).
    rewrite (timer_id c Ha h t Ht) in Hp. split; assumption.
  - right. split.
    + destruct (pendingRequests c !! IdNumber (Z.of_nat h + 1)) as [p|] eqn:Hp;
        [|reflexivity].
      exfalso.
      destruct (pending_timer c Hc _ _ Hp) as (t & Ht & Hid).
      pose proof (timer_id c Ha _ _ Ht) as Htid.
      assert (call p = h) by (injection Hid as Hid; lia).
      subst h. now destruct (timer_pending c Hc _ _ Ht) as (_ & _ & _ & Hns).
    + apply in_map_iff in Hin as ([h' o] & Hfst & Hin). cbn in Hfst. subst h'.
      now exists o.
Qed.

End Running.

Lemma every_request_is_pending_or_settled_witness :
  exists c,
    run (fun _ => "file:///w"%string) newClient
      [SendRequest 0%nat "initialize" VNull 30000;
       SendRequest 1%nat "textDocument/definition" VNull 30000;
       SendRequest 0%nat "textDocument/rename" VNull 60000;
       Receive 1%nat (response 2 VNull);
       TimerFires 0%nat] = Some c
    /\ nextId c = 4
    /\ pendingRequests c !! IdNumber 3 = Some {| call := 2%nat |}
    /\ pendingRequests c !! IdNumber 1 = None.
Proof.
  destruct (run (fun _ => "file:///w"%string) newClient
              [SendRequest 0%nat "initialize" VNull 30000;
               SendRequest 1%nat "textDocument/definition" VNull 30000;
               SendRequest 0%nat "textDocument/rename" VNull 60000;
               Receive 1%nat (response 2 VNull);
               TimerFires 0%nat]) as [c|] eqn:Hrun.
  - exists c. split; [reflexivity|].
    destruct (every_request_is_pending_or_settled _ _ _ Hrun) as [Hnext Hall].
    assert (Hcalls : calls c = 3%nat).
    { apply (f_equal (option_map calls)) in Hrun.
      vm_compute in Hrun. injection Hrun as Hs. symmetry. exact Hs. }
    assert (Hset : map fst (settlements c) = [1%nat; 0%nat]).
    { apply (f_equal (option_map (fun c => map fst (settlements c)))) in Hrun.
      vm_compute in Hrun. injection Hrun as Hs. symmetry. exact Hs. }
    rewrite Hcalls in Hnext, Hall. split; [exact Hnext|]. split.
    + destruct (Hall 2%nat ltac:(lia)) as [[Hp _]|[_ [o Hin]]]; [exact Hp|].
      exfalso. apply (in_map fst) in Hin. rewrite Hset in Hin. cbn in Hin.
      destruct Hin as [E|[E|[]]]; discriminate E.
    + destruct (Hall 0%nat ltac:(lia)) as [[_ Hns]|[Hp _]]; [|exact Hp].
      exfalso. apply Hns. rewrite Hset. cbn. tauto.
  - vm_compute in Hrun. discriminate Hrun.
Defined.

End LedgerFacts.

(** ** Symbols, kinds and locations *)

Section SymbolSearchFacts.
Import Types Dispatcher SymbolSearch.

Section DocumentSymbolInduction.
Variable P : DocumentSymbol -> Prop.
Hypothesis step :
  forall name kind selectionStart children,
    Forall P children -> P (mkDocumentSymbol name kind selectionStart children).

Fixpoint DocumentSymbol_nested_ind (sym : DocumentSymbol) : P sym :=
  match sym with
  | mkDocumentSymbol name kind selectionStart children =>
      step name kind selectionStart children
        ((fix all (l : list DocumentSymbol) : Forall P l :=
            match l with
            | [] => @List.Forall_nil _ P
            | c :: l' =>
                @List.Forall_cons _ P c l' (DocumentSymbol_nested_ind c) (all l')
            end) children)
  end.

End DocumentSymbolInduction.

Lemma pushMatch_selected symbolName desiredKind name kind position matches :
  pushMatch symbolName desiredKind name kind position matches
  = matches
    ++ List.filter (selected symbolName desiredKind)
         [{| sm_name := name; sm_kind := kind; sm_position := position |}].
Proof.
  unfold pushMatch. cbn [List.filter]. unfold selected. cbn [sm_name sm_kind].
  destruct (String.eqb name symbolName); cbn [negb andb].
  - destruct desiredKind as [|k|]; [reflexivity| |now rewrite app_nil_r].
    destruct (kind =? k); cbn [negb]; [reflexivity|now rewrite app_nil_r].
  - now rewrite app_nil_r.
Qed.

Lemma walkDocumentSymbol_selected symbolName desiredKind sym :
  forall matches,
    walkDocumentSymbol symbolName desiredKind sym matches
    = matches ++ List.filter (selected symbolName desiredKind) (preorder sym).
Proof.
  induction sym as [name kind selectionStart children IH]
    using DocumentSymbol_nested_ind.
  intros matches. cbn [walkDocumentSymbol preorder].
  rewrite pushMatch_selected.
  assert (Hfold : forall acc,
             fold_left
               (fun acc child => walkDocumentSymbol symbolName desiredKind child acc)
               children acc
             = acc ++ List.filter (selected symbolName desiredKind)
                        (concat (map preorder children))).
  { induction IH as [|c cs Hc _ IHcs]; intros acc; cbn [fold_left map concat].
    - cbn [List.filter]. now rewrite app_nil_r.
    - rewrite IHcs, Hc, List.filter_app. now rewrite <- app_assoc. }
  rewrite Hfold, <- app_assoc. f_equal.
  change (?x :: concat ?l) with ([x] ++ concat l).
  now rewrite List.filter_app.
Qed.

(** X12: [findSymbolsByName] selects among all the symbols that the
    document-symbol result declares, nested children included, read in
    document order (a symbol before its children, entries in the order of
    the result): it returns, in that order, exactly those whose name is the
    name asked for and, when a kind is asked for, whose kind is that kind.
    A falsy entry declares nothing. *)
Theorem matchSymbols_selects_in_document_order symbolName desiredKind docs :
  matchSymbols symbolName desiredKind docs
  = List.filter (selected symbolName desiredKind) (concat (map declared docs)).
Proof.
  unfold matchSymbols.
  assert (Hfold : forall acc,
             fold_left
               (fun matches sym =>
                  match sym with
                  | Falsy => matches
                  | Flat name kind locationStart =>
                      pushMatch symbolName desiredKind name kind locationStart matches
                  | Hierarchical d =>
                      walkDocumentSymbol symbolName desiredKind d matches
                  end) docs acc
             = acc ++ List.filter (selected symbolName desiredKind)
                        (concat (map declared docs))).
  { induction docs as [|[d|name kind p|] docs IH]; intros acc;
      cbn [fold_left map concat declared].
    - cbn [List.filter]. now rewrite app_nil_r.
    - rewrite IH, walkDocumentSymbol_selected, List.filter_app.
      now rewrite <- app_assoc.
    - rewrite IH, pushMatch_selected, List.filter_app. now rewrite <- app_assoc.
    - rewrite IH. reflexivity. }
  now rewrite Hfold.
Qed.

(** X13: the two kind tables agree: for every kind number of the protocol
    (1 to 26) the name that [symbolKindToString] prints is read back by
    [symbolKindFromString] as that number, the camel-case names
    [enumMember] and [typeParameter] included. *)
Theorem symbolKind_roundtrip (kind : Z) :
  1 <= kind <= 26 ->
  symbolKindFromString (Some (symbolKindToString kind)) = KindNumber kind.
Proof.
  intros Hk.
  assert (Hall : forallb
            (fun n =>
               match symbolKindFromString (Some (symbolKindToString (Z.of_nat n))) with
               | KindNumber k => k =? Z.of_nat n
               | _ => false
               end) (seq 1 26) = true) by (vm_compute; reflexivity).
  rewrite forallb_forall in Hall.
  specialize (Hall (Z.to_nat kind)).
  rewrite Z2Nat.id in Hall by lia.
  assert (Hin : In (Z.to_nat kind) (seq 1 26)) by (apply in_seq; lia).
  specialize (Hall Hin).
  destruct (symbolKindFromString (Some (symbolKindToString kind))) as [|k|];
    try discriminate Hall.
  apply Z.eqb_eq in Hall. now subst k.
Qed.

Lemma symbolKind_roundtrip_witness :
  symbolKindFromString (Some (symbolKindToString 22)) = KindNumber 22.
Proof. apply symbolKind_roundtrip. lia. Defined.

End SymbolSearchFacts.

(** ** Open documents *)

Section DocumentFacts.
Import Types Dispatcher.
Variable resolvePath : string -> string.
Variable pathToUri : string -> string.
Variable readFile : string -> option jsstring.


End DocumentFacts.


(** ** Initialization options *)

Section AutoInitFacts.
Import Types Dispatcher AutoInit.

Lemma assoc_setField_eq k v fields :
  assoc String.eqb k (setField k v fields) = Some v.
Proof.
  induction fields as [|[k' v'] fields IH]; cbn [setField assoc].
  - now rewrite String.eqb_refl.
  - destruct (String.eqb k k') eqn:E; cbn [assoc]; rewrite E; [reflexivity|exact IH].
Qed.

Lemma assoc_setField_ne k k0 v fields :
  k0 <> k -> assoc String.eqb k0 (setField k v fields) = assoc String.eqb k0 fields.
Proof.
  intros Hne. induction fields as [|[k' v'] fields IH]; cbn [setField assoc].
  - apply String.eqb_neq in Hne. now rewrite Hne.
  - destruct (String.eqb k k') eqn:E; cbn [assoc].
    + apply String.eqb_eq in E. subst k'.
      apply String.eqb_neq in Hne. now rewrite Hne.
    + destruct (String.eqb k0 k'); [reflexivity|exact IH].
Qed.

Lemma setField_same k v fields :
  assoc String.eqb k fields = Some v -> setField k v fields = fields.
Proof.
  induction fields as [|[k' v'] fields IH]; cbn [setField assoc]; [discriminate|].
  destruct (String.eqb k k'); [now intros [= ->]|].
  intros H. now rewrite IH.
Qed.


(** X16: when [applyAutoInitializationOptions] applies, the options name
    the directory found.  For a config that is TypeScript-like, a directory
    that was found, and options that are absent or a plain object in which
    the user gives no [tsdk] (none, not a string, or only white space),
    [typescript.tsdk] of the options sent is that directory. *)
Theorem applyAutoInitializationOptions_sets_tsdk serverConfig dir existing :
  shouldConsiderTypescriptTsdk serverConfig = true ->
  dir <> ""%string ->
  existing = VUndefined \/ isPlainObject existing = true ->
  (forall s, member "tsdk" (member "typescript" existing) = VString s ->
             trim s = ""%string) ->
  member "tsdk"
    (member "typescript"
       (applyAutoInitializationOptions serverConfig (Some dir) existing))
  = VString dir.
Proof.
  intros Hts Hdir Hshape Huser. unfold applyAutoInitializationOptions.
  rewrite Hts. cbn [negb isFalsyString].
  apply String.eqb_neq in Hdir. rewrite Hdir.
  assert (Hblank :
            match default VUndefined
                    (assoc String.eqb "tsdk"
                       (spreadPlain
                          (default VUndefined
                             (assoc String.eqb "typescript" (spreadPlain existing)))))
            with
            | VString s => String.eqb (trim s) ""
            | _ => true
            end = true).
  { unfold member in Huser.
    destruct (default VUndefined (assoc String.eqb "tsdk" _)) as [| | | |s| |];
      try reflexivity.
    apply String.eqb_eq. now apply Huser. }
  destruct Hshape as [->|Hobj].
  - unfold member. cbn [spreadPlain assoc default from_option Datatypes.id setField].
    rewrite !String.eqb_refl. reflexivity.
  - destruct existing as [| | | | | |fields]; try discriminate Hobj.
    cbn [spreadPlain] in Hblank |- *. rewrite Hblank.
    unfold member. cbn [spreadPlain]. rewrite assoc_setField_eq.
    cbn [default from_option Datatypes.id spreadPlain]. now rewrite assoc_setField_eq.
Qed.

Lemma applyAutoInitializationOptions_sets_tsdk_witness :
  let existing :=
    VObject [("hostInfo", VString "enrilsp");
             ("typescript", VObject [("tsdk", VString "  ")])]%string in
  member "tsdk"
    (member "typescript"
       (applyAutoInitializationOptions Scenario.tsserver
          (Some "/w/node_modules/typescript/lib"%string) existing))
  = VString "/w/node_modules/typescript/lib".
Proof.
  cbv zeta. apply applyAutoInitializationOptions_sets_tsdk.
  - vm_compute. reflexivity.
  - discriminate.
  - right. reflexivity.
  - intros s Hs. vm_compute in Hs. injection Hs as <-. vm_compute. reflexivity.
Defined.

End AutoInitFacts.

(** ** The workspace root *)

Section WorkspaceRootFacts.
Import Types Dispatcher WorkspaceRoot.
Variable normalize : string -> string.
Variable dirname : string -> string.
Variable readdir : string -> option (list string).

#[local] Abbreviation key := (workspaceRootCacheKey normalize).
#[local] Abbreviation marked := (markedDir readdir).
#[local] Abbreviation above := (ancestor dirname).
#[local] Abbreviation detect :=
  (detectWorkspaceRootFromDir normalize dirname readdir).

(** Where the loop stops, and what it has visited by then. *)
Lemma climb_stops languageId fuel :
  forall current visited found visited',
    climb dirname readdir fuel languageId current visited = Some (found, visited') ->
    exists m,
      visited' = visited ++ map (fun i => above i current) (seq 0 (S m))
      /\ (forall j, (j < m)%nat ->
            marked languageId (above j current) = false
            /\ dirname (above j current) <> above j current)
      /\ (marked languageId (above m current) = true
          /\ found = Some (above m current)
          \/ marked languageId (above m current) = false
             /\ dirname (above m current) = above m current
             /\ found = None).
Proof.
  induction fuel as [|fuel IH]; intros current visited found visited';
    cbn [climb]; [discriminate|].
  destruct (marked languageId current) eqn:Hmark.
  { intros [= <- <-]. exists 0%nat. cbn [seq map ancestor].
    split; [reflexivity|]. split; [intros j Hj; lia|]. now left. }
  destruct (String.eqb (dirname current) current) eqn:Hfix.
  { apply String.eqb_eq in Hfix. intros [= <- <-]. exists 0%nat.
    cbn [seq map ancestor].
    split; [reflexivity|]. split; [intros j Hj; lia|]. now right. }
  apply String.eqb_neq in Hfix. intros Hclimb.
  destruct (IH _ _ _ _ Hclimb) as (m & Hvisited & Hbefore & Hstop).
  exists (S m). split; [|split].
  - rewrite Hvisited, <- app_assoc. f_equal.
    change (seq 0 (S (S m))) with (0%nat :: seq 1 (S m)).
    rewrite <- seq_shift. cbn [map app ancestor]. f_equal.
    now rewrite map_map.
  - intros [|j] Hj; cbn [ancestor]; [now split|]. apply Hbefore. lia.
  - exact Hstop.
Qed.

(** The loop ends once [dirname] no longer changes the directory. *)
Lemma climb_enough languageId n :
  forall fuel current visited,
    dirname (above n current) = above n current ->
    (n < fuel)%nat ->
    exists outcome,
      climb dirname readdir fuel languageId current visited = Some outcome.
Proof.
  induction n as [|n IH]; intros [|fuel] current visited Hfix Hfuel; try lia;
    cbn [climb].
  - destruct (marked languageId current); [eauto|].
    cbn [ancestor] in Hfix. rewrite Hfix, String.eqb_refl. eauto.
  - destruct (marked languageId current); [eauto|].
    destruct (String.eqb (dirname current) current); [eauto|].
    apply IH; [exact Hfix|lia].
Qed.

Lemma remember_lookup languageId root d visited :
  forall cache,
    In d visited \/ cache !! key languageId d = Some root ->
    remember normalize languageId visited root cache !! key languageId d
    = Some root.
Proof.
  unfold remember.
  induction visited as [|x visited IH]; intros cache H; cbn [fold_left].
  - destruct H as [[]|H]. exact H.
  - apply IH. destruct H as [[->|Hin]|Hc].
    + right. apply lookup_insert_eq.
    + now left.
    + right.
      destruct (decide (key languageId x = key languageId d)) as [E|Hne].
      * rewrite E. apply lookup_insert_eq.
      * rewrite lookup_insert_ne by exact Hne. exact Hc.
Qed.

(** X17: on a cache miss, [detectWorkspaceRootFromDir] returns the nearest
    directory, going up from the starting directory, that can be read and
    holds a marker of the language or [.git]; when no directory up to the
    top holds one, it returns the starting directory.  It returns as soon as
    [dirname] reaches a directory that is its own parent. *)
Theorem detectWorkspaceRootFromDir_finds_nearest_marker
    fuel startDir languageId cache n :
  let start := normalize startDir in
  cache !! key languageId start = None ->
  dirname (above n start) = above n start ->
  (n < fuel)%nat ->
  exists root cache' m,
    detect fuel startDir languageId cache = Some (root, cache')
    /\ (m <= n)%nat
    /\ (forall j, (j < m)%nat -> marked languageId (above j start) = false)
    /\ (marked languageId (above m start) = true /\ root = above m start
        \/ marked languageId (above m start) = false
           /\ dirname (above m start) = above m start /\ root = start).
Proof.
  cbv zeta. intros Hmiss Hfix Hfuel. unfold detectWorkspaceRootFromDir.
  rewrite Hmiss. cbn [default from_option Datatypes.id negb String.eqb].
  destruct (climb_enough languageId n fuel (normalize startDir) [] Hfix Hfuel)
    as ([found visited] & Hclimb).
  rewrite Hclimb.
  destruct (climb_stops _ _ _ _ _ _ Hclimb) as (m & _ & Hbefore & Hstop).
  eexists _, _, m. split; [reflexivity|].
  assert (Hm : (m <= n)%nat).
  { destruct (Nat.le_gt_cases m n) as [Hle|Hgt]; [exact Hle|].
    exfalso. destruct (Hbefore n Hgt) as [_ Hne]. now apply Hne. }
  split; [exact Hm|]. split; [intros j Hj; now apply Hbefore|].
  destruct Hstop as [(Hmark & ->)|(Hmark & Hstay & ->)]; [left|right]; auto.
Qed.

(** X18: what one search has found is the answer for every directory it
    went through.  After a search from [startDir] that missed the cache and
    returned [root], a call for the same language from [startDir] or from
    any directory above it that the search visited (every directory below
    the one where it stopped, and that one) returns [root] from the cache,
    without reading a directory and without changing the cache.  When the
    search fell back to the starting directory, this is the answer for the
    directories above it as well. *)
Theorem detectWorkspaceRootFromDir_remembers_visited
    fuel startDir languageId cache root cache' i startDir' fuel' :
  let start := normalize startDir in
  cache !! key languageId start = None ->
  detect fuel startDir languageId cache = Some (root, cache') ->
  root <> ""%string ->
  (forall j, (j < i)%nat ->
     marked languageId (above j start) = false
     /\ dirname (above j start) <> above j start) ->
  normalize startDir' = above i start ->
  detect fuel' startDir' languageId cache' = Some (root, cache').
Proof.
  cbv zeta. intros Hmiss Hrun Hroot Hway Hdir.
  unfold detectWorkspaceRootFromDir in Hrun.
  rewrite Hmiss in Hrun.
  cbn [default from_option Datatypes.id negb String.eqb] in Hrun.
  destruct (climb dirname readdir fuel languageId (normalize startDir) [])
    as [[found visited]|] eqn:Hclimb; [|discriminate].
  injection Hrun as Hr Hc.
  destruct (climb_stops _ _ _ _ _ _ Hclimb) as (m & Hvisited & Hbefore & Hstop).
  assert (Hi : (i <= m)%nat).
  { destruct (Nat.le_gt_cases i m) as [Hle|Hgt]; [exact Hle|].
    exfalso. destruct (Hway m Hgt) as [Hmark Hne].
    destruct Hstop as [(Hm & _)|(_ & Hstay & _)]; [congruence|now apply Hne]. }
  assert (Hin : In (above i (normalize startDir)) visited).
  { rewrite Hvisited, app_nil_l. apply in_map_iff. exists i.
    split; [reflexivity|]. apply in_seq. lia. }
  unfold detectWorkspaceRootFromDir. rewrite Hdir, <- Hc.
  rewrite (remember_lookup languageId _ _ visited cache (or_introl Hin)).
  cbn [default from_option Datatypes.id]. rewrite Hr.
  apply String.eqb_neq in Hroot. now rewrite Hroot.
Qed.

End WorkspaceRootFacts.

Lemma detectWorkspaceRootFromDir_finds_nearest_marker_witness :
  exists cache',
    WorkspaceRoot.detectWorkspaceRootFromDir Scenario.samePath
      WorkspaceRoot.parentOf WorkspaceRoot.listing 10
      "/w/src/lib" "TypeScript" ∅ = Some ("/w"%string, cache').
Proof.
  destruct (detectWorkspaceRootFromDir_finds_nearest_marker
              Scenario.samePath WorkspaceRoot.parentOf WorkspaceRoot.listing
              10 "/w/src/lib" "TypeScript" ∅ 3)
    as (root & cache' & m & Hrun & Hm & Hbefore & Hstop).
  - reflexivity.
  - vm_compute. reflexivity.
  - lia.
  - exists cache'. rewrite Hrun. do 2 f_equal.
    apply (f_equal (option_map fst)) in Hrun. vm_compute in Hrun.
    injection Hrun as Hroot. symmetry. exact Hroot.
Defined.

Lemma detectWorkspaceRootFromDir_remembers_visited_witness :
  exists cache',
    WorkspaceRoot.detectWorkspaceRootFromDir Scenario.samePath
      WorkspaceRoot.parentOf WorkspaceRoot.listing 10
      "/w/src/lib" "typescript" ∅ = Some ("/w"%string, cache')
    /\ WorkspaceRoot.detectWorkspaceRootFromDir Scenario.samePath
         WorkspaceRoot.parentOf WorkspaceRoot.listing 0
         "/w/src" "typescript" cache' = Some ("/w"%string, cache').
Proof.
  destruct (WorkspaceRoot.detectWorkspaceRootFromDir Scenario.samePath
              WorkspaceRoot.parentOf WorkspaceRoot.listing 10
              "/w/src/lib" "typescript" ∅) as [[root cache']|] eqn:Hrun.
  - assert (Hroot : root = "/w"%string).
    { apply (f_equal (option_map fst)) in Hrun. vm_compute in Hrun.
      injection Hrun as Hroot. symmetry. exact Hroot. }
    subst root. exists cache'. split; [reflexivity|].
    apply (detectWorkspaceRootFromDir_remembers_visited
             Scenario.samePath WorkspaceRoot.parentOf WorkspaceRoot.listing
             10 "/w/src/lib" "typescript" ∅ "/w" cache' 1 "/w/src" 0).
    + reflexivity.
    + exact Hrun.
    + discriminate.
    + intros j Hj. assert (j = 0%nat) as -> by lia.
      vm_compute. split; [reflexivity|discriminate].
    + reflexivity.
  - vm_compute in Hrun. discriminate Hrun.
Defined.

(** ** The exit of a process *)

Section SupervisorExtras.
Import Types Supervisor Scenario.



End SupervisorExtras.
